(** * cpplox: the tree-walking interpreter of [src/interpreter.cpp]

    A shallow embedding of [motts::lox::Interpreter], its [Environment]
    scope chain, the [Callable]s and the visitors of [interpreter.cpp],
    followed by the properties of the evaluator proved on that embedding.

    Conventions of the embedding.
    - [std::shared_ptr<Environment>] and [std::shared_ptr<Callable>] are
      indices into two stores kept in the interpreter state; [make_shared]
      appends to a store and yields the new index, so two pointers are equal
      exactly when the indices are.
    - A [vector<pair<string, Literal>>::iterator] that is not [end()] is a
      pair (frame index, position in the frame's vector); [end()] is the
      absence of such a pair, and an iterator into the vector of one frame
      is never the [end()] of another.
    - [double] is IEEE 754 binary64, as [spec_float] with precision 53 and
      maximal exponent 1024.
    - A C++ exception carries the interpreter state it leaves behind: the
      visitors are functions from a state to a state and a [Result].
    - Recursion of the visitors through [accept] is bounded by a fuel
      argument; [Out_of_fuel] stands for a run that needs a deeper
      recursion (or more loop iterations) than the fuel allows.
    - The two stores keep every frame and every function ever made: one
      whose last pointer is gone stays in its store, where nothing reaches
      it.
    - The result register keeps the value that a visit put there: what it
      holds once [result() &&] or [move(result_)] has handed that value out
      is not modelled. The properties below speak of the state that a
      sub-evaluation leaves, or hold whatever the register holds.
    - [now] is one reading of the system clock: the readings of two calls
      of [clock] are not told apart. *)

From Stdlib Require Import ZArith SpecFloat.
From stdpp Require Import base option list strings pretty.

Set Warnings "-register-all".
Local Open Scope string_scope.
Local Open Scope list_scope.

(** ** Tokens *)

(** Modelled from the spec: [Token_type] and [Token] of token.hpp, which is
    not among the sources ("a token carrying source-line metadata for
    diagnostics"). The enumerators are those [interpreter.cpp] names, the
    ones it never mentions are [other_token]; the fields are those it
    reads. *)
Inductive Token_type :=
  | minus | plus | slash | star
  | bang | bang_equal | equal_equal
  | greater | greater_equal | less | less_equal
  | and_ | or_
  | other_token (n : nat).

Record Token := mkToken {
  type : Token_type;
  lexeme : string;
  line : Z
}.

(** ** Literal *)

Definition double := spec_float.
Definition prec : Z := 53.
Definition emax : Z := 1024.

(** Modelled from the spec: [Literal] of literal.hpp, which is not among the
    sources ("a closed variant over {Nil, Bool(bool), Number(double),
    String(text), Callable(shared reference to a Callable)}"): a
    [boost::variant] over [nullptr_t], [bool], [double], [string] and
    [shared_ptr<Callable>], whose default-constructed value [Literal{}] is
    nil. *)
Inductive Literal :=
  | Lit_nil
  | Lit_bool (b : bool)
  | Lit_number (d : double)
  | Lit_string (s : string)
  | Lit_callable (p : nat).

(** ** Abstract syntax *)

(** Modelled from the spec: the nodes of expression.hpp and statement.hpp,
    which are not among the sources (one node kind per item of the spec's
    "Expression evaluation" and "Statement execution"), each with the
    members [interpreter.cpp] reads; an optional child is a pointer that may
    be null. *)

Inductive Expr :=
  | Literal_expr (value : Literal)
  | Grouping_expr (expr : Expr)
  | Unary_expr (op : Token) (right : Expr)
  | Binary_expr (left : Expr) (op : Token) (right : Expr)
  | Var_expr (name : Token)
  | Assign_expr (name : Token) (value : Expr)
  | Logical_expr (left : Expr) (op : Token) (right : Expr)
  | Call_expr (callee : Expr) (closing_paren : Token) (arguments : list Expr).

Inductive Stmt :=
  | Expr_stmt (expr : Expr)
  | If_stmt (condition : Expr) (then_branch : Stmt) (else_branch : option Stmt)
  | While_stmt (condition : Expr) (body : Stmt)
  | Print_stmt (expr : Expr)
  | Var_stmt (name : Token) (initializer : option Expr)
  | Block_stmt (statements : list Stmt)
  | Function_stmt (name : Token) (parameters : list Token) (body : list Stmt)
  | Return_stmt (value : option Expr).

(** ** Environment *)

Record Environment := mkEnvironment {
  values_ : list (string * Literal);
  enclosed_ : option nat
}.

(** ** Callable and its two implementations *)

(** The objects behind a [shared_ptr<Callable>]: the [Clock_callable] of
    [Interpreter::Interpreter()] and [Interpreter::Function], with its
    declaration (name, parameters, body) and the environment it closes
    over. [arity] is their [arity()]; a parameter list is taken to fit
    [narrow<int>]. *)

Inductive Callable :=
  | Clock_callable
  | Function (name : Token) (parameters : list Token) (body : list Stmt)
             (enclosed : nat).

Definition arity (c : Callable) : nat :=
  match c with
  | Clock_callable => 0
  | Function _ parameters _ _ => length parameters
  end.

(** ** Interpreter state *)

(** Modelled from the spec: the data members of [Interpreter], declared in
    interpreter.hpp, which is not among the sources ("exactly one active
    environment reference", "one last result register", "one boolean is
    returning flag", and the global environment): [environment_],
    [globals_], [result_] and [returning_]. [environments] and [callables]
    are the two stores behind the shared pointers, [cout] is the list of
    the values written to the standard output (one per [print], oldest
    first; their rendering is that of literal.hpp), and [now] is what
    [system_clock::now()] reads, in seconds. *)
Record Interpreter := mkInterpreter {
  environments : list Environment;
  callables : list Callable;
  environment_ : nat;
  globals_ : nat;
  result_ : Literal;
  returning_ : bool;
  cout : list Literal;
  now : double
}.

Definition set_environments (h : list Environment) (st : Interpreter) :=
  mkInterpreter h (callables st) (environment_ st) (globals_ st)
                (result_ st) (returning_ st) (cout st) (now st).
Definition set_callables (c : list Callable) (st : Interpreter) :=
  mkInterpreter (environments st) c (environment_ st) (globals_ st)
                (result_ st) (returning_ st) (cout st) (now st).
Definition set_environment_ (e : nat) (st : Interpreter) :=
  mkInterpreter (environments st) (callables st) e (globals_ st)
                (result_ st) (returning_ st) (cout st) (now st).
Definition set_result_ (v : Literal) (st : Interpreter) :=
  mkInterpreter (environments st) (callables st) (environment_ st) (globals_ st)
                v (returning_ st) (cout st) (now st).
Definition set_returning_ (b : bool) (st : Interpreter) :=
  mkInterpreter (environments st) (callables st) (environment_ st) (globals_ st)
                (result_ st) b (cout st) (now st).
Definition set_cout (o : list Literal) (st : Interpreter) :=
  mkInterpreter (environments st) (callables st) (environment_ st) (globals_ st)
                (result_ st) (returning_ st) o (now st).

(** ** Exceptions and the monad of the visitors *)

Inductive Exception :=
  | Interpreter_error (what : string)
  | out_of_range.

(** [Undefined] is a dereference of a pointer that is not in its store. *)
Inductive Result (A : Type) :=
  | Ok (a : A)
  | Throw (e : Exception)
  | Undefined
  | Out_of_fuel.
Arguments Ok {A} a.
Arguments Throw {A} e.
Arguments Undefined {A}.
Arguments Out_of_fuel {A}.

Definition M (A : Type) := Interpreter -> Interpreter * Result A.

Definition ret {A} (a : A) : M A := fun st => (st, Ok a).
Definition throw {A} (e : Exception) : M A := fun st => (st, Throw e).
Definition undefined {A} : M A := fun st => (st, Undefined).
Definition out_of_fuel {A} : M A := fun st => (st, Out_of_fuel).

Definition bind {A B} (m : M A) (k : A -> M B) : M B :=
  fun st =>
    match m st with
    | (st', Ok a) => k a st'
    | (st', Throw e) => (st', Throw e)
    | (st', Undefined) => (st', Undefined)
    | (st', Out_of_fuel) => (st', Out_of_fuel)
    end.

Declare Scope lox_scope.
Delimit Scope lox_scope with lox.
Notation "x <- m ;; k" := (bind m (fun x => k))
  (at level 100, m at next level, k at level 200, right associativity)
  : lox_scope.
Notation "m ;; k" := (bind m (fun _ => k))
  (at level 100, k at level 200, right associativity) : lox_scope.
Local Open Scope lox_scope.

Definition gets {A} (f : Interpreter -> A) : M A := fun st => (st, Ok (f st)).
Definition modify (f : Interpreter -> Interpreter) : M unit :=
  fun st => (f st, Ok tt).

(** [gsl::finally]: the action runs when the scope is left, whichever way. *)
Definition finally {A} (action : Interpreter -> Interpreter) (m : M A) : M A :=
  fun st => let (st', r) := m st in (action st', r).

(** [std::to_string] of an integer. *)
Definition to_string (n : Z) : string := pretty n.

(** The constructor of [Interpreter_error] that takes a token, at the end of
    [interpreter.cpp]. The one that takes the message alone is declared in
    interpreter.hpp, which is not among the sources; it is taken to keep the
    message as it is ("a runtime-error value carrying a human-readable
    message and, when available, a [[Line N] Error '<lexeme>': <message>]
    formatted diagnostic string"): it is [Interpreter_error] itself. *)
Definition Interpreter_error_at (what : string) (token : Token) : Exception :=
  Interpreter_error
    ("[Line " +:+ to_string (line token) +:+ "] Error '" +:+ lexeme token
       +:+ "': " +:+ what).

(** ** Environment: [find_in_chain] and [find_own_or_make] *)

Definition find_own (var_name : string) (values : list (string * Literal))
  : option nat :=
  fst <$> list_find (fun value => value.1 = var_name) values.

(** [find_in_chain] follows [enclosed_]; every frame is created with an
    enclosing frame that already exists, so the chain from frame [env] has at
    most [S env] frames, which is the recursion bound taken by
    [find_in_chain]. *)
Fixpoint find_in_chain_from (heap : list Environment) (depth env : nat)
    (var_name : string) : option (nat * nat) :=
  match depth with
  | O => None
  | S depth' =>
      match heap !! env with
      | None => None
      | Some frame =>
          match find_own var_name (values_ frame) with
          | Some i => Some (env, i)
          | None =>
              match enclosed_ frame with
              | Some parent => find_in_chain_from heap depth' parent var_name
              | None => None
              end
          end
      end
  end.

Definition find_in_chain (heap : list Environment) (env : nat)
    (var_name : string) : option (nat * nat) :=
  find_in_chain_from heap (S env) env var_name.

Definition find_own_or_make (var_name : string) (frame : Environment)
  : Environment * nat :=
  match find_own var_name (values_ frame) with
  | Some i => (frame, i)
  | None =>
      (mkEnvironment (values_ frame ++ [(var_name, Lit_nil)]) (enclosed_ frame),
       length (values_ frame))
  end.

(** Reading and writing through an iterator or a [Literal&]. *)
Definition read_at (heap : list Environment) (loc : nat * nat) : option Literal :=
  frame ← heap !! loc.1;
  snd <$> values_ frame !! loc.2.

Definition write_frame (i : nat) (v : Literal) (frame : Environment) : Environment :=
  mkEnvironment (alter (fun value => (value.1, v)) i (values_ frame))
                (enclosed_ frame).

Definition write_at (loc : nat * nat) (v : Literal) (heap : list Environment)
  : list Environment :=
  alter (write_frame loc.2 v) loc.1 heap.

(** [environment_->find_own_or_make(var_name) = v]: every definition of
    the visitors is made in the active environment. *)
Definition define (var_name : string) (v : Literal) : M unit :=
  fun st =>
    match environments st !! environment_ st with
    | None => (st, Undefined)
    | Some frame =>
        let (frame', i) := find_own_or_make var_name frame in
        (set_environments
           (<[environment_ st := write_frame i v frame']> (environments st)) st,
         Ok tt)
    end.

(** [make_shared<Environment>(enclosed)] *)
Definition make_shared_Environment (enclosed : nat) : M nat :=
  fun st =>
    (set_environments (environments st ++ [mkEnvironment [] (Some enclosed)]) st,
     Ok (length (environments st))).

(** [make_shared<Function>(...)] *)
Definition make_shared_Callable (c : Callable) : M nat :=
  fun st =>
    (set_callables (callables st ++ [c]) st, Ok (length (callables st))).

(** ** The visitors of values *)

(** False and nil are falsey, everything else is truthy. *)
Definition Is_truthy_visitor (value : Literal) : bool :=
  match value with
  | Lit_bool b => b
  | Lit_nil => false
  | _ => true
  end.

(** The result is a [Literal], or the exception that the overload for all the
    other combinations of types throws. *)
Definition Plus_visitor (lhs rhs : Literal) : Literal + Exception :=
  match lhs, rhs with
  | Lit_string l, Lit_string r => inl (Lit_string (l +:+ r))
  | Lit_number l, Lit_number r => inl (Lit_number (SFadd prec emax l r))
  | _, _ => inr (Interpreter_error "Operands must be two numbers or two strings.")
  end.

(** Different types compare false, same types use [==] of the type. *)
Definition Is_equal_visitor (lhs rhs : Literal) : bool :=
  match lhs, rhs with
  | Lit_nil, Lit_nil => true
  | Lit_bool l, Lit_bool r => bool_decide (l = r)
  | Lit_number l, Lit_number r => SFeqb l r
  | Lit_string l, Lit_string r => bool_decide (l = r)
  | Lit_callable l, Lit_callable r => bool_decide (l = r)
  | _, _ => false
  end.

(** [boost::get<double>]; [None] is [bad_get]. *)
Definition get_double (value : Literal) : option double :=
  match value with
  | Lit_number d => Some d
  | _ => None
  end.

(** An arm [result_ = Literal{get<double>(l) op get<double>(r)}] of the
    switch of [visit(const Binary_expr&)], inside its [try]: [bad_get]
    becomes the error of the [catch]. *)
Definition numeric (op : Token) (f : double -> double -> Literal)
    (left_result right_result : Literal) : M unit :=
  match get_double left_result, get_double right_result with
  | Some l, Some r => modify (set_result_ (f l r))
  | _, _ => throw (Interpreter_error_at "Operands must be numbers." op)
  end.

(** ** The visitors of expressions and statements *)

Section Visitors.
(** [accept] on a child node: the visit of that node, one level deeper. *)
Variable accept_expr : Expr -> M unit.
Variable accept_stmt : Stmt -> M unit.

(** Modelled from the spec: [lox::apply_visitor] of utility.hpp, which is
    not among the sources. It makes the node accept the visitor and yields
    the visitor's [result()] ("evaluation produces exactly one Literal",
    "the Interpreter exposes the most recently computed Literal"). The
    register is left as the visit set it: what a register that was moved
    from holds is not modelled. *)
Definition apply_visitor (e : Expr) : M Literal :=
  accept_expr e ;; gets result_.

Definition visit_Unary_expr (op : Token) (right : Expr) : M unit :=
  unary_result <- apply_visitor right ;;
  match type op with
  | minus =>
      match get_double unary_result with
      | Some d => modify (set_result_ (Lit_number (SFopp d)))
      | None => throw (Interpreter_error_at "Operands must be numbers." op)
      end
  | bang => modify (set_result_ (Lit_bool (negb (Is_truthy_visitor unary_result))))
  | _ => throw (Interpreter_error_at "Unreachable." op)
  end.

Definition visit_Binary_expr (left : Expr) (op : Token) (right : Expr) : M unit :=
  left_result <- apply_visitor left ;;
  right_result <- apply_visitor right ;;
  match type op with
  | greater =>
      numeric op (fun l r => Lit_bool (SFltb r l)) left_result right_result
  | greater_equal =>
      numeric op (fun l r => Lit_bool (SFleb r l)) left_result right_result
  | less =>
      numeric op (fun l r => Lit_bool (SFltb l r)) left_result right_result
  | less_equal =>
      numeric op (fun l r => Lit_bool (SFleb l r)) left_result right_result
  | bang_equal =>
      modify (set_result_ (Lit_bool (negb (Is_equal_visitor left_result right_result))))
  | equal_equal =>
      modify (set_result_ (Lit_bool (Is_equal_visitor left_result right_result)))
  | minus =>
      numeric op (fun l r => Lit_number (SFsub prec emax l r)) left_result right_result
  | plus =>
      match Plus_visitor left_result right_result with
      | inl v => modify (set_result_ v)
      | inr e => throw e
      end
  | slash =>
      numeric op (fun l r => Lit_number (SFdiv prec emax l r)) left_result right_result
  | star =>
      numeric op (fun l r => Lit_number (SFmul prec emax l r)) left_result right_result
  | _ => throw (Interpreter_error_at "Unreachable." op)
  end.

Definition visit_Var_expr (name : Token) : M unit :=
  fun st =>
    match find_in_chain (environments st) (environment_ st) (lexeme name) with
    | None =>
        (st, Throw (Interpreter_error
                      ("Undefined variable '" +:+ lexeme name +:+ "'.")))
    | Some found =>
        match read_at (environments st) found with
        | Some v => (set_result_ v st, Ok tt)
        | None => (st, Undefined)
        end
    end.

(** The iterator found before the right-hand side is evaluated is the
    position written after it. *)
Definition visit_Assign_expr (name : Token) (value : Expr) : M unit :=
  found <- gets (fun st =>
             find_in_chain (environments st) (environment_ st) (lexeme name)) ;;
  match found with
  | None =>
      throw (Interpreter_error ("Undefined variable '" +:+ lexeme name +:+ "'."))
  | Some found =>
      v <- apply_visitor value ;;
      modify (fun st => set_environments (write_at found v (environments st)) st) ;;
      modify (set_result_ v)
  end.

Definition visit_Logical_expr (left : Expr) (op : Token) (right : Expr) : M unit :=
  left_result <- apply_visitor left ;;
  match type op with
  | or_ =>
      if Is_truthy_visitor left_result
      then modify (set_result_ left_result)
      else accept_expr right
  | and_ =>
      if negb (Is_truthy_visitor left_result)
      then modify (set_result_ left_result)
      else accept_expr right
  | _ => throw (Interpreter_error_at "Unreachable." op)
  end.

(** [environment_ = make_shared<Environment>(enclosed)], the entry of a
    block and of a function call. *)
Definition enter (enclosed : nat) : M unit :=
  env <- make_shared_Environment enclosed ;;
  modify (set_environment_ env).

(** [std::transform] over the argument expressions, front to back. *)
Fixpoint transform (arguments : list Expr) : M (list Literal) :=
  match arguments with
  | [] => ret []
  | argument_expr :: rest =>
      v <- apply_visitor argument_expr ;;
      vs <- transform rest ;;
      ret (v :: vs)
  end.

(** The first loop of [Function::call]. *)
Fixpoint bind_parameters (parameters : list Token) (i : nat)
    (arguments : list Literal) : M unit :=
  match parameters with
  | [] => ret tt
  | parameter :: rest =>
      match arguments !! i with
      | None => throw out_of_range
      | Some argument =>
          define (lexeme parameter) argument ;;
          bind_parameters rest (S i) arguments
      end
  end.

(** The second loop of [Function::call]. *)
Fixpoint run_body (body : list Stmt) : M Literal :=
  match body with
  | [] => ret Lit_nil
  | statement :: rest =>
      accept_stmt statement ;;
      returning <- gets returning_ ;;
      if (returning : bool)
      then modify (set_returning_ false) ;; gets result_
      else run_body rest
  end.

Definition call (callable : Callable) (arguments : list Literal) : M Literal :=
  match callable with
  | Clock_callable => now_ <- gets now ;; ret (Lit_number now_)
  | Function _ parameters body enclosed =>
      fun st =>
        let caller_environment := environment_ st in
        finally (set_environment_ caller_environment)
          (enter enclosed ;;
           bind_parameters parameters 0 arguments ;;
           run_body body) st
  end.

Definition visit_Call_expr (callee : Expr) (closing_paren : Token)
    (arguments : list Expr) : M unit :=
  callee_result <- apply_visitor callee ;;
  match callee_result with
  | Lit_callable p =>
      found <- gets (fun st => callables st !! p) ;;
      match found with
      | None => undefined
      | Some callable =>
          if bool_decide (length arguments ≠ arity callable)
          then throw (Interpreter_error_at
                        ("Expected " +:+ to_string (Z.of_nat (arity callable))
                           +:+ " arguments but got "
                           +:+ to_string (Z.of_nat (length arguments)) +:+ ".")
                        closing_paren)
          else
            arguments_results <- transform arguments ;;
            v <- call callable arguments_results ;;
            modify (set_result_ v)
      end
  | _ => throw (Interpreter_error "Can only call functions and classes.")
  end.

Definition visit_expr (e : Expr) : M unit :=
  match e with
  | Literal_expr value => modify (set_result_ value)
  | Grouping_expr expr => accept_expr expr
  | Unary_expr op right_ => visit_Unary_expr op right_
  | Binary_expr left_ op right_ => visit_Binary_expr left_ op right_
  | Var_expr name => visit_Var_expr name
  | Assign_expr name value => visit_Assign_expr name value
  | Logical_expr left_ op right_ => visit_Logical_expr left_ op right_
  | Call_expr callee closing_paren arguments =>
      visit_Call_expr callee closing_paren arguments
  end.

Definition visit_If_stmt (condition : Expr) (then_branch : Stmt)
    (else_branch : option Stmt) : M unit :=
  condition_result <- apply_visitor condition ;;
  if Is_truthy_visitor condition_result
  then
    accept_stmt then_branch ;;
    returning <- gets returning_ ;;
    if (returning : bool) then ret tt else ret tt
  else
    match else_branch with
    | Some else_branch => accept_stmt else_branch
    | None => ret tt
    end.

(** One turn of the loop of [visit(const While_stmt&)]; the following
    turns are the visit of the same statement, one level deeper. *)
Definition visit_While_stmt (condition : Expr) (body : Stmt) : M unit :=
  condition_result <- apply_visitor condition ;;
  if Is_truthy_visitor condition_result
  then
    accept_stmt body ;;
    returning <- gets returning_ ;;
    if (returning : bool) then ret tt
    else accept_stmt (While_stmt condition body)
  else ret tt.

Definition visit_Print_stmt (expr : Expr) : M unit :=
  v <- apply_visitor expr ;;
  modify (fun st => set_cout (cout st ++ [v]) st).

(** The initializer is evaluated before [find_own_or_make] is called: the
    right operand of an assignment is taken to be sequenced before the left
    one, as it is since C++17. *)
Definition visit_Var_stmt (name : Token) (initializer : option Expr) : M unit :=
  v <- match initializer with
       | Some initializer => apply_visitor initializer
       | None => ret Lit_nil
       end ;;
  define (lexeme name) v.

(** The loop of [visit(const Block_stmt&)]. *)
Fixpoint run_block (statements : list Stmt) : M unit :=
  match statements with
  | [] => ret tt
  | statement :: rest =>
      accept_stmt statement ;;
      returning <- gets returning_ ;;
      if (returning : bool) then ret tt else run_block rest
  end.

Definition visit_Block_stmt (statements : list Stmt) : M unit :=
  fun st =>
    let enclosed := environment_ st in
    finally (set_environment_ enclosed)
      (enter enclosed ;;
       run_block statements) st.

Definition visit_Function_stmt (name : Token) (parameters : list Token)
    (body : list Stmt) : M unit :=
  env <- gets environment_ ;;
  f <- make_shared_Callable (Function name parameters body env) ;;
  define (lexeme name) (Lit_callable f).

Definition visit_Return_stmt (value : option Expr) : M unit :=
  value <- match value with
           | Some value => apply_visitor value
           | None => ret Lit_nil
           end ;;
  modify (set_result_ value) ;;
  modify (set_returning_ true).

Definition visit_stmt (s : Stmt) : M unit :=
  match s with
  | Expr_stmt expr => accept_expr expr
  | If_stmt condition then_branch else_branch =>
      visit_If_stmt condition then_branch else_branch
  | While_stmt condition body => visit_While_stmt condition body
  | Print_stmt expr => visit_Print_stmt expr
  | Var_stmt name initializer => visit_Var_stmt name initializer
  | Block_stmt statements => visit_Block_stmt statements
  | Function_stmt name parameters body =>
      visit_Function_stmt name parameters body
  | Return_stmt value => visit_Return_stmt value
  end.
End Visitors.

(** [expr.accept(interpreter)] and [statement.accept(interpreter)]. *)
Fixpoint accept_expr (fuel : nat) (e : Expr) : M unit :=
  match fuel with
  | O => out_of_fuel
  | S fuel' => visit_expr (accept_expr fuel') (accept_stmt fuel') e
  end
with accept_stmt (fuel : nat) (s : Stmt) : M unit :=
  match fuel with
  | O => out_of_fuel
  | S fuel' => visit_stmt (accept_expr fuel') (accept_stmt fuel') s
  end.

(** The evaluation of an expression and a call, at a given depth. *)
Definition evaluate (fuel : nat) : Expr -> M Literal :=
  apply_visitor (accept_expr fuel).
Definition call_at (fuel : nat) : Callable -> list Literal -> M Literal :=
  call (accept_stmt fuel).

(** [Interpreter::Interpreter()]: the global frame binds [clock]. The
    register starts as nil and the flag as false (the initializers are in
    interpreter.hpp, which is not among the sources). *)
Definition Interpreter_new (now_ : double) : Interpreter :=
  mkInterpreter [mkEnvironment [("clock", Lit_callable 0)] None]
                [Clock_callable] 0 0 Lit_nil false [] now_.

(** Modelled from the spec: the driver, which is not among the sources
    ("the driver hands the Interpreter a sequence of statements; the
    Interpreter evaluates each"); a raised error ends the run. *)
Fixpoint interpret (fuel : nat) (statements : list Stmt) : M unit :=
  match statements with
  | [] => ret tt
  | statement :: rest => accept_stmt fuel statement ;; interpret fuel rest
  end.

(** Numbers of the examples. *)
Definition number (z : Z) : Literal :=
  Lit_number (binary_normalize prec emax z 0 false).

(** ** Predicates of the statements *)

(** [boost::variant::which()]: the index of the alternative held. *)
Definition which (value : Literal) : nat :=
  match value with
  | Lit_nil => 0
  | Lit_bool _ => 1
  | Lit_number _ => 2
  | Lit_string _ => 3
  | Lit_callable _ => 4
  end.

(** Equality of values in the words of the specification: never between
    kinds, and inside a kind the equality of that kind. *)
Definition spec_equal (lhs rhs : Literal) : Prop :=
  match lhs, rhs with
  | Lit_nil, Lit_nil => True
  | Lit_bool l, Lit_bool r => l = r
  | Lit_number l, Lit_number r => SFeqb l r = true
  | Lit_string l, Lit_string r => l = r
  | Lit_callable l, Lit_callable r => l = r
  | _, _ => False
  end.

(** The names bound in each frame of a store. *)
Definition bound_names (heap : list Environment) : list (list string) :=
  (fun frame => (values_ frame).*1) <$> heap.

(** The state in which the statements of a block or of a function body
    start: the store has one more frame, [frame], which is the active one. *)
Definition entered (frame : Environment) (st : Interpreter) : Interpreter :=
  set_environment_ (length (environments st))
    (set_environments (environments st ++ [frame]) st).

(** The bindings of a frame after [find_own_or_make(var_name) = v] on it,
    and what a frame binds a name to. *)
Definition declare (values : list (string * Literal))
    (binding : string * Literal) : list (string * Literal) :=
  let (frame, i) := find_own_or_make binding.1 (mkEnvironment values None) in
  values_ (write_frame i binding.2 frame).

Definition bound_value (var_name : string) (values : list (string * Literal))
  : option Literal :=
  i ← find_own var_name values; snd <$> values !! i.

(** The statements run in order from [st] to [st'], each to its end and
    none leaving the is-returning flag set. *)
Inductive runs_through (accept : Stmt -> M unit)
  : list Stmt -> Interpreter -> Interpreter -> Prop :=
  | runs_through_nil st : runs_through accept [] st st
  | runs_through_cons statement rest st st1 st' :
      accept statement st = (st1, Ok tt) ->
      returning_ st1 = false ->
      runs_through accept rest st1 st' ->
      runs_through accept (statement :: rest) st st'.

(** Expressions and statements whose execution calls nothing (a function
    declaration calls nothing: its body is not executed). *)
Fixpoint calls_nothing_expr (e : Expr) : bool :=
  match e with
  | Literal_expr _ => true
  | Grouping_expr expr => calls_nothing_expr expr
  | Unary_expr _ right_ => calls_nothing_expr right_
  | Binary_expr left_ _ right_ =>
      calls_nothing_expr left_ && calls_nothing_expr right_
  | Var_expr _ => true
  | Assign_expr _ value => calls_nothing_expr value
  | Logical_expr left_ _ right_ =>
      calls_nothing_expr left_ && calls_nothing_expr right_
  | Call_expr _ _ _ => false
  end.

Fixpoint calls_nothing (s : Stmt) : bool :=
  match s with
  | Expr_stmt expr => calls_nothing_expr expr
  | If_stmt condition then_branch else_branch =>
      calls_nothing_expr condition && calls_nothing then_branch
      && match else_branch with
         | Some else_branch => calls_nothing else_branch
         | None => true
         end
  | While_stmt condition body =>
      calls_nothing_expr condition && calls_nothing body
  | Print_stmt expr => calls_nothing_expr expr
  | Var_stmt _ initializer =>
      match initializer with
      | Some initializer => calls_nothing_expr initializer
      | None => true
      end
  | Block_stmt statements => forallb calls_nothing statements
  | Function_stmt _ _ _ => true
  | Return_stmt value =>
      match value with
      | Some value => calls_nothing_expr value
      | None => true
      end
  end.

(** Every frame of the store was created after the frame it encloses. *)
Definition heap_wf (heap : list Environment) : Prop :=
  forall env frame parent,
    heap !! env = Some frame -> enclosed_ frame = Some parent -> parent < env.

(** The states the interpreter builds: the store of frames is well formed,
    the active environment is a frame of the store, and so is the closure
    environment of every function. *)
Definition state_wf (st : Interpreter) : Prop :=
  heap_wf (environments st) /\
  environment_ st < length (environments st) /\
  (forall p name parameters body enclosed,
     callables st !! p = Some (Function name parameters body enclosed) ->
     enclosed < length (environments st)).

(** ** Relations between the state before and the state after *)

(** [m] keeps the relation [P] between the state it starts from and the
    state it leaves, whatever its outcome. *)
Definition keeps (P : Interpreter -> Interpreter -> Prop) {A} (m : M A) : Prop :=
  forall st, P st (m st).1.

(** A relation between the state before and a state after that holds
    across the writes of an expression (calls apart): the result register,
    the output, the setting of the is-returning flag, an assignment through
    an iterator. *)
Class Unobserved (P : Interpreter -> Interpreter -> Prop) : Prop := {
  unobserved_result : forall v st, P st (set_result_ v st);
  unobserved_cout : forall o st, P st (set_cout o st);
  unobserved_returning : forall st, P st (set_returning_ true st);
  unobserved_write : forall found v st,
    P st (set_environments (write_at found v (environments st)) st)
}.

(** A relation that also holds across the declarations of a statement: a
    definition in the active environment, and the creation of a function
    that closes over the active environment. *)
Class Declaring (P : Interpreter -> Interpreter -> Prop) : Prop := {
  declaring_define : forall var_name v st, P st (define var_name v st).1;
  declaring_closure : forall name parameters body st,
    P st (set_callables
            (callables st ++ [Function name parameters body (environment_ st)])
            st)
}.

(** The active environment is the same. *)
Definition same_environment (st st' : Interpreter) : Prop :=
  environment_ st' = environment_ st.

(** The is-returning flag, if set, is still set. *)
Definition flag_stays (st st' : Interpreter) : Prop :=
  returning_ st = true -> returning_ st' = true.

(** The enclosing frame of each frame of a store. *)
Definition parents (heap : list Environment) : list (option nat) :=
  enclosed_ <$> heap.

(** The frames that the store had before bind the same names after, in the
    same order, the frame [skip] apart. *)
Definition settled (skip : option nat) (st st' : Interpreter) : Prop :=
  forall env,
    env < length (environments st) -> skip <> Some env ->
    bound_names (environments st') !! env = bound_names (environments st) !! env.

(** What a statement does to a well-formed state: the state after is well
    formed, with the same active environment, at least the frames and the
    functions of the state before, and the same names in the frames it had,
    the active one apart. *)
Definition grows (st st' : Interpreter) : Prop :=
  state_wf st ->
  state_wf st' /\
  environment_ st' = environment_ st /\
  length (environments st) <= length (environments st') /\
  callables st `prefix_of` callables st' /\
  settled (Some (environment_ st)) st st'.

(** What an expression does to it: the same, and the active frame too binds
    the names it bound. *)
Definition grows_settled (st st' : Interpreter) : Prop :=
  state_wf st ->
  state_wf st' /\
  environment_ st' = environment_ st /\
  length (environments st) <= length (environments st') /\
  callables st `prefix_of` callables st' /\
  settled None st st'.

(** [m'] agrees with [m] wherever [m] does not run out of fuel. *)
Definition refines {A} (m m' : M A) : Prop :=
  forall st, (m st).2 = Out_of_fuel \/ m' st = m st.

(** ** Programs of the examples *)

(** Tokens of the example programs, all on line 1. *)
Definition tok (t : Token_type) (s : string) : Token := mkToken t s 1.
Definition ident (s : string) : Token := tok (other_token 0) s.
Definition closing : Token := tok (other_token 1) ")".
Definition num (z : Z) : Expr := Literal_expr (number z).
Definition var (s : string) : Expr := Var_expr (ident s).
Definition call_ (f : string) (arguments : list Expr) : Expr :=
  Call_expr (var f) closing arguments.

(** The interpreter as constructed, with the clock at zero. *)
Definition fresh_interpreter : Interpreter := Interpreter_new (S754_zero false).

(** [fun f() { print 1; }], and two expressions whose evaluation would
    print through [f]: [clock(f())] and [x = f()]. *)
Definition declare_printer : Stmt :=
  Function_stmt (ident "f") [] [Print_stmt (num 1)].
Definition clock_with_argument : Expr := call_ "clock" [call_ "f" []].
Definition assign_unbound : Expr := Assign_expr (ident "x") (call_ "f" []).

(** [var f0; var f1; var i = 0;
     while (i < 2) { var j = i; fun g() { return j; }
                     if (i == 0) f0 = g; else f1 = g; i = i + 1; }
     print f0(); print f1();] *)
Definition closures_in_loop : list Stmt :=
  [ Var_stmt (ident "f0") None;
    Var_stmt (ident "f1") None;
    Var_stmt (ident "i") (Some (num 0));
    While_stmt (Binary_expr (var "i") (tok less "<") (num 2))
      (Block_stmt
         [ Var_stmt (ident "j") (Some (var "i"));
           Function_stmt (ident "g") [] [Return_stmt (Some (var "j"))];
           If_stmt (Binary_expr (var "i") (tok equal_equal "==") (num 0))
             (Expr_stmt (Assign_expr (ident "f0") (var "g")))
             (Some (Expr_stmt (Assign_expr (ident "f1") (var "g"))));
           Expr_stmt (Assign_expr (ident "i")
                        (Binary_expr (var "i") (tok plus "+") (num 1))) ]);
    Print_stmt (call_ "f0" []);
    Print_stmt (call_ "f1" []) ].

(** [fun fact(n) { if (n <= 1) return 1; return n * fact(n - 1); }
     print fact(5);] *)
Definition factorial : list Stmt :=
  [ Function_stmt (ident "fact") [ident "n"]
      [ If_stmt (Binary_expr (var "n") (tok less_equal "<=") (num 1))
          (Return_stmt (Some (num 1))) None;
        Return_stmt
          (Some (Binary_expr (var "n") (tok star "*")
                   (call_ "fact" [Binary_expr (var "n") (tok minus "-") (num 1)]))) ];
    Print_stmt (call_ "fact" [num 5]) ].

(** [fun g() { print 1; return 7; print 2; }] *)
Definition declare_early_return : Stmt :=
  Function_stmt (ident "g") []
    [Print_stmt (num 1); Return_stmt (Some (num 7)); Print_stmt (num 2)].

(** [fun f(n) { while (true) { if (n > 0) { print n; return n; print 99; }
    print 98; } print 97; }] followed by [print f(3); print 4;]. *)
Definition nested_return : list Stmt :=
  [ Function_stmt (ident "f") [ident "n"]
      [ While_stmt (Literal_expr (Lit_bool true))
          (Block_stmt
             [ If_stmt (Binary_expr (var "n") (tok greater ">") (num 0))
                 (Block_stmt [ Print_stmt (var "n");
                               Return_stmt (Some (var "n"));
                               Print_stmt (num 99) ])
                 None;
               Print_stmt (num 98) ]);
        Print_stmt (num 97) ];
    Print_stmt (call_ "f" [num 3]);
    Print_stmt (num 4) ].

(** [{ { missing; } }]: the inner block fails on an unbound name. *)
Definition failing_blocks : Stmt :=
  Block_stmt [Block_stmt [Expr_stmt (var "missing")]].

(** [var a = 1; { var a = 2; print a; } print a;] *)
Definition shadowing : list Stmt :=
  [ Var_stmt (ident "a") (Some (num 1));
    Block_stmt [Var_stmt (ident "a") (Some (num 2)); Print_stmt (var "a")];
    Print_stmt (var "a") ].

(** [return; { print 1; print 2; }] and
    [return; fun f() { nil; } f(); { print 1; print 2; }] *)
Definition print_twice : Stmt := Block_stmt [Print_stmt (num 1); Print_stmt (num 2)].
Definition return_then_block : list Stmt := [Return_stmt None; print_twice].
Definition return_call_block : list Stmt :=
  [ Return_stmt None;
    Function_stmt (ident "f") [] [Expr_stmt (Literal_expr Lit_nil)];
    Expr_stmt (call_ "f" []);
    print_twice ].

(** [return; fun f() { 5; } print f();]: the body of [f] has no return. *)
Definition declare_five : Stmt :=
  Function_stmt (ident "f") [] [Expr_stmt (num 5)].
Definition return_then_call : list Stmt :=
  [Return_stmt None; declare_five; Print_stmt (call_ "f" [])].

(** ** The rendering of a callable *)

(** [Function::to_string] and [to_string] of the [Clock_callable]. *)
Definition Callable_to_string (c : Callable) : string :=
  match c with
  | Clock_callable => "<fn clock>"
  | Function name _ _ _ => "<fn " +:+ lexeme name +:+ ">"
  end.

(** ** Predicates and relations of the further properties *)

(** The operators of the arms [get<double>(l) op get<double>(r)] of
    [visit(const Binary_expr&)]. *)
Definition takes_numbers (t : Token_type) : bool :=
  match t with
  | greater | greater_equal | less | less_equal | minus | slash | star => true
  | _ => false
  end.

(** Expressions without an assignment and without a call. *)
Fixpoint reads_only (e : Expr) : bool :=
  match e with
  | Literal_expr _ => true
  | Grouping_expr expr => reads_only expr
  | Unary_expr _ right_ => reads_only right_
  | Binary_expr left_ _ right_ => reads_only left_ && reads_only right_
  | Var_expr _ => true
  | Assign_expr _ _ => false
  | Logical_expr left_ _ right_ => reads_only left_ && reads_only right_
  | Call_expr _ _ _ => false
  end.

(** The state after differs from the state before in the result register
    at most. *)
Definition only_result (st st' : Interpreter) : Prop :=
  st' = set_result_ (result_ st') st.

(** A relation between the state before and a state after that holds
    across each write of the visitors, calls and scopes included: the
    result register, the is-returning flag, one more value on the output, an
    assignment through an iterator, a definition in the active environment,
    one more function, one more (empty) frame, and the switch of the active
    environment. *)
Class Accumulating (P : Interpreter -> Interpreter -> Prop) : Prop := {
  accumulating_result : forall v st, P st (set_result_ v st);
  accumulating_returning : forall b st, P st (set_returning_ b st);
  accumulating_cout : forall v st, P st (set_cout (cout st ++ [v]) st);
  accumulating_write : forall found v st,
    P st (set_environments (write_at found v (environments st)) st);
  accumulating_define : forall var_name v st, P st (define var_name v st).1;
  accumulating_closure : forall c st, P st (set_callables (callables st ++ [c]) st);
  accumulating_frame : forall enclosed st,
    P st (set_environments (environments st ++ [mkEnvironment [] enclosed]) st);
  accumulating_environment_ : forall env st, P st (set_environment_ env st)
}.

(** What was written to the output is still there, in front. *)
Definition output_grows (st st' : Interpreter) : Prop :=
  cout st `prefix_of` cout st'.

(** Each frame of the store has the enclosing frame it had and the names
    it bound, at the same positions, in front of the names bound since, and
    each function is the one it was. *)
Definition store_grows (st st' : Interpreter) : Prop :=
  parents (environments st) `prefix_of` parents (environments st') /\
  (forall env names,
     bound_names (environments st) !! env = Some names ->
     exists names',
       bound_names (environments st') !! env = Some names' /\
       names `prefix_of` names') /\
  callables st `prefix_of` callables st'.

(** The frame at [env], where there is one, has the enclosing frame of
    [frame], and the names of [frame] in front of the names bound since. *)
Definition frame_kept (env : nat) (frame : Environment) (st' : Interpreter)
  : Prop :=
  forall frame',
    environments st' !! env = Some frame' ->
    enclosed_ frame' = enclosed_ frame /\
    (values_ frame).*1 `prefix_of` (values_ frame').*1.

(** No frame binds a name twice. *)
Definition names_distinct (st : Interpreter) : Prop :=
  Forall NoDup (bound_names (environments st)).

Definition stays_distinct (st st' : Interpreter) : Prop :=
  names_distinct st -> names_distinct st'.

(** Expressions and statements as a parser builds them: no literal is a
    callable (a callable is made by a function declaration, or is the
    clock). *)
Fixpoint parsed_expr (e : Expr) : bool :=
  match e with
  | Literal_expr (Lit_callable _) => false
  | Literal_expr _ => true
  | Grouping_expr expr => parsed_expr expr
  | Unary_expr _ right_ => parsed_expr right_
  | Binary_expr left_ _ right_ => parsed_expr left_ && parsed_expr right_
  | Var_expr _ => true
  | Assign_expr _ value => parsed_expr value
  | Logical_expr left_ _ right_ => parsed_expr left_ && parsed_expr right_
  | Call_expr callee _ arguments =>
      parsed_expr callee && forallb parsed_expr arguments
  end.

Fixpoint parsed_stmt (s : Stmt) : bool :=
  match s with
  | Expr_stmt expr => parsed_expr expr
  | If_stmt condition then_branch else_branch =>
      parsed_expr condition && parsed_stmt then_branch
      && match else_branch with
         | Some else_branch => parsed_stmt else_branch
         | None => true
         end
  | While_stmt condition body => parsed_expr condition && parsed_stmt body
  | Print_stmt expr => parsed_expr expr
  | Var_stmt _ initializer =>
      match initializer with
      | Some initializer => parsed_expr initializer
      | None => true
      end
  | Block_stmt statements => forallb parsed_stmt statements
  | Function_stmt _ _ body => forallb parsed_stmt body
  | Return_stmt value =>
      match value with
      | Some value => parsed_expr value
      | None => true
      end
  end.

(** A value whose pointer, if it is a callable, is one of the first [n]
    of the store of callables. *)
Definition value_ok (n : nat) (v : Literal) : Prop :=
  match v with
  | Lit_callable p => p < n
  | _ => True
  end.

(** The stores in which no pointer dangles: the state is well formed,
    every variable holds a value whose pointer is in the store, and the
    body of every function is as a parser builds it. Nothing is asked of
    the result register. *)
Definition store_safe (st : Interpreter) : Prop :=
  state_wf st /\
  (forall env frame,
     environments st !! env = Some frame ->
     Forall (fun value => value_ok (length (callables st)) value.2)
            (values_ frame)) /\
  (forall p name parameters body enclosed,
     callables st !! p = Some (Function name parameters body enclosed) ->
     forallb parsed_stmt body = true).

(** The outcomes of a computation: the stores left are safe and have not
    shrunk, no pointer outside the stores was dereferenced, [at()] was in
    range, and the state left and the value yielded satisfy [ok]. *)
Definition outcome_safe {A} (ok : Interpreter -> A -> Prop) (st : Interpreter)
    (outcome : Interpreter * Result A) : Prop :=
  store_safe outcome.1 /\
  length (environments st) <= length (environments outcome.1) /\
  length (callables st) <= length (callables outcome.1) /\
  match outcome.2 with
  | Ok a => ok outcome.1 a
  | Throw (Interpreter_error _) => True
  | Throw out_of_range => False
  | Undefined => False
  | Out_of_fuel => True
  end.

(** A computation started with safe stores and the is-returning flag
    clear, whatever the result register holds. *)
Definition safe {A} (ok : Interpreter -> A -> Prop) (m : M A) : Prop :=
  forall st,
    store_safe st -> returning_ st = false -> outcome_safe ok st (m st).

(** What is left by a definition: the flag is clear. *)
Definition flag_clear {A} (st : Interpreter) (a : A) : Prop :=
  returning_ st = false.

(** By the evaluation of an expression and by a call: the flag is clear and
    the pointer of the value yielded is in the store. *)
Definition value_fresh (st : Interpreter) (v : Literal) : Prop :=
  returning_ st = false /\ value_ok (length (callables st)) v.

(** By the visit of an expression: the flag is clear and the register
    holds the value that the visit has just put there. *)
Definition register_fresh (st : Interpreter) (a : unit) : Prop :=
  value_fresh st (result_ st).

(** By a statement: where the flag is set, the register holds the value
    that the return statement has just put there. *)
Definition returned_fresh (st : Interpreter) (a : unit) : Prop :=
  returning_ st = true -> value_ok (length (callables st)) (result_ st).

(** The only exceptions are the interpreter's own errors. *)
Definition raises_only_Interpreter_error {A} (r : Result A) : Prop :=
  match r with
  | Throw out_of_range => False
  | Undefined => False
  | _ => True
  end.

(** By [std::transform] over the arguments of a call: the flag is clear
    and there is one value for each argument expression. *)
Definition arguments_fresh (arguments : list Expr) (st : Interpreter)
    (vs : list Literal) : Prop :=
  returning_ st = false /\
  length vs = length arguments /\
  Forall (value_ok (length (callables st))) vs.

(** What [call] is called with: a function of the store,
    or the clock, and as many values as it has parameters. *)
Definition callable_ok (st : Interpreter) (callable : Callable)
    (arguments : list Literal) : Prop :=
  match callable with
  | Clock_callable => True
  | Function _ parameters body enclosed =>
      enclosed < length (environments st) /\
      forallb parsed_stmt body = true /\
      length arguments = length parameters
  end.

(** The is-returning flag, if clear, is still clear. *)
Definition stays_clear (st st' : Interpreter) : Prop :=
  returning_ st = false -> returning_ st' = false.

(** A statement started with the is-returning flag clear that leaves it
    set has completed. *)
Definition completes_when_set (m : M unit) : Prop :=
  forall st,
    returning_ st = false -> returning_ (m st).1 = true -> (m st).2 = Ok tt.

(** Statements that contain no return statement, the bodies of the
    functions they declare apart. *)
Fixpoint returns_nothing (s : Stmt) : bool :=
  match s with
  | Expr_stmt _ => true
  | If_stmt _ then_branch else_branch =>
      returns_nothing then_branch
      && match else_branch with
         | Some else_branch => returns_nothing else_branch
         | None => true
         end
  | While_stmt _ body => returns_nothing body
  | Print_stmt _ => true
  | Var_stmt _ _ => true
  | Block_stmt statements => forallb returns_nothing statements
  | Function_stmt _ _ _ => true
  | Return_stmt _ => false
  end.

(** The depth of the nesting of an expression, and of a statement that
    is not a loop. *)
Fixpoint expr_depth (e : Expr) : nat :=
  match e with
  | Literal_expr _ => 1
  | Grouping_expr expr => S (expr_depth expr)
  | Unary_expr _ right_ => S (expr_depth right_)
  | Binary_expr left_ _ right_ => S (Nat.max (expr_depth left_) (expr_depth right_))
  | Var_expr _ => 1
  | Assign_expr _ value => S (expr_depth value)
  | Logical_expr left_ _ right_ => S (Nat.max (expr_depth left_) (expr_depth right_))
  | Call_expr callee _ arguments =>
      S (Nat.max (expr_depth callee) (list_max (map expr_depth arguments)))
  end.

Fixpoint stmt_depth (s : Stmt) : nat :=
  match s with
  | Expr_stmt expr => S (expr_depth expr)
  | If_stmt condition then_branch else_branch =>
      S (Nat.max (Nat.max (expr_depth condition) (stmt_depth then_branch))
           match else_branch with
           | Some else_branch => stmt_depth else_branch
           | None => 0
           end)
  | While_stmt condition body => S (Nat.max (expr_depth condition) (stmt_depth body))
  | Print_stmt expr => S (expr_depth expr)
  | Var_stmt _ initializer =>
      S match initializer with
        | Some initializer => expr_depth initializer
        | None => 0
        end
  | Block_stmt statements => S (list_max (map stmt_depth statements))
  | Function_stmt _ _ _ => 1
  | Return_stmt value =>
      S match value with
        | Some value => expr_depth value
        | None => 0
        end
  end.

(** Statements without a loop. *)
Fixpoint loops_nothing (s : Stmt) : bool :=
  match s with
  | If_stmt _ then_branch else_branch =>
      loops_nothing then_branch
      && match else_branch with
         | Some else_branch => loops_nothing else_branch
         | None => true
         end
  | While_stmt _ _ => false
  | Block_stmt statements => forallb loops_nothing statements
  | _ => true
  end.

(** The computation finishes: it is not cut short by the bound on the
    recursion. *)
Definition finishes {A} (m : M A) : Prop :=
  forall st, (m st).2 <> Out_of_fuel.

(** * Properties *)

(** ** Stepping through the monad *)

Lemma bind_Ok {A B} (m : M A) (k : A -> M B) st st' a :
  m st = (st', Ok a) -> bind m k st = k a st'.
Proof. intros H. unfold bind. now rewrite H. Qed.

Lemma accept_expr_S fuel e :
  accept_expr (S fuel) e = visit_expr (accept_expr fuel) (accept_stmt fuel) e.
Proof. reflexivity. Qed.

Lemma accept_stmt_S fuel s :
  accept_stmt (S fuel) s = visit_stmt (accept_expr fuel) (accept_stmt fuel) s.
Proof. reflexivity. Qed.

(** Two evaluated operands, then the switch on the operator. *)
Lemma visit_Binary_expr_operands fuel left_ op right_ st st1 st2 l r :
  evaluate fuel left_ st = (st1, Ok l) ->
  evaluate fuel right_ st1 = (st2, Ok r) ->
  accept_expr (S fuel) (Binary_expr left_ op right_) st =
    match type op with
    | greater => numeric op (fun l r => Lit_bool (SFltb r l)) l r
    | greater_equal => numeric op (fun l r => Lit_bool (SFleb r l)) l r
    | less => numeric op (fun l r => Lit_bool (SFltb l r)) l r
    | less_equal => numeric op (fun l r => Lit_bool (SFleb l r)) l r
    | bang_equal => modify (set_result_ (Lit_bool (negb (Is_equal_visitor l r))))
    | equal_equal => modify (set_result_ (Lit_bool (Is_equal_visitor l r)))
    | minus => numeric op (fun l r => Lit_number (SFsub prec emax l r)) l r
    | plus =>
        match Plus_visitor l r with
        | inl v => modify (set_result_ v)
        | inr e => throw e
        end
    | slash => numeric op (fun l r => Lit_number (SFdiv prec emax l r)) l r
    | star => numeric op (fun l r => Lit_number (SFmul prec emax l r)) l r
    | _ => throw (Interpreter_error_at "Unreachable." op)
    end st2.
Proof.
  intros Hl Hr. rewrite accept_expr_S.
  unfold visit_expr, visit_Binary_expr.
  rewrite (bind_Ok _ _ _ _ _ Hl), (bind_Ok _ _ _ _ _ Hr). reflexivity.
Qed.

Lemma set_environments_same st : set_environments (environments st) st = st.
Proof. now destruct st. Qed.

Lemma enter_entered enclosed st :
  enter enclosed st = (entered (mkEnvironment [] (Some enclosed)) st, Ok tt).
Proof. reflexivity. Qed.

Lemma entered_lookup frame st :
  environments (entered frame st) !! environment_ (entered frame st) = Some frame.
Proof. simpl. apply list_lookup_middle. done. Qed.

Lemma call_Function accept name parameters body enclosed arguments st st0 :
  (enter enclosed ;; bind_parameters parameters 0 arguments) st = (st0, Ok tt) ->
  call accept (Function name parameters body enclosed) arguments st =
    finally (set_environment_ (environment_ st)) (run_body accept body) st0.
Proof.
  intros Hentry. simpl. unfold finally.
  unfold bind in Hentry |- *.
  destruct (enter enclosed st) as [s1 [[] | | |]]; try done.
  destruct (bind_parameters parameters 0 arguments s1) as [s2 [[] | | |]];
    try done.
  now inversion Hentry.
Qed.

Lemma run_block_through accept before rest st sa :
  runs_through accept before st sa ->
  run_block accept (before ++ rest) st = run_block accept rest sa.
Proof.
  induction 1 as [| statement before st st1 sa Hs Hflag _ IH]; [done |].
  simpl. rewrite (bind_Ok _ _ _ _ _ Hs).
  unfold gets at 1. unfold bind at 1. rewrite Hflag. exact IH.
Qed.

Lemma run_body_through accept before rest st sa :
  runs_through accept before st sa ->
  run_body accept (before ++ rest) st = run_body accept rest sa.
Proof.
  induction 1 as [| statement before st st1 sa Hs Hflag _ IH]; [done |].
  simpl. rewrite (bind_Ok _ _ _ _ _ Hs).
  unfold gets at 1. unfold bind at 1. rewrite Hflag. exact IH.
Qed.

Lemma run_block_returning accept statement after st st1 :
  accept statement st = (st1, Ok tt) ->
  returning_ st1 = true ->
  run_block accept (statement :: after) st = (st1, Ok tt).
Proof.
  intros Hs Hflag. simpl. rewrite (bind_Ok _ _ _ _ _ Hs).
  unfold gets at 1. unfold bind at 1. now rewrite Hflag.
Qed.

Lemma run_body_returning accept statement after st st1 :
  accept statement st = (st1, Ok tt) ->
  returning_ st1 = true ->
  run_body accept (statement :: after) st
    = (set_returning_ false st1, Ok (result_ st1)).
Proof.
  intros Hs Hflag. simpl. rewrite (bind_Ok _ _ _ _ _ Hs).
  unfold gets at 1. unfold bind at 1. now rewrite Hflag.
Qed.

(** ** Frames *)

Lemma find_own_Some var_name values i :
  find_own var_name values = Some i <->
  (exists v, values !! i = Some (var_name, v)) /\
  (forall j w, values !! j = Some w -> j < i -> w.1 <> var_name).
Proof.
  unfold find_own. split.
  - destruct (list_find _ values) as [[i' [n v]] |] eqn:Hfind; [| done].
    simpl. intros [= ->]. apply list_find_Some in Hfind as (Hi & Hn & Hbefore).
    simpl in Hn. subst n. eauto.
  - intros [[v Hi] Hbefore].
    assert (list_find (fun value => value.1 = var_name) values
            = Some (i, (var_name, v))) as ->; [| done].
    apply list_find_Some. eauto.
Qed.

Lemma find_own_None var_name values :
  find_own var_name values = None <-> var_name ∉ values.*1.
Proof.
  unfold find_own. rewrite fmap_None, list_find_None, Forall_forall.
  rewrite list_elem_of_fmap. split.
  - intros H (w & -> & Hw). by apply (H w).
  - intros H w Hw Heq. apply H. eauto.
Qed.

Lemma find_own_names var_name values :
  find_own var_name values
  = fst <$> list_find (fun n => n = var_name) (values.*1).
Proof.
  unfold find_own. rewrite list_find_fmap, <- option_fmap_compose.
  apply option_fmap_ext. now intros [i x].
Qed.

Lemma find_own_alter var_name f i values :
  (forall x : string * Literal, (f x).1 = x.1) ->
  find_own var_name (alter f i values) = find_own var_name values.
Proof.
  intros Hf. rewrite !find_own_names, (list_fmap_alter fst _ id).
  - now rewrite list_alter_id.
  - apply Forall_forall. intros x _. apply Hf.
Qed.

Lemma find_in_chain_own heap env frame var_name i :
  heap !! env = Some frame ->
  find_own var_name (values_ frame) = Some i ->
  find_in_chain heap env var_name = Some (env, i).
Proof. intros Hframe Hown. unfold find_in_chain. simpl. now rewrite Hframe, Hown. Qed.

(** [frame.find_own_or_make(var_name) = v] leaves [var_name] bound to [v],
    at the position [find_own] yields. *)
Lemma find_own_or_make_bound var_name v frame :
  let (frame', i) := find_own_or_make var_name frame in
  find_own var_name (values_ (write_frame i v frame')) = Some i /\
  values_ (write_frame i v frame') !! i = Some (var_name, v).
Proof.
  unfold find_own_or_make.
  destruct (find_own var_name (values_ frame)) as [i |] eqn:Hfind; simpl.
  - apply find_own_Some in Hfind as [[w Hi] Hbefore].
    assert (Hnew : alter (fun value => (value.1, v)) i (values_ frame) !! i
                   = Some (var_name, v)).
    { rewrite list_lookup_alter_eq, Hi. done. }
    split; [| done]. apply find_own_Some. split; [eauto |].
    intros j x Hj Hlt. rewrite list_lookup_alter_ne in Hj by lia. eauto.
  - assert (Hnew : alter (fun value => (value.1, v)) (length (values_ frame))
                     (values_ frame ++ [(var_name, Lit_nil)])%list
                   = (values_ frame ++ [(var_name, v)])%list).
    { rewrite <- (Nat.add_0_r (length (values_ frame))) at 1.
      now rewrite alter_app_r. }
    rewrite Hnew. split.
    + apply find_own_Some. split.
      * exists v. now rewrite lookup_app_r, Nat.sub_diag by lia.
      * intros j x Hj Hlt. rewrite lookup_app_l in Hj by done.
        apply find_own_None in Hfind. intros <-. apply Hfind.
        apply list_elem_of_fmap. exists x. split; [done |].
        by eapply list_elem_of_lookup_2.
    + now rewrite lookup_app_r, Nat.sub_diag by lia.
Qed.

(** [define] binds the name in the active frame and touches no other
    frame. *)
Lemma define_bound var_name v st frame :
  environments st !! environment_ st = Some frame ->
  exists st' i,
    define var_name v st = (st', Ok tt) /\
    find_in_chain (environments st') (environment_ st) var_name
      = Some (environment_ st, i) /\
    read_at (environments st') (environment_ st, i) = Some v /\
    (forall other, other <> environment_ st ->
       environments st' !! other = environments st !! other) /\
    length (environments st') = length (environments st) /\
    callables st' = callables st /\ environment_ st' = environment_ st /\
    result_ st' = result_ st /\ returning_ st' = returning_ st /\
    cout st' = cout st.
Proof.
  intros Hframe. unfold define. rewrite Hframe.
  pose proof (find_own_or_make_bound var_name v frame) as Hbound.
  destruct (find_own_or_make var_name frame) as [frame' i].
  destruct Hbound as [Hfind Hread].
  assert (Hlt : environment_ st < length (environments st))
    by by eapply lookup_lt_Some.
  eexists _, i. split; [reflexivity |]. simpl.
  repeat split.
  - eapply find_in_chain_own; [| exact Hfind]. now apply list_lookup_insert_eq.
  - unfold read_at. simpl. rewrite list_lookup_insert_eq by done. simpl.
    simpl in Hread. now rewrite Hread.
  - intros other Hother. now apply list_lookup_insert_ne.
  - apply length_insert.
Qed.

Lemma define_declare var_name v st values parent :
  environments st !! environment_ st = Some (mkEnvironment values parent) ->
  define var_name v st =
    (set_environments
       (<[environment_ st :=
            mkEnvironment (declare values (var_name, v)) parent]>
          (environments st)) st, Ok tt).
Proof.
  intros Hframe. unfold define, declare, find_own_or_make. rewrite Hframe.
  simpl. now destruct (find_own var_name values).
Qed.

Lemma define_environment_ var_name v st :
  environment_ (define var_name v st).1 = environment_ st.
Proof.
  unfold define.
  destruct (environments st !! environment_ st) as [frame |]; [| done].
  now destruct (find_own_or_make var_name frame).
Qed.

Lemma define_returning_ var_name v st :
  returning_ (define var_name v st).1 = returning_ st.
Proof.
  unfold define.
  destruct (environments st !! environment_ st) as [frame |]; [| done].
  now destruct (find_own_or_make var_name frame).
Qed.

Lemma define_callables var_name v st :
  callables (define var_name v st).1 = callables st.
Proof.
  unfold define.
  destruct (environments st !! environment_ st) as [frame |]; [| done].
  now destruct (find_own_or_make var_name frame).
Qed.

Lemma write_frame_names i v frame :
  (values_ (write_frame i v frame)).*1 = (values_ frame).*1.
Proof.
  unfold write_frame; simpl.
  rewrite (list_fmap_alter fst _ id).
  - apply list_alter_id. done.
  - apply Forall_forall. done.
Qed.

Lemma write_at_bound_names found v heap :
  bound_names (write_at found v heap) = bound_names heap.
Proof.
  unfold bound_names, write_at.
  rewrite (list_fmap_alter _ _ id).
  - apply list_alter_id. done.
  - apply Forall_forall. intros frame _. apply write_frame_names.
Qed.

(** ** Binding the parameters *)

Lemma bound_value_declare var_name values n v :
  bound_value var_name (declare values (n, v)) =
    if decide (var_name = n) then Some v else bound_value var_name values.
Proof.
  destruct (decide (var_name = n)) as [-> | Hne].
  - pose proof (find_own_or_make_bound n v (mkEnvironment values None)) as H.
    unfold declare, bound_value. cbn [fst snd].
    destruct (find_own_or_make n (mkEnvironment values None)) as [frame i].
    destruct H as [Hfind Hi]. rewrite Hfind. cbn [mbind option_bind].
    now rewrite Hi.
  - unfold declare, find_own_or_make. simpl.
    destruct (find_own n values) as [i |] eqn:Hn; simpl.
    + unfold bound_value.
      rewrite find_own_alter by done.
      destruct (find_own var_name values) as [k |] eqn:Hk; [| done]. simpl.
      rewrite list_lookup_alter_ne; [done |]. intros <-.
      apply find_own_Some in Hn as [[w Hw] _].
      apply find_own_Some in Hk as [[w' Hw'] _]. congruence.
    + unfold bound_value.
      destruct (find_own var_name values) as [k |] eqn:Hk.
      * apply find_own_Some in Hk as [[w Hw] Hbefore].
        assert (find_own var_name (values ++ [(n, Lit_nil)]) = Some k) as Hfind.
        { apply find_own_Some. split.
          - exists w. now apply lookup_app_l_Some.
          - intros j x Hj Hlt. apply (Hbefore j x); [| done].
            rewrite lookup_app_l in Hj; [done |].
            apply lookup_lt_Some in Hw. lia. }
        assert (Hlt : k < length values) by by eapply lookup_lt_Some.
        assert (find_own var_name
                  (alter (fun value => (value.1, v)) (length values)
                     (values ++ [(n, Lit_nil)])) = Some k) as ->.
        { now rewrite find_own_alter by done. }
        simpl. rewrite list_lookup_alter_ne by lia.
        now rewrite lookup_app_l by done.
      * assert (find_own var_name
                  (alter (fun value => (value.1, v)) (length values)
                     (values ++ [(n, Lit_nil)])) = None) as ->; [| done].
        rewrite find_own_alter by done.
        apply find_own_None. rewrite fmap_app, elem_of_app. simpl.
        apply find_own_None in Hk. intros [Hin | Hin]; [done |].
        apply list_elem_of_singleton in Hin. done.
Qed.

Lemma bound_value_fold_other var_name bindings :
  forall values,
    (forall binding, binding ∈ bindings -> binding.1 <> var_name) ->
    bound_value var_name (fold_left declare bindings values)
    = bound_value var_name values.
Proof.
  induction bindings as [| [n v] rest IH]; intros values Hother; [done |].
  simpl. rewrite IH by (intros b Hb; apply Hother; by apply list_elem_of_further).
  rewrite bound_value_declare. destruct (decide (var_name = n)) as [-> |]; [| done].
  destruct (Hother (n, v)); [apply list_elem_of_here | done].
Qed.

(** A binding made and not made again later is the one found. *)
Lemma bound_value_fold var_name v bindings :
  forall values i,
    bindings !! i = Some (var_name, v) ->
    (forall j later, i < j -> bindings !! j = Some later -> later.1 <> var_name) ->
    bound_value var_name (fold_left declare bindings values) = Some v.
Proof.
  induction bindings as [| [n w] rest IH]; intros values i Hi Hlater; [done |].
  destruct i as [| i]; simpl in *.
  - injection Hi as -> ->. rewrite bound_value_fold_other.
    + rewrite bound_value_declare. now destruct (decide _).
    + intros b Hb. apply list_elem_of_lookup in Hb as [j Hj].
      apply (Hlater (S j)); [lia | done].
  - apply (IH _ i Hi). intros j later Hlt Hj. apply (Hlater (S j)); [lia | done].
Qed.

Lemma bind_parameters_fold parameters :
  forall i arguments st values parent,
    environments st !! environment_ st = Some (mkEnvironment values parent) ->
    i + length parameters <= length arguments ->
    bind_parameters parameters i arguments st =
      (set_environments
         (<[environment_ st :=
              mkEnvironment
                (fold_left declare
                   (zip (lexeme <$> parameters) (drop i arguments)) values)
                parent]> (environments st)) st,
       Ok tt).
Proof.
  induction parameters as [| parameter rest IH];
    intros i arguments st values parent Hframe Hlen.
  - simpl. rewrite list_insert_id by done. now rewrite set_environments_same.
  - simpl in Hlen.
    destruct (lookup_lt_is_Some_2 arguments i) as [argument Hargument]; [lia |].
    simpl. rewrite Hargument.
    rewrite (bind_Ok _ _ _ _ _
               (define_declare (lexeme parameter) argument _ _ _ Hframe)).
    assert (Hlt : environment_ st < length (environments st))
      by by eapply lookup_lt_Some.
    rewrite (IH (S i) arguments _
               (declare values (lexeme parameter, argument)) parent).
    + simpl. rewrite list_insert_insert_eq.
      now rewrite (drop_S _ _ _ Hargument).
    + simpl. now apply list_lookup_insert_eq.
    + lia.
Qed.

Lemma enter_bind_parameters parameters enclosed arguments st :
  length arguments = length parameters ->
  (enter enclosed ;; bind_parameters parameters 0 arguments) st =
    (entered (mkEnvironment
                (fold_left declare (zip (lexeme <$> parameters) arguments) [])
                (Some enclosed)) st, Ok tt).
Proof.
  intros Hlen. rewrite (bind_Ok _ _ _ _ _ (enter_entered enclosed st)).
  rewrite (bind_parameters_fold parameters 0 arguments _ [] (Some enclosed)).
  - unfold entered. simpl. f_equal.
    rewrite insert_app_r_alt, Nat.sub_diag by done. reflexivity.
  - apply entered_lookup.
  - lia.
Qed.

Lemma fold_declare_zip names :
  forall (arguments : list Literal) values,
    NoDup names ->
    (forall n, n ∈ names -> n ∉ values.*1) ->
    length arguments = length names ->
    fold_left declare (zip names arguments) values
    = values ++ zip names arguments.
Proof.
  induction names as [| n rest IH]; intros arguments values Hnodup Hfresh Hlen.
  - simpl. now rewrite app_nil_r.
  - destruct arguments as [| v arguments]; [done |]. simpl in *.
    apply NoDup_cons in Hnodup as [Hhead Hnodup].
    assert (Hdeclare : declare values (n, v) = values ++ [(n, v)]).
    { unfold declare, find_own_or_make. simpl.
      assert (find_own n values = None) as ->
        by (apply find_own_None, Hfresh, list_elem_of_here).
      simpl. rewrite <- (Nat.add_0_r (length values)) at 1.
      now rewrite alter_app_r. }
    rewrite Hdeclare, IH, <- app_assoc; [done | done | | lia].
    intros m Hm. rewrite fmap_app, elem_of_app. simpl. intros [Hin | Hin].
    + revert Hin. apply Hfresh. now apply list_elem_of_further.
    + apply list_elem_of_singleton in Hin. now subst m.
Qed.

(** ** The scope chain *)

(** In a well-formed store the recursion bound of [find_in_chain] is never
    reached: any larger bound gives the same answer. *)
Lemma find_in_chain_from_enough heap var_name :
  heap_wf heap ->
  forall depth depth' env,
    env < depth -> env < depth' ->
    find_in_chain_from heap depth env var_name
    = find_in_chain_from heap depth' env var_name.
Proof.
  intros Hwf. induction depth as [| depth IH]; intros depth' env Hd Hd'; [lia |].
  destruct depth' as [| depth']; [lia |]. simpl.
  destruct (heap !! env) as [frame |] eqn:Hframe; [| done].
  destruct (find_own var_name (values_ frame)); [done |].
  destruct (enclosed_ frame) as [parent |] eqn:Hparent; [| done].
  specialize (Hwf env frame parent Hframe Hparent). apply IH; lia.
Qed.

Lemma find_in_chain_step heap env frame var_name :
  heap_wf heap ->
  heap !! env = Some frame ->
  find_in_chain heap env var_name =
    match find_own var_name (values_ frame) with
    | Some i => Some (env, i)
    | None =>
        match enclosed_ frame with
        | Some parent => find_in_chain heap parent var_name
        | None => None
        end
    end.
Proof.
  intros Hwf Hframe. unfold find_in_chain at 1. simpl. rewrite Hframe.
  destruct (find_own var_name (values_ frame)); [done |].
  destruct (enclosed_ frame) as [parent |] eqn:Hparent; [| done].
  pose proof (Hwf env frame parent Hframe Hparent).
  apply find_in_chain_from_enough; [done | lia | lia].
Qed.

(** A lookup from a frame of a well-formed store reads that frame and older
    ones only. *)
Lemma find_in_chain_older heap heap' var_name :
  heap_wf heap ->
  (forall other, other < length heap -> heap' !! other = heap !! other) ->
  forall depth env,
    env < length heap ->
    find_in_chain_from heap' depth env var_name
    = find_in_chain_from heap depth env var_name.
Proof.
  intros Hwf Hsame. induction depth as [| depth IH]; intros env Henv; [done |].
  simpl. rewrite (Hsame env Henv).
  destruct (heap !! env) as [frame |] eqn:Hframe; [| done].
  destruct (find_own var_name (values_ frame)); [done |].
  destruct (enclosed_ frame) as [parent |] eqn:Hparent; [| done].
  specialize (Hwf env frame parent Hframe Hparent). apply IH. lia.
Qed.

(** What a lookup finds can be read. *)
Lemma find_in_chain_readable heap var_name :
  forall depth env found,
    find_in_chain_from heap depth env var_name = Some found ->
    is_Some (read_at heap found).
Proof.
  induction depth as [| depth IH]; intros env found Hfind; [done |].
  simpl in Hfind.
  destruct (heap !! env) as [frame |] eqn:Hframe; [| done].
  destruct (find_own var_name (values_ frame)) as [i |] eqn:Hown.
  - injection Hfind as <-. apply find_own_Some in Hown as [[v Hv] _].
    exists v. unfold read_at. simpl. rewrite Hframe. simpl. now rewrite Hv.
  - destruct (enclosed_ frame) as [parent |]; [| done]. eauto.
Qed.

Lemma find_in_chain_from_found heap var_name :
  forall depth env loc,
    find_in_chain_from heap depth env var_name = Some loc ->
    heap_wf heap -> loc.1 <= env.
Proof.
  induction depth as [| depth IH]; intros env loc Hfind Hwf; [done |].
  simpl in Hfind.
  destruct (heap !! env) as [frame |] eqn:Hframe; [| done].
  destruct (find_own var_name (values_ frame)).
  - injection Hfind as <-. done.
  - destruct (enclosed_ frame) as [parent |] eqn:Hparent; [| done].
    pose proof (Hwf env frame parent Hframe Hparent).
    specialize (IH parent loc Hfind Hwf). lia.
Qed.

(** ** Relations kept by every step of a computation *)

Section Keeps.
Context (P : Interpreter -> Interpreter -> Prop) `{!PreOrder P}.

Lemma P_refl st : P st st.
Proof. reflexivity. Qed.

Lemma P_trans st1 st2 st3 : P st1 st2 -> P st2 st3 -> P st1 st3.
Proof. intros. by etrans. Qed.

Lemma keeps_ret {A} (a : A) : keeps P (ret a).
Proof. intros st. apply P_refl. Qed.

Lemma keeps_throw {A} e : keeps P (@throw A e).
Proof. intros st. apply P_refl. Qed.

Lemma keeps_undefined {A} : keeps P (@undefined A).
Proof. intros st. apply P_refl. Qed.

Lemma keeps_out_of_fuel {A} : keeps P (@out_of_fuel A).
Proof. intros st. apply P_refl. Qed.

Lemma keeps_gets {A} (f : Interpreter -> A) : keeps P (gets f).
Proof. intros st. apply P_refl. Qed.

Lemma keeps_modify f : (forall st, P st (f st)) -> keeps P (modify f).
Proof. intros H st. apply H. Qed.

Lemma keeps_bind {A B} (m : M A) (k : A -> M B) :
  keeps P m -> (forall a, keeps P (k a)) -> keeps P (bind m k).
Proof.
  intros Hm Hk st. unfold bind. specialize (Hm st).
  destruct (m st) as [st' [a | e | |]]; simpl in *; try done.
  eapply P_trans; [exact Hm | apply Hk].
Qed.

Lemma keeps_finally {A} f (m : M A) :
  (forall st st', P st st' -> P st (f st')) -> keeps P m -> keeps P (finally f m).
Proof.
  intros Hf Hm st. unfold finally. specialize (Hm st).
  destruct (m st) as [st' r]; simpl in *. now apply Hf.
Qed.

Context `{!Unobserved P}.

Lemma keeps_numeric op f l r : keeps P (numeric op f l r).
Proof.
  unfold numeric. destruct (get_double l), (get_double r);
    try apply keeps_throw.
  apply keeps_modify. apply unobserved_result.
Qed.

Lemma keeps_visit_Var_expr name : keeps P (visit_Var_expr name).
Proof.
  intros st. unfold visit_Var_expr.
  destruct (find_in_chain _ _ _); [| apply P_refl].
  destruct (read_at _ _); [apply unobserved_result | apply P_refl].
Qed.

Context `{!Declaring P}.

Lemma keeps_define var_name v : keeps P (define var_name v).
Proof. intros st. apply declaring_define. Qed.

Lemma keeps_visit_Function_stmt name parameters body :
  keeps P (visit_Function_stmt name parameters body).
Proof.
  intros st. unfold visit_Function_stmt, gets, make_shared_Callable, bind.
  eapply P_trans; [apply declaring_closure | apply declaring_define].
Qed.
End Keeps.

Lemma keeps_bind_at {A B} P `{!PreOrder P} (m : M A) (k : A -> M B) st :
  P st (m st).1 ->
  (forall a st1, m st = (st1, Ok a) -> P st1 (k a st1).1) ->
  P st (bind m k st).1.
Proof.
  intros Hm Hk. unfold bind.
  destruct (m st) as [st1 [a | e | |]]; simpl in *; try done.
  etrans; [exact Hm | by apply Hk].
Qed.

Lemma keeps_bind_from {A B} P `{!PreOrder P} (m : M A) (k : A -> M B) st :
  P st (m st).1 ->
  (forall a st1, m st = (st1, Ok a) -> P st st1 -> P st (k a st1).1) ->
  P st (bind m k st).1.
Proof.
  intros Hm Hk. unfold bind.
  destruct (m st) as [st1 [a | e | |]]; simpl in *; try done.
  by apply Hk.
Qed.

(** One step of a proof that a visitor keeps a relation. *)
Ltac keeps_step :=
  lazymatch goal with
  | |- PreOrder _ => apply _
  | |- Unobserved _ => apply _
  | |- Declaring _ => apply _
  | |- keeps _ (ret _) => apply keeps_ret
  | |- keeps _ (throw _) => apply keeps_throw
  | |- keeps _ undefined => apply keeps_undefined
  | |- keeps _ out_of_fuel => apply keeps_out_of_fuel
  | |- keeps _ (gets _) => apply keeps_gets
  | |- keeps _ (define _ _) => apply keeps_define
  | |- keeps _ (visit_Function_stmt _ _ _) => apply keeps_visit_Function_stmt
  | |- keeps _ (numeric _ _ _ _) => apply keeps_numeric
  | |- keeps _ (visit_Var_expr _) => apply keeps_visit_Var_expr
  | |- keeps _ (modify _) =>
      apply keeps_modify; intros ?;
      first [ apply unobserved_result | apply unobserved_cout
            | apply unobserved_returning | apply unobserved_write | idtac ]
  | |- keeps _ (bind _ _) => apply keeps_bind; [| | intros ?]
  | |- keeps _ (match ?x with _ => _ end) => destruct x
  end.

(** ** The active environment is kept *)

#[local] Instance same_environment_preorder : PreOrder same_environment.
Proof. split; unfold same_environment; [done | congruence]. Qed.

#[local] Instance same_environment_unobserved : Unobserved same_environment.
Proof. split; done. Qed.

#[local] Instance same_environment_declaring : Declaring same_environment.
Proof. split; [| done]. intros. apply define_environment_. Qed.

Lemma finally_restores {A} (m : M A) st :
  same_environment st (finally (set_environment_ (environment_ st)) m st).1.
Proof. unfold finally. now destruct (m st). Qed.

Lemma call_same_environment accept callable arguments :
  keeps same_environment (call accept callable arguments).
Proof.
  destruct callable; simpl.
  - repeat keeps_step.
  - intros st. apply finally_restores.
Qed.

Lemma accept_same_environment fuel :
  (forall e, keeps same_environment (accept_expr fuel e)) /\
  (forall s, keeps same_environment (accept_stmt fuel s)).
Proof.
  induction fuel as [| fuel [IHe IHs]]; [split; intros ? ?; reflexivity |].
  assert (Heval : forall e, keeps same_environment (apply_visitor (accept_expr fuel) e)).
  { intros e. unfold apply_visitor. repeat first [done | keeps_step]. }
  assert (Htransform : forall l, keeps same_environment (transform (accept_expr fuel) l)).
  { induction l; simpl; repeat first [done | keeps_step]. }
  split.
  - intros e. rewrite accept_expr_S.
    destruct e; simpl;
      unfold visit_Unary_expr, visit_Binary_expr, visit_Assign_expr,
        visit_Logical_expr, visit_Call_expr;
      repeat first [done | apply call_same_environment | keeps_step].
  - intros s. rewrite accept_stmt_S.
    destruct s; simpl;
      unfold visit_If_stmt, visit_While_stmt, visit_Print_stmt, visit_Var_stmt,
        visit_Return_stmt;
      try (intros st; apply finally_restores);
      repeat first [done | keeps_step].
Qed.

(** ** The is-returning flag is kept by what calls nothing *)

#[local] Instance flag_stays_preorder : PreOrder flag_stays.
Proof.
  split; [intros st Hst; exact Hst |].
  intros st1 st2 st3 H12 H23 Hst. apply H23, H12, Hst.
Qed.

#[local] Instance flag_stays_unobserved : Unobserved flag_stays.
Proof. split; unfold flag_stays; intros; simpl; auto. Qed.

#[local] Instance flag_stays_declaring : Declaring flag_stays.
Proof.
  split; unfold flag_stays; intros; simpl; auto.
  now rewrite define_returning_.
Qed.






(** ** Well-formed states *)

Lemma heap_wf_parents heap :
  heap_wf heap <->
  forall env parent, parents heap !! env = Some (Some parent) -> parent < env.
Proof.
  unfold heap_wf, parents. split.
  - intros Hwf env parent Hparent. rewrite list_lookup_fmap in Hparent.
    destruct (heap !! env) as [frame |] eqn:Hframe; [| done].
    injection Hparent as Hparent. eauto.
  - intros Hwf env frame parent Hframe Hparent. apply Hwf.
    now rewrite list_lookup_fmap, Hframe, <- Hparent.
Qed.

Lemma parents_length heap : length (parents heap) = length heap.
Proof. apply length_fmap. Qed.

Lemma parents_write_at found v heap :
  parents (write_at found v heap) = parents heap.
Proof.
  unfold parents, write_at. rewrite (list_fmap_alter _ _ id).
  - now apply list_alter_id.
  - apply Forall_forall. done.
Qed.

Lemma parents_define var_name v st :
  parents (environments (define var_name v st).1)
  = parents (environments st).
Proof.
  unfold define.
  destruct (environments st !! environment_ st) as [frame |] eqn:Hframe;
    [| done].
  unfold find_own_or_make.
  destruct (find_own var_name (values_ frame)); simpl; unfold parents;
    rewrite list_fmap_insert; simpl; apply list_insert_id;
    now rewrite list_lookup_fmap, Hframe.
Qed.

Lemma bound_names_define var_name v st env :
  env <> environment_ st ->
  bound_names (environments (define var_name v st).1) !! env
  = bound_names (environments st) !! env.
Proof.
  intros Hother. unfold define.
  destruct (environments st !! environment_ st) as [frame |]; [| done].
  destruct (find_own_or_make var_name frame) as [frame' i]. simpl.
  unfold bound_names. now rewrite !list_lookup_fmap, list_lookup_insert_ne.
Qed.

Lemma bound_names_entered frame st env :
  env < length (environments st) ->
  bound_names (environments (entered frame st)) !! env
  = bound_names (environments st) !! env.
Proof.
  intros Hlt. simpl. unfold bound_names.
  now rewrite fmap_app, lookup_app_l by by rewrite length_fmap.
Qed.

(** Well-formedness is a matter of the parents of the frames, the active
    environment and the functions. *)
Lemma state_wf_same st st' :
  parents (environments st') = parents (environments st) ->
  environment_ st' = environment_ st ->
  callables st' = callables st ->
  state_wf st -> state_wf st'.
Proof.
  intros Hparents Henv Hcallables (Hheap & Hactive & Hclosures).
  assert (Hlen : length (environments st') = length (environments st))
    by by rewrite <- !parents_length, Hparents.
  split; [| split].
  - apply heap_wf_parents. rewrite Hparents. now apply heap_wf_parents.
  - now rewrite Henv, Hlen.
  - rewrite Hcallables, Hlen. exact Hclosures.
Qed.

Lemma settled_trans skip st1 st2 st3 :
  length (environments st1) <= length (environments st2) ->
  settled skip st1 st2 -> settled skip st2 st3 -> settled skip st1 st3.
Proof.
  intros Hlen H12 H23 env Henv Hskip.
  rewrite H23 by (done || lia). now apply H12.
Qed.

#[local] Instance grows_preorder : PreOrder grows.
Proof.
  split.
  - intros st Hwf. done.
  - intros st1 st2 st3 H12 H23 Hwf.
    destruct (H12 Hwf) as (Hwf2 & Henv2 & Hlen2 & Hpre2 & Hnames2).
    destruct (H23 Hwf2) as (Hwf3 & Henv3 & Hlen3 & Hpre3 & Hnames3).
    rewrite Henv2 in Hnames3.
    split; [done |]. split; [congruence |]. split; [lia |].
    split; [by etrans | by eapply settled_trans].
Qed.

#[local] Instance grows_settled_preorder : PreOrder grows_settled.
Proof.
  split.
  - intros st Hwf. done.
  - intros st1 st2 st3 H12 H23 Hwf.
    destruct (H12 Hwf) as (Hwf2 & Henv2 & Hlen2 & Hpre2 & Hnames2).
    destruct (H23 Hwf2) as (Hwf3 & Henv3 & Hlen3 & Hpre3 & Hnames3).
    split; [done |]. split; [congruence |]. split; [lia |].
    split; [by etrans | by eapply settled_trans].
Qed.

(** What holds of an expression holds of a statement. *)
Lemma grows_settled_grows st st' : grows_settled st st' -> grows st st'.
Proof.
  intros H Hwf. destruct (H Hwf) as (Hwf' & Henv & Hlen & Hpre & Hnames).
  repeat (split; [done |]). intros env Hlt _. now apply Hnames.
Qed.

Lemma keeps_grows_settled_grows {A} (m : M A) :
  keeps grows_settled m -> keeps grows m.
Proof. intros H st. apply grows_settled_grows, H. Qed.

Lemma grows_settled_same st st' :
  parents (environments st') = parents (environments st) ->
  bound_names (environments st') = bound_names (environments st) ->
  environment_ st' = environment_ st ->
  callables st' = callables st ->
  grows_settled st st'.
Proof.
  intros Hparents Hnames Henv Hcallables Hwf.
  split; [by eapply state_wf_same |]. split; [done |].
  split; [by rewrite <- !parents_length, Hparents |].
  split; [by rewrite Hcallables |]. intros env _ _. now rewrite Hnames.
Qed.

#[local] Instance grows_settled_unobserved : Unobserved grows_settled.
Proof.
  split.
  - intros v st. now apply grows_settled_same.
  - intros o st. now apply grows_settled_same.
  - intros st. now apply grows_settled_same.
  - intros found v st.
    apply grows_settled_same;
      [apply parents_write_at | apply write_at_bound_names | done | done].
Qed.

#[local] Instance grows_unobserved : Unobserved grows.
Proof.
  split; intros; apply grows_settled_grows.
  - apply unobserved_result.
  - apply unobserved_cout.
  - apply unobserved_returning.
  - apply unobserved_write.
Qed.

#[local] Instance grows_declaring : Declaring grows.
Proof.
  split.
  - intros var_name v st Hwf.
    split; [revert Hwf; apply state_wf_same;
            auto using parents_define, define_environment_, define_callables |].
    split; [apply define_environment_ |].
    split; [by rewrite <- !parents_length, parents_define |].
    split; [by rewrite define_callables |].
    intros env _ Hskip. apply bound_names_define. congruence.
  - intros name parameters body st (Hheap & Hactive & Hclosures).
    split; [| split; [done | split; [done | split; [by apply prefix_app_r | done]]]].
    split; [done |]. split; [done |]. simpl.
    intros p name' parameters' body' enclosed Hp.
    apply lookup_app_Some in Hp as [Hp | [_ Hp]]; [eauto |].
    apply list_lookup_singleton_Some in Hp as [_ [= _ _ _ <-]]. done.
Qed.

(** Entering a scope whose parent is a frame of the store. *)
Lemma entered_wf frame st :
  state_wf st ->
  (forall parent, enclosed_ frame = Some parent ->
                  parent < length (environments st)) ->
  state_wf (entered frame st).
Proof.
  intros (Hheap & Hactive & Hclosures) Hparent. split; [| split]; simpl.
  - intros env frame' parent Hframe Henclosed.
    apply lookup_app_Some in Hframe as [Hframe | [Hge Hframe]]; [eauto |].
    apply list_lookup_singleton_Some in Hframe as [Hsub <-].
    specialize (Hparent parent Henclosed). lia.
  - rewrite length_app. simpl. lia.
  - intros p name parameters body enclosed Hp. rewrite length_app.
    specialize (Hclosures p name parameters body enclosed Hp). lia.
Qed.

(** Leaving it: the frames and functions made inside stay, the active
    environment is the one before, and the frames the store had before the
    scope was entered bind the names they bound. *)
Lemma left_grows frame st st' :
  state_wf (entered frame st) ->
  grows (entered frame st) st' ->
  grows_settled st (set_environment_ (environment_ st) st').
Proof.
  intros Hentered Hinside (Hheap & Hactive & Hclosures).
  destruct (Hinside Hentered)
    as ((Hheap' & Hactive' & Hclosures') & Henv & Hlen & Hpre & Hnames).
  simpl in Hlen, Hnames. rewrite length_app in Hlen. simpl in Hlen.
  split; [split; [done | split; [simpl; lia | done]] |].
  split; [done |]. split; [simpl; lia |]. split; [done |].
  intros env Henv' _. simpl.
  rewrite (Hnames env).
  - now apply bound_names_entered.
  - simpl. rewrite length_app. simpl. lia.
  - intros [= Heq]. lia.
Qed.

Ltac grows_step :=
  first [ done
        | lazymatch goal with
          | |- grows_settled _ _ => by apply grows_settled_same
          | |- grows _ _ => by apply grows_settled_grows, grows_settled_same
          end
        | keeps_step ].

Lemma bind_parameters_grows parameters arguments :
  forall i, keeps grows (bind_parameters parameters i arguments).
Proof.
  induction parameters as [| parameter rest IH]; intros i; simpl;
    repeat grows_step.
Qed.

Section Grows.
Variable accept_expr_ : Expr -> M unit.
Variable accept_stmt_ : Stmt -> M unit.
Hypothesis accept_expr_grows : forall e, keeps grows_settled (accept_expr_ e).
Hypothesis accept_stmt_grows : forall s, keeps grows (accept_stmt_ s).

Lemma apply_visitor_grows e : keeps grows_settled (apply_visitor accept_expr_ e).
Proof. unfold apply_visitor. repeat grows_step. Qed.

Lemma transform_grows arguments :
  keeps grows_settled (transform accept_expr_ arguments).
Proof.
  induction arguments; simpl;
    repeat first [apply apply_visitor_grows | grows_step].
Qed.

Lemma run_block_grows statements : keeps grows (run_block accept_stmt_ statements).
Proof. induction statements; simpl; repeat grows_step. Qed.

Lemma run_body_grows body : keeps grows (run_body accept_stmt_ body).
Proof. induction body; simpl; repeat grows_step. Qed.

Lemma visit_Block_stmt_grows statements :
  keeps grows_settled (visit_Block_stmt accept_stmt_ statements).
Proof.
  intros st Hwf. unfold visit_Block_stmt, finally.
  rewrite (bind_Ok _ _ _ _ _ (enter_entered (environment_ st) st)).
  assert (Hentered : state_wf (entered (mkEnvironment [] (Some (environment_ st))) st)).
  { apply entered_wf; [done |]. intros parent [= <-]. apply Hwf. }
  pose proof (run_block_grows statements
                (entered (mkEnvironment [] (Some (environment_ st))) st))
    as Hinside.
  destruct (run_block accept_stmt_ statements _) as [st' r]. simpl in *.
  now apply (left_grows _ _ _ Hentered Hinside).
Qed.

Lemma call_grows callable arguments st :
  (forall name parameters body enclosed,
     callable = Function name parameters body enclosed ->
     enclosed < length (environments st)) ->
  grows_settled st (call accept_stmt_ callable arguments st).1.
Proof.
  intros Hclosure Hwf. destruct callable as [| name parameters body enclosed].
  - done.
  - simpl. unfold finally.
    rewrite (bind_Ok _ _ _ _ _ (enter_entered enclosed st)).
    assert (Hentered : state_wf (entered (mkEnvironment [] (Some enclosed)) st)).
    { apply entered_wf; [done |]. intros parent [= <-]. eauto. }
    assert (Hkeeps : keeps grows
              (bind_parameters parameters 0 arguments;; run_body accept_stmt_ body)).
    { apply keeps_bind; [apply _ | apply bind_parameters_grows |].
      intros _. apply run_body_grows. }
    pose proof (Hkeeps (entered (mkEnvironment [] (Some enclosed)) st))
      as Hinside.
    destruct ((bind_parameters parameters 0 arguments;;
               run_body accept_stmt_ body) _) as [st' r]. simpl in *.
    now apply (left_grows _ _ _ Hentered Hinside).
Qed.

Lemma visit_Call_expr_grows callee closing_paren arguments :
  keeps grows_settled
    (visit_Call_expr accept_expr_ accept_stmt_ callee closing_paren arguments).
Proof.
  intros st. unfold visit_Call_expr.
  apply keeps_bind_at; [apply _ | apply apply_visitor_grows |].
  intros v st1 _. destruct v as [| | | | p]; try reflexivity.
  apply keeps_bind_at; [apply _ | reflexivity |].
  intros found st1' [= <- <-].
  destruct (callables st1 !! p) as [callable |] eqn:Hp; [| reflexivity].
  destruct (bool_decide _); [reflexivity |].
  apply keeps_bind_from; [apply _ | apply transform_grows |].
  intros vs st2 _ Hgrows Hwf1.
  destruct (Hgrows Hwf1) as (Hwf2 & Henv2 & Hlen2 & Hpre2 & Hnames2).
  assert (Hclosure : forall name parameters body enclosed,
            callable = Function name parameters body enclosed ->
            enclosed < length (environments st2)).
  { intros name parameters body enclosed ->.
    destruct Hwf1 as (_ & _ & Hclosures).
    specialize (Hclosures p name parameters body enclosed Hp). lia. }
  revert Hwf1. change (grows_settled st1
    ((v <- call accept_stmt_ callable vs;; modify (set_result_ v)) st2).1).
  etrans; [exact Hgrows |].
  apply keeps_bind_at; [apply _ | by apply call_grows |].
  intros v st3 _. now apply grows_settled_same.
Qed.

Lemma visit_expr_grows e :
  keeps grows_settled (visit_expr accept_expr_ accept_stmt_ e).
Proof.
  destruct e; simpl;
    unfold visit_Unary_expr, visit_Binary_expr, visit_Assign_expr,
      visit_Logical_expr;
    repeat first [ apply visit_Call_expr_grows | apply apply_visitor_grows
                 | grows_step ].
Qed.

Lemma visit_stmt_grows s : keeps grows (visit_stmt accept_expr_ accept_stmt_ s).
Proof.
  pose proof (fun e => keeps_grows_settled_grows _ (apply_visitor_grows e)).
  pose proof (fun e => keeps_grows_settled_grows _ (accept_expr_grows e)).
  pose proof (fun l => keeps_grows_settled_grows _ (visit_Block_stmt_grows l)).
  destruct s; simpl;
    unfold visit_If_stmt, visit_While_stmt, visit_Print_stmt, visit_Var_stmt,
      visit_Return_stmt;
    repeat grows_step.
Qed.
End Grows.

Lemma accept_grows fuel :
  (forall e, keeps grows_settled (accept_expr fuel e)) /\
  (forall s, keeps grows (accept_stmt fuel s)).
Proof.
  induction fuel as [| fuel [IHe IHs]]; [split; intros ? ? ?; done |].
  split.
  - intros e. rewrite accept_expr_S. now apply visit_expr_grows.
  - intros s. rewrite accept_stmt_S. now apply visit_stmt_grows.
Qed.

(** The interpreter as constructed is well formed, and every statement
    and every run of statements leaves a well-formed state well formed,
    whatever the outcome. *)
Lemma Interpreter_new_wf now_ : state_wf (Interpreter_new now_).
Proof.
  split; [| split]; simpl.
  - intros [| env] frame parent Hframe Hparent; [| done].
    injection Hframe as <-. done.
  - lia.
  - intros [| p] name parameters body enclosed Hp; done.
Qed.

Lemma accept_stmt_wf fuel s st :
  state_wf st -> state_wf (accept_stmt fuel s st).1.
Proof. intros Hwf. now apply (accept_grows fuel). Qed.

Lemma interpret_wf fuel statements :
  forall st, state_wf st -> state_wf (interpret fuel statements st).1.
Proof.
  induction statements as [| s rest IH]; intros st Hwf; [done |].
  simpl. unfold bind. pose proof (accept_stmt_wf fuel s st Hwf) as Hs.
  destruct (accept_stmt fuel s st) as [st1 [[] | | |]]; auto.
Qed.

(** So the store of every state a program reaches is well formed, and the
    recursion bound of [find_in_chain] is never the reason for an answer. *)
Lemma reachable_heap_wf fuel statements now_ :
  heap_wf (environments (interpret fuel statements (Interpreter_new now_)).1).
Proof. apply interpret_wf, Interpreter_new_wf. Qed.

(** The evaluation of an expression in a well-formed state, calls
    included, leaves every frame of the store with the names it bound, in
    the same order: the iterator that an assignment finds before it
    evaluates its right-hand side still points to the same variable after
    it. *)
Lemma evaluate_settled fuel e st :
  state_wf st -> settled None st (evaluate fuel e st).1.
Proof.
  intros Hwf. unfold evaluate.
  destruct (accept_grows fuel) as [He Hs].
  now apply (apply_visitor_grows _ He e st Hwf).
Qed.

Lemma assigned_iterator_stays fuel name value st found :
  state_wf st ->
  find_in_chain (environments st) (environment_ st) name = Some found ->
  bound_names (environments (evaluate fuel value st).1) !! found.1
  = bound_names (environments st) !! found.1.
Proof.
  intros Hwf Hfound. apply evaluate_settled; [done | | done].
  pose proof (find_in_chain_from_found _ _ _ _ _ Hfound (proj1 Hwf)).
  destruct Hwf as (_ & Hactive & _). lia.
Qed.

(** ** More fuel, same result *)

Lemma refines_refl {A} (m : M A) : refines m m.
Proof. intros st. now right. Qed.

Lemma refines_trans {A} (m1 m2 m3 : M A) :
  refines m1 m2 -> refines m2 m3 -> refines m1 m3.
Proof.
  intros H12 H23 st. destruct (H12 st) as [Hout | Heq]; [now left |].
  destruct (H23 st) as [Hout | Heq']; [left | right]; congruence.
Qed.

Lemma refines_bind {A B} (m m' : M A) (k k' : A -> M B) :
  refines m m' -> (forall a, refines (k a) (k' a)) ->
  refines (bind m k) (bind m' k').
Proof.
  intros Hm Hk st. unfold bind.
  destruct (Hm st) as [Hout | ->].
  - left. destruct (m st) as [st1 [a | e | |]]; done.
  - destruct (m st) as [st1 [a | e | |]]; auto. apply Hk.
Qed.

Lemma refines_finally {A} f (m m' : M A) st :
  (m st).2 = Out_of_fuel \/ m' st = m st ->
  (finally f m st).2 = Out_of_fuel \/ finally f m' st = finally f m st.
Proof.
  unfold finally. intros [Hout | ->]; [left | now right].
  now destruct (m st).
Qed.

(** One step of a proof that a visitor is monotone in [accept]. *)
Ltac refines_step :=
  lazymatch goal with
  | |- refines (bind _ _) (bind _ _) => apply refines_bind; [| intros ?]
  | |- refines (match ?x with _ => _ end) (match ?x with _ => _ end) =>
      destruct x
  | |- refines ?m ?m => apply refines_refl
  end.

Section Monotone.
Variables accept_expr1 accept_expr2 : Expr -> M unit.
Variables accept_stmt1 accept_stmt2 : Stmt -> M unit.
Hypothesis accept_expr_refines : forall e, refines (accept_expr1 e) (accept_expr2 e).
Hypothesis accept_stmt_refines : forall s, refines (accept_stmt1 s) (accept_stmt2 s).

Lemma apply_visitor_refines e :
  refines (apply_visitor accept_expr1 e) (apply_visitor accept_expr2 e).
Proof. unfold apply_visitor. repeat first [done | refines_step]. Qed.

Lemma transform_refines arguments :
  refines (transform accept_expr1 arguments) (transform accept_expr2 arguments).
Proof.
  induction arguments; simpl;
    repeat first [done | apply apply_visitor_refines | refines_step].
Qed.

Lemma run_body_refines body :
  refines (run_body accept_stmt1 body) (run_body accept_stmt2 body).
Proof. induction body; simpl; repeat first [done | refines_step]. Qed.

Lemma run_block_refines statements :
  refines (run_block accept_stmt1 statements) (run_block accept_stmt2 statements).
Proof. induction statements; simpl; repeat first [done | refines_step]. Qed.

Lemma call_refines callable arguments :
  refines (call accept_stmt1 callable arguments)
          (call accept_stmt2 callable arguments).
Proof.
  destruct callable; simpl; [apply refines_refl |].
  intros st. apply refines_finally.
  revert st. change (refines
    (enter enclosed;; bind_parameters parameters 0 arguments;;
     run_body accept_stmt1 body)
    (enter enclosed;; bind_parameters parameters 0 arguments;;
     run_body accept_stmt2 body)).
  repeat first [apply run_body_refines | refines_step].
Qed.

Lemma visit_expr_refines e :
  refines (visit_expr accept_expr1 accept_stmt1 e)
          (visit_expr accept_expr2 accept_stmt2 e).
Proof.
  destruct e; simpl;
    unfold visit_Unary_expr, visit_Binary_expr, visit_Assign_expr,
      visit_Logical_expr, visit_Call_expr;
    repeat first [ done | apply apply_visitor_refines | apply transform_refines
                 | apply call_refines | refines_step ].
Qed.

Lemma visit_stmt_refines s :
  refines (visit_stmt accept_expr1 accept_stmt1 s)
          (visit_stmt accept_expr2 accept_stmt2 s).
Proof.
  destruct s; simpl;
    unfold visit_If_stmt, visit_While_stmt, visit_Print_stmt, visit_Var_stmt,
      visit_Return_stmt;
    repeat first [ done | apply apply_visitor_refines | refines_step ].
  intros st. apply refines_finally.
  assert (H : forall enclosed, refines
    (enter enclosed;; run_block accept_stmt1 statements)
    (enter enclosed;; run_block accept_stmt2 statements)).
  { intros enclosed. repeat first [apply run_block_refines | refines_step]. }
  apply H.
Qed.
End Monotone.

Lemma accept_refines_S fuel :
  (forall e, refines (accept_expr fuel e) (accept_expr (S fuel) e)) /\
  (forall s, refines (accept_stmt fuel s) (accept_stmt (S fuel) s)).
Proof.
  induction fuel as [| fuel [IHe IHs]]; [split; intros ? ?; now left |].
  split.
  - intros e. rewrite (accept_expr_S (S fuel)), (accept_expr_S fuel).
    now apply visit_expr_refines.
  - intros s. rewrite (accept_stmt_S (S fuel)), (accept_stmt_S fuel).
    now apply visit_stmt_refines.
Qed.

Lemma accept_refines fuel fuel' :
  fuel <= fuel' ->
  (forall e, refines (accept_expr fuel e) (accept_expr fuel' e)) /\
  (forall s, refines (accept_stmt fuel s) (accept_stmt fuel' s)).
Proof.
  induction 1 as [| fuel' _ [IHe IHs]]; [split; intros; apply refines_refl |].
  destruct (accept_refines_S fuel') as [He Hs].
  split; intros; eapply refines_trans; eauto.
Qed.

(** The outcome of a statement does not depend on the fuel, once there is
    enough of it. *)
Lemma accept_stmt_more_fuel fuel fuel' s st st' r :
  accept_stmt fuel s st = (st', r) ->
  r <> Out_of_fuel ->
  fuel <= fuel' ->
  accept_stmt fuel' s st = (st', r).
Proof.
  intros Hrun Hr Hle. destruct (accept_refines fuel fuel' Hle) as [_ Hs].
  destruct (Hs s st) as [Hout | ->]; [| done].
  rewrite Hrun in Hout. done.
Qed.

Lemma accept_expr_more_fuel fuel fuel' e st st' r :
  accept_expr fuel e st = (st', r) ->
  r <> Out_of_fuel ->
  fuel <= fuel' ->
  accept_expr fuel' e st = (st', r).
Proof.
  intros Hrun Hr Hle. destruct (accept_refines fuel fuel' Hle) as [He _].
  destruct (He e st) as [Hout | ->]; [| done].
  rewrite Hrun in Hout. done.
Qed.

(** ** The is-returning flag, while it is clear *)

Lemma bind_gets {A B} (f : Interpreter -> A) (k : A -> M B) st :
  bind (gets f) k st = k (f st) st.
Proof. reflexivity. Qed.

#[local] Instance stays_clear_preorder : PreOrder stays_clear.
Proof.
  split; [intros st Hst; exact Hst |].
  intros st1 st2 st3 H12 H23 Hst. apply H23, H12, Hst.
Qed.

Lemma stays_clear_same st st' :
  returning_ st' = returning_ st -> stays_clear st st'.
Proof. intros Hsame Hst. congruence. Qed.

Lemma keeps_stays_clear_define var_name v :
  keeps stays_clear (define var_name v).
Proof. intros st. apply stays_clear_same, define_returning_. Qed.

Lemma completes_when_clear (m : M unit) :
  keeps stays_clear m -> completes_when_set m.
Proof. intros Hm st Hst Hset. specialize (Hm st Hst). congruence. Qed.

Lemma completes_bind {A} (m : M A) (k : A -> M unit) :
  keeps stays_clear m ->
  (forall a, completes_when_set (k a)) ->
  completes_when_set (bind m k).
Proof.
  intros Hm Hk st Hst. specialize (Hm st Hst). unfold bind.
  destruct (m st) as [st1 [a | e | |]]; simpl in *; try congruence.
  by apply Hk.
Qed.

(** One step of a proof that a visitor leaves a clear flag clear. *)
Ltac clear_step :=
  lazymatch goal with
  | |- PreOrder _ => apply _
  | |- keeps _ (ret _) => apply keeps_ret
  | |- keeps _ (throw _) => apply keeps_throw
  | |- keeps _ undefined => apply keeps_undefined
  | |- keeps _ out_of_fuel => apply keeps_out_of_fuel
  | |- keeps _ (gets _) => apply keeps_gets
  | |- keeps _ (define _ _) => apply keeps_stays_clear_define
  | |- keeps _ (modify _) =>
      apply keeps_modify; intros ?; by apply stays_clear_same
  | |- keeps _ (numeric _ _ _ _) => unfold numeric
  | |- keeps _ (bind _ _) => apply keeps_bind; [| | intros ?]
  | |- keeps _ (match ?x with _ => _ end) => destruct x
  end.

Lemma bind_parameters_stays_clear parameters arguments :
  forall i, keeps stays_clear (bind_parameters parameters i arguments).
Proof.
  induction parameters as [| parameter rest IH]; intros i; simpl;
    repeat first [done | clear_step].
Qed.

Section Contained.
Variable accept_expr_ : Expr -> M unit.
Variable accept_stmt_ : Stmt -> M unit.
Hypothesis accept_expr_clear : forall e, keeps stays_clear (accept_expr_ e).
Hypothesis accept_stmt_completes : forall s, completes_when_set (accept_stmt_ s).

Lemma apply_visitor_stays_clear e :
  keeps stays_clear (apply_visitor accept_expr_ e).
Proof. unfold apply_visitor. repeat first [done | clear_step]. Qed.

Lemma transform_stays_clear arguments :
  keeps stays_clear (transform accept_expr_ arguments).
Proof.
  induction arguments; simpl;
    repeat first [done | apply apply_visitor_stays_clear | clear_step].
Qed.

(** The body of a function leaves the flag clear: the statement that set
    it completed, and the call cleared it. *)
Lemma run_body_stays_clear body : keeps stays_clear (run_body accept_stmt_ body).
Proof.
  induction body as [| statement rest IH]; intros st Hst; simpl; [done |].
  pose proof (accept_stmt_completes statement st Hst) as Hcompletes.
  unfold bind at 1.
  destruct (accept_stmt_ statement st) as [st1 [[] | e | |]]; simpl in *.
  - rewrite bind_gets. destruct (returning_ st1) eqn:Hflag; [done |].
    by apply IH.
  - destruct (returning_ st1); [by specialize (Hcompletes eq_refl) | done].
  - destruct (returning_ st1); [by specialize (Hcompletes eq_refl) | done].
  - destruct (returning_ st1); [by specialize (Hcompletes eq_refl) | done].
Qed.

Lemma run_block_completes statements :
  completes_when_set (run_block accept_stmt_ statements).
Proof.
  induction statements as [| statement rest IH]; intros st Hst; simpl; [done |].
  pose proof (accept_stmt_completes statement st Hst) as Hcompletes.
  unfold bind at 1 3.
  destruct (accept_stmt_ statement st) as [st1 [[] | e | |]]; simpl in *;
    try (intros Hset; by specialize (Hcompletes Hset)).
  rewrite !bind_gets. destruct (returning_ st1) eqn:Hflag; [done |].
  by apply IH.
Qed.

Lemma call_stays_clear callable arguments :
  keeps stays_clear (call accept_stmt_ callable arguments).
Proof.
  destruct callable as [| name parameters body enclosed]; simpl.
  - repeat first [done | clear_step].
  - intros st. apply (keeps_finally stays_clear); [| clear_step].
    + intros st1 st2 H. exact H.
    + apply _.
    + intros st1. by apply stays_clear_same.
    + clear_step; [apply _ | apply bind_parameters_stays_clear |].
      apply run_body_stays_clear.
Qed.

Lemma visit_expr_stays_clear e :
  keeps stays_clear (visit_expr accept_expr_ accept_stmt_ e).
Proof.
  destruct e; simpl;
    unfold visit_Unary_expr, visit_Binary_expr, visit_Var_expr,
      visit_Assign_expr, visit_Logical_expr, visit_Call_expr;
    repeat first [ done | apply apply_visitor_stays_clear
                 | apply transform_stays_clear | apply call_stays_clear
                 | clear_step ].
  intros st. destruct (find_in_chain _ _ _); [| reflexivity].
  destruct (read_at _ _); by apply stays_clear_same.
Qed.

Lemma visit_stmt_completes s :
  completes_when_set (visit_stmt accept_expr_ accept_stmt_ s).
Proof.
  destruct s as [expr | condition then_branch else_branch | condition body
                | expr | name initializer | statements | name parameters body
                | value]; simpl.
  - by apply completes_when_clear.
  - unfold visit_If_stmt.
    apply completes_bind; [apply apply_visitor_stays_clear | intros c].
    destruct (Is_truthy_visitor c).
    + intros st Hst. pose proof (accept_stmt_completes then_branch st Hst) as H.
      unfold bind at 1 3.
      destruct (accept_stmt_ then_branch st) as [st1 [[] | e | |]]; simpl in *;
        try done.
      rewrite !bind_gets. by destruct (returning_ st1).
    + destruct else_branch; [done | by apply completes_when_clear, keeps_ret, _].
  - unfold visit_While_stmt.
    apply completes_bind; [apply apply_visitor_stays_clear | intros c].
    destruct (Is_truthy_visitor c); [| by apply completes_when_clear, keeps_ret, _].
    intros st Hst. pose proof (accept_stmt_completes body st Hst) as H.
    unfold bind at 1 3.
    destruct (accept_stmt_ body st) as [st1 [[] | e | |]]; simpl in *;
      try done.
    rewrite !bind_gets. destruct (returning_ st1) eqn:Hflag; [done |].
    by apply accept_stmt_completes.
  - apply completes_when_clear. unfold visit_Print_stmt.
    repeat first [done | apply apply_visitor_stays_clear | clear_step].
  - apply completes_when_clear. unfold visit_Var_stmt.
    repeat first [done | apply apply_visitor_stays_clear | clear_step].
  - intros st Hst. unfold visit_Block_stmt, finally.
    rewrite (bind_Ok _ _ _ _ _ (enter_entered (environment_ st) st)).
    pose proof (run_block_completes statements
                  (entered (mkEnvironment [] (Some (environment_ st))) st) Hst)
      as H.
    by destruct (run_block accept_stmt_ statements _).
  - apply completes_when_clear. unfold visit_Function_stmt.
    intros st. unfold gets, make_shared_Callable, bind.
    etrans; [| apply keeps_stays_clear_define]. by apply stays_clear_same.
  - unfold visit_Return_stmt.
    apply completes_bind.
    + destruct value; [apply apply_visitor_stays_clear | apply keeps_ret, _].
    + intros v st Hst Hset. reflexivity.
Qed.
End Contained.

Lemma accept_contains fuel :
  (forall e, keeps stays_clear (accept_expr fuel e)) /\
  (forall s, completes_when_set (accept_stmt fuel s)).
Proof.
  induction fuel as [| fuel [IHe IHs]].
  - split; [intros e st Hst; exact Hst |]. intros s st Hst Hset. simpl in *.
    congruence.
  - split.
    + intros e. rewrite accept_expr_S. by apply visit_expr_stays_clear.
    + intros s. rewrite accept_stmt_S. by apply visit_stmt_completes.
Qed.

Lemma run_block_stays_clear accept statements :
  Forall (fun s => keeps stays_clear (accept s)) statements ->
  keeps stays_clear (run_block accept statements).
Proof. induction 1; simpl; repeat first [done | clear_step]. Qed.

Lemma returns_nothing_stays_clear fuel :
  forall s, returns_nothing s = true -> keeps stays_clear (accept_stmt fuel s).
Proof.
  induction fuel as [| fuel IH]; [intros s _ st Hst; exact Hst |].
  destruct (accept_contains fuel) as [He _].
  pose proof (apply_visitor_stays_clear _ He) as Heval.
  intros s Hs. rewrite accept_stmt_S.
  destruct s as [expr | condition then_branch else_branch | condition body
                | expr | name initializer | statements | name parameters body
                | value]; simpl in Hs |- *; try done.
  - apply andb_prop in Hs as [Hthen Helse]. unfold visit_If_stmt.
    apply keeps_bind; [apply _ | apply Heval | intros c].
    destruct (Is_truthy_visitor c).
    + apply keeps_bind; [apply _ | by apply IH | intros _].
      repeat first [done | clear_step].
    + destruct else_branch; [by apply IH | apply keeps_ret, _].
  - unfold visit_While_stmt.
    apply keeps_bind; [apply _ | apply Heval | intros c].
    destruct (Is_truthy_visitor c); [| apply keeps_ret, _].
    apply keeps_bind; [apply _ | by apply IH | intros _].
    apply keeps_bind; [apply _ | apply keeps_gets, _ | intros returning].
    destruct returning; [apply keeps_ret, _ | by apply IH].
  - unfold visit_Print_stmt. repeat first [done | apply Heval | clear_step].
  - unfold visit_Var_stmt. repeat first [done | apply Heval | clear_step].
  - intros st. unfold visit_Block_stmt.
    apply (keeps_finally stays_clear); [by intros st1 st2 H |].
    apply keeps_bind; [apply _ | | intros _].
    + intros st1. by apply stays_clear_same.
    + apply run_block_stays_clear. apply Forall_forall. intros s Hin.
      apply IH. rewrite forallb_forall in Hs. apply Hs. by apply list_elem_of_In.
  - unfold visit_Function_stmt. intros st.
    unfold gets, make_shared_Callable, bind.
    etrans; [| apply keeps_stays_clear_define]. by apply stays_clear_same.
Qed.

(** A body without a return statement, started with the flag clear, runs
    to its end or fails: it yields nil. *)
Lemma run_body_without_return accept body :
  Forall (fun s => keeps stays_clear (accept s)) body ->
  forall st st' v,
    returning_ st = false ->
    run_body accept body st = (st', Ok v) ->
    v = Lit_nil /\ returning_ st' = false.
Proof.
  induction 1 as [| statement rest Hstatement _ IH]; intros st st' v Hst Hrun;
    simpl in Hrun.
  - by injection Hrun as <- <-.
  - specialize (Hstatement st Hst). unfold bind at 1 in Hrun.
    destruct (accept statement st) as [st1 [[] | | |]]; try done.
    rewrite bind_gets in Hrun. simpl in Hstatement. rewrite Hstatement in Hrun.
    eauto.
Qed.

Lemma call_without_return fuel name parameters body enclosed arguments st st' v :
  returning_ st = false ->
  forallb returns_nothing body = true ->
  call_at fuel (Function name parameters body enclosed) arguments st
    = (st', Ok v) ->
  v = Lit_nil /\ returning_ st' = false.
Proof.
  intros Hst Hbody Hcall. unfold call_at in Hcall. simpl in Hcall.
  unfold finally in Hcall.
  rewrite (bind_Ok _ _ _ _ _ (enter_entered enclosed st)) in Hcall.
  pose proof (bind_parameters_stays_clear parameters arguments 0
                (entered (mkEnvironment [] (Some enclosed)) st) Hst)
    as Hparameters.
  unfold bind at 1 in Hcall.
  destruct (bind_parameters parameters 0 arguments _) as [st0 [[] | | |]];
    try (destruct (run_body _ _ _); done); simpl in Hparameters.
  - destruct (run_body (accept_stmt fuel) body st0) as [st1 r] eqn:Hrun.
    injection Hcall as <- ->.
    apply (run_body_without_return (accept_stmt fuel) body) in Hrun; [done | | done].
    apply Forall_forall. intros s Hin. apply returns_nothing_stays_clear.
    rewrite forallb_forall in Hbody. apply Hbody. by apply list_elem_of_In.
  - done.
  - done.
  - done.
Qed.

(** * The claims *)

(** ** C1: calls and the arity check *)

(** C1, as stated, fails: in [fun f() { print 1; } clock(f());] the call
    of [clock] raises the arity error and nothing has been printed, although
    evaluating the argument list in that state prints 1. *)
Lemma arity_error_raised_before_arguments_run :
  let declared := accept_stmt 1 declare_printer fresh_interpreter in
  let failed := accept_expr 5 clock_with_argument declared.1 in
  declared.2 = Ok tt /\
  failed.2 = Throw (Interpreter_error
                      "[Line 1] Error ')': Expected 0 arguments but got 1.") /\
  cout failed.1 = [] /\
  cout (transform (accept_expr 4) [call_ "f" []] failed.1).1 = [number 1].
Proof. vm_compute. repeat split. Qed.

(** C1, amended: once the callee has evaluated to a callable, the argument
    count is compared with the arity before any argument is evaluated. On a
    mismatch the call fails with "Expected <n> arguments but got <m>."
    attributed to the closing parenthesis, in the state the callee left
    (no argument has run). Otherwise the arguments are evaluated from left
    to right into a list of values, the callable is called on it and its
    value becomes the result. *)
Theorem call_compares_arity_before_evaluating_arguments
    fuel callee closing_paren arguments st st1 p callable :
  evaluate fuel callee st = (st1, Ok (Lit_callable p)) ->
  callables st1 !! p = Some callable ->
  (length arguments <> arity callable ->
   accept_expr (S fuel) (Call_expr callee closing_paren arguments) st =
     (st1, Throw (Interpreter_error_at
                    ("Expected " +:+ to_string (Z.of_nat (arity callable))
                       +:+ " arguments but got "
                       +:+ to_string (Z.of_nat (length arguments)) +:+ ".")
                    closing_paren))) /\
  (length arguments = arity callable ->
   accept_expr (S fuel) (Call_expr callee closing_paren arguments) st =
     (arguments_results <- transform (accept_expr fuel) arguments ;;
      v <- call_at fuel callable arguments_results ;;
      modify (set_result_ v)) st1) /\
  (forall argument_expr rest,
     transform (accept_expr fuel) (argument_expr :: rest) =
       (v <- evaluate fuel argument_expr ;;
        vs <- transform (accept_expr fuel) rest ;;
        ret (v :: vs))).
Proof.
  intros Hcallee Hp.
  assert (Hstep : accept_expr (S fuel) (Call_expr callee closing_paren arguments) st =
    (if bool_decide (length arguments ≠ arity callable)
     then throw (Interpreter_error_at
                   ("Expected " +:+ to_string (Z.of_nat (arity callable))
                      +:+ " arguments but got "
                      +:+ to_string (Z.of_nat (length arguments)) +:+ ".")
                   closing_paren)
     else
       arguments_results <- transform (accept_expr fuel) arguments ;;
       v <- call_at fuel callable arguments_results ;;
       modify (set_result_ v)) st1).
  { rewrite accept_expr_S. unfold visit_expr, visit_Call_expr.
    rewrite (bind_Ok _ _ _ _ _ Hcallee).
    unfold gets at 1. unfold bind at 1. rewrite Hp. reflexivity. }
  repeat split.
  - intros Hne. rewrite Hstep, bool_decide_true by done. reflexivity.
  - intros Heq. rewrite Hstep, bool_decide_false by (intros ?; done). reflexivity.
Qed.

Lemma call_witness :
  let st := (accept_stmt 1 declare_printer fresh_interpreter).1 in
  let st1 := set_result_ (Lit_callable 0) st in
  evaluate 4 (var "clock") st = (st1, Ok (Lit_callable 0)) /\
  callables st1 !! 0 = Some Clock_callable /\
  length [call_ "f" []] <> arity Clock_callable /\
  accept_expr 5 clock_with_argument st =
    (st1, Throw (Interpreter_error
                   "[Line 1] Error ')': Expected 0 arguments but got 1.")).
Proof.
  split; [reflexivity | split; [reflexivity | split; [discriminate |]]].
  apply (call_compares_arity_before_evaluating_arguments 4 (var "clock")
           closing [call_ "f" []]
           (accept_stmt 1 declare_printer fresh_interpreter).1
           _ 0 Clock_callable eq_refl eq_refl).
  discriminate.
Defined.

(** ** C2: assignment *)

(** C2, as stated, fails: in [fun f() { print 1; } x = f();] the
    assignment raises the name error and nothing has been printed, although
    evaluating the right-hand side in that state prints 1. *)
Lemma unbound_assignment_leaves_right_hand_side_unevaluated :
  let declared := accept_stmt 1 declare_printer fresh_interpreter in
  let failed := accept_expr 5 assign_unbound declared.1 in
  declared.2 = Ok tt /\
  failed.2 = Throw (Interpreter_error "Undefined variable 'x'.") /\
  cout failed.1 = [] /\
  cout (evaluate 4 (call_ "f" []) failed.1).1 = [number 1].
Proof. vm_compute. repeat split. Qed.

(** C2, amended: an assignment first resolves the target name in the
    environment chain. If no frame of the chain binds it, the assignment
    fails with "Undefined variable '<name>'." and the state is the one
    before the assignment: the right-hand side is not evaluated and nothing
    is declared. If a frame binds it, the right-hand side is evaluated, its
    value is written to the binding found and becomes the result, and the
    names bound in every frame stay as the right-hand side left them. *)
Theorem assignment_resolves_target_before_right_hand_side
    fuel name value st :
  (find_in_chain (environments st) (environment_ st) (lexeme name) = None ->
   accept_expr (S fuel) (Assign_expr name value) st =
     (st, Throw (Interpreter_error
                   ("Undefined variable '" +:+ lexeme name +:+ "'.")))) /\
  (forall found st1 v,
     find_in_chain (environments st) (environment_ st) (lexeme name)
       = Some found ->
     evaluate fuel value st = (st1, Ok v) ->
     accept_expr (S fuel) (Assign_expr name value) st =
       (set_result_ v
          (set_environments (write_at found v (environments st1)) st1), Ok tt)
     /\ bound_names (write_at found v (environments st1))
        = bound_names (environments st1)).
Proof.
  split.
  - intros Hfind. rewrite accept_expr_S. unfold visit_expr, visit_Assign_expr.
    unfold gets at 1. unfold bind at 1. rewrite Hfind. reflexivity.
  - intros found st1 v Hfind Hvalue. split; [| apply write_at_bound_names].
    rewrite accept_expr_S. unfold visit_expr, visit_Assign_expr.
    unfold gets at 1. unfold bind at 1. rewrite Hfind.
    rewrite (bind_Ok _ _ _ _ _ Hvalue). reflexivity.
Qed.

Lemma assignment_witness :
  let st := (accept_stmt 1 declare_printer fresh_interpreter).1 in
  find_in_chain (environments st) (environment_ st) (lexeme (ident "x")) = None /\
  accept_expr 5 assign_unbound st =
    (st, Throw (Interpreter_error "Undefined variable 'x'.")).
Proof.
  split; [reflexivity |].
  apply (assignment_resolves_target_before_right_hand_side 4 (ident "x")
           (call_ "f" []) (accept_stmt 1 declare_printer fresh_interpreter).1).
  reflexivity.
Defined.

(** ** C3: closures *)

(** C3: a call of a user function runs the body in a fresh environment
    whose parent is the environment the function closed over, whatever the
    caller's active environment is: the outcome of the call is the same from
    any caller, up to the environment restored at the end. In the fresh
    frame each parameter is bound to the argument of its position (a
    parameter name declared again later in the list is bound to the later
    argument); with distinct names the frame is the list of the pairs
    (parameter, argument). A function declaration stores the function with
    the active environment as its closure and binds its name in that same
    environment. So two closures made in two turns of a loop each see the
    variable of their turn, and a function calls itself by name:
    [factorial] prints 120. *)
Theorem call_runs_body_in_child_of_closure_environment
    fuel name parameters body enclosed arguments st :
  length arguments = length parameters ->
  exists values,
    let st0 := entered (mkEnvironment values (Some enclosed)) st in
    call_at fuel (Function name parameters body enclosed) arguments st =
      finally (set_environment_ (environment_ st))
              (run_body (accept_stmt fuel) body) st0 /\
    (NoDup (lexeme <$> parameters) ->
     values = zip (lexeme <$> parameters) arguments) /\
    (forall i parameter argument,
       parameters !! i = Some parameter ->
       arguments !! i = Some argument ->
       (forall j later,
          i < j -> parameters !! j = Some later ->
          lexeme later <> lexeme parameter) ->
       exists k,
         find_in_chain (environments st0) (environment_ st0) (lexeme parameter)
           = Some (environment_ st0, k) /\
         read_at (environments st0) (environment_ st0, k) = Some argument) /\
    (forall caller,
       call_at fuel (Function name parameters body enclosed) arguments
         (set_environment_ caller st) =
       let (st', r) :=
         call_at fuel (Function name parameters body enclosed) arguments st in
       (set_environment_ caller st', r)) /\
    (forall frame,
       environments st !! environment_ st = Some frame ->
       exists st' i,
         accept_stmt (S fuel) (Function_stmt name parameters body) st
           = (st', Ok tt) /\
         callables st'
           = callables st ++ [Function name parameters body (environment_ st)] /\
         find_in_chain (environments st') (environment_ st) (lexeme name)
           = Some (environment_ st, i) /\
         read_at (environments st') (environment_ st, i)
           = Some (Lit_callable (length (callables st)))) /\
    cout (interpret 12 closures_in_loop fresh_interpreter).1
      = [number 0; number 1] /\
    cout (interpret 30 factorial fresh_interpreter).1 = [number 120].
Proof.
  intros Hlen.
  exists (fold_left declare (zip (lexeme <$> parameters) arguments) []).
  intros st0.
  assert (Hcall : forall st,
    call_at fuel (Function name parameters body enclosed) arguments st =
      finally (set_environment_ (environment_ st))
        (run_body (accept_stmt fuel) body)
        (entered (mkEnvironment
                    (fold_left declare (zip (lexeme <$> parameters) arguments) [])
                    (Some enclosed)) st)).
  { intros s. apply call_Function. now apply enter_bind_parameters. }
  split; [apply Hcall |]. split; [| split; [| split; [| split; [| split]]]].
  - intros Hnodup. rewrite fold_declare_zip; [done | done | | by rewrite length_fmap].
    intros n _. apply not_elem_of_nil.
  - intros i parameter argument Hparameter Hargument Hlater.
    assert (Hbound : bound_value (lexeme parameter)
              (fold_left declare (zip (lexeme <$> parameters) arguments) [])
            = Some argument).
    { apply (bound_value_fold _ _ _ _ i).
      - apply lookup_zip_with_Some. exists (lexeme parameter), argument.
        now rewrite list_lookup_fmap, Hparameter.
      - intros j [n w] Hlt Hj. simpl.
        apply lookup_zip_with_Some in Hj as (n' & w' & [= <- <-] & Hn & _).
        rewrite list_lookup_fmap in Hn.
        destruct (parameters !! j) as [later |] eqn:Hlater'; [| done].
        injection Hn as <-. eauto. }
    unfold bound_value in Hbound.
    destruct (find_own _ _) as [k |] eqn:Hfind; [| done]. simpl in Hbound.
    exists k. split.
    + eapply find_in_chain_own; [apply entered_lookup | exact Hfind].
    + unfold read_at. subst st0. cbn [fst snd].
      rewrite entered_lookup. exact Hbound.
  - intros caller. rewrite !Hcall. unfold finally. simpl.
    change (entered ?f (set_environment_ caller st)) with (entered f st).
    now destruct (run_body (accept_stmt fuel) body _).
  - intros frame Hframe. rewrite accept_stmt_S.
    unfold visit_stmt, visit_Function_stmt.
    unfold gets at 1. unfold bind at 1.
    unfold make_shared_Callable at 1. unfold bind at 1.
    destruct (define_bound (lexeme name)
                (Lit_callable (length (callables st)))
                (set_callables
                   (callables st ++ [Function name parameters body (environment_ st)])
                   st) frame Hframe)
      as (st' & i & Hdefine & Hfind & Hread & _ & _ & Hcallables & _).
    exists st', i. repeat split; done.
  - vm_compute. reflexivity.
  - vm_compute. reflexivity.
Qed.

Lemma call_environment_witness :
  let arguments := [number 5] in
  let parameters := [ident "n"] in
  let body := [Return_stmt (Some (var "n"))] in
  length arguments = length parameters /\
  exists values,
    call_at 3 (Function (ident "f") parameters body 0) arguments fresh_interpreter =
      finally (set_environment_ (environment_ fresh_interpreter))
        (run_body (accept_stmt 3) body)
        (entered (mkEnvironment values (Some 0)) fresh_interpreter).
Proof.
  split; [reflexivity |].
  destruct (call_runs_body_in_child_of_closure_environment 3 (ident "f")
              [ident "n"] [Return_stmt (Some (var "n"))] 0 [number 5]
              fresh_interpreter eq_refl) as (values & Hcall & _).
  exists values. exact Hcall.
Defined.

(** ** C4: return *)

(** C4, as stated, fails: in [return; fun f() { 5; } print f();] the
    body of [f] completes without any return, and the call yields 5, not
    nil: the call was entered with the is-returning flag set by the return
    at the top level, so it stops after the first statement of the body and
    yields the result register. *)
Lemma call_entered_with_flag_set_yields_the_register :
  let declared := interpret 2 [Return_stmt None; declare_five] fresh_interpreter in
  let called := call_at 3 (Function (ident "f") [] [Expr_stmt (num 5)] 0) []
                        declared.1 in
  let run := interpret 5 return_then_call fresh_interpreter in
  declared.2 = Ok tt /\
  returning_ declared.1 = true /\
  forallb returns_nothing [Expr_stmt (num 5)] = true /\
  called.2 = Ok (number 5) /\
  run.2 = Ok tt /\
  cout run.1 = [number 5].
Proof. vm_compute. repeat split. Qed.

(** C4, amended: a return statement stores the value of its expression
    (nil when there is none) in the result register and sets the
    is-returning flag. When a statement of a block leaves the flag set, the
    block stops there: the later statements are not executed. An if whose
    branch leaves the flag set and a while whose body leaves it set stop
    likewise, the loop without evaluating its condition again. When a
    statement of a function body leaves the flag set, the call clears the
    flag, restores the environment of the caller and yields the result
    register; a body whose statements all run without setting the flag
    yields nil; and a call entered with the flag clear whose body contains
    no return statement (the bodies of the functions it declares apart)
    yields nil whenever it completes, and leaves the flag clear. *)
Theorem return_unwinds_to_the_enclosing_call fuel st :
  accept_stmt (S fuel) (Return_stmt None) st
    = (set_returning_ true (set_result_ Lit_nil st), Ok tt) /\
  (forall value st1 v,
     evaluate fuel value st = (st1, Ok v) ->
     accept_stmt (S fuel) (Return_stmt (Some value)) st
       = (set_returning_ true (set_result_ v st1), Ok tt)) /\
  (forall before statement after sa st1,
     runs_through (accept_stmt fuel) before
       (entered (mkEnvironment [] (Some (environment_ st))) st) sa ->
     accept_stmt fuel statement sa = (st1, Ok tt) ->
     returning_ st1 = true ->
     accept_stmt (S fuel) (Block_stmt (before ++ statement :: after)) st
       = (set_environment_ (environment_ st) st1, Ok tt)) /\
  (forall condition then_branch else_branch st1 c chosen st2,
     evaluate fuel condition st = (st1, Ok c) ->
     (if Is_truthy_visitor c then Some then_branch else else_branch)
       = Some chosen ->
     accept_stmt fuel chosen st1 = (st2, Ok tt) ->
     returning_ st2 = true ->
     accept_stmt (S fuel) (If_stmt condition then_branch else_branch) st
       = (st2, Ok tt)) /\
  (forall condition body st1 c st2,
     evaluate fuel condition st = (st1, Ok c) ->
     Is_truthy_visitor c = true ->
     accept_stmt fuel body st1 = (st2, Ok tt) ->
     returning_ st2 = true ->
     accept_stmt (S fuel) (While_stmt condition body) st = (st2, Ok tt)) /\
  (forall name parameters enclosed arguments before statement after st0 sa st1,
     (enter enclosed ;; bind_parameters parameters 0 arguments) st
       = (st0, Ok tt) ->
     runs_through (accept_stmt fuel) before st0 sa ->
     accept_stmt fuel statement sa = (st1, Ok tt) ->
     returning_ st1 = true ->
     call_at fuel
       (Function name parameters (before ++ statement :: after) enclosed)
       arguments st
       = (set_environment_ (environment_ st) (set_returning_ false st1),
          Ok (result_ st1))) /\
  (forall name parameters enclosed arguments body st0 st1,
     (enter enclosed ;; bind_parameters parameters 0 arguments) st
       = (st0, Ok tt) ->
     runs_through (accept_stmt fuel) body st0 st1 ->
     call_at fuel (Function name parameters body enclosed) arguments st
       = (set_environment_ (environment_ st) st1, Ok Lit_nil)) /\
  (returning_ st = false ->
   forall name parameters enclosed arguments body st' v,
     forallb returns_nothing body = true ->
     call_at fuel (Function name parameters body enclosed) arguments st
       = (st', Ok v) ->
     v = Lit_nil /\ returning_ st' = false).
Proof.
  split; [reflexivity |].
  split; [| split; [| split; [| split; [| split; [| split]]]]].
  - intros value st1 v Hv. rewrite accept_stmt_S.
    unfold visit_stmt, visit_Return_stmt.
    now rewrite (bind_Ok _ _ _ _ _ Hv).
  - intros before statement after sa st1 Hbefore Hs Hflag.
    rewrite accept_stmt_S. unfold visit_stmt, visit_Block_stmt, finally.
    rewrite (bind_Ok _ _ _ _ _ (enter_entered (environment_ st) st)).
    rewrite (run_block_through _ _ _ _ _ Hbefore).
    now rewrite (run_block_returning _ _ _ _ _ Hs Hflag).
  - intros condition then_branch else_branch st1 c chosen st2 Hc Hchosen Hs Hflag.
    rewrite accept_stmt_S. unfold visit_stmt, visit_If_stmt.
    rewrite (bind_Ok _ _ _ _ _ Hc).
    destruct (Is_truthy_visitor c).
    + injection Hchosen as ->. rewrite (bind_Ok _ _ _ _ _ Hs).
      unfold gets at 1. unfold bind at 1. now rewrite Hflag.
    + rewrite Hchosen. exact Hs.
  - intros condition body st1 c st2 Hc Htruthy Hs Hflag.
    rewrite accept_stmt_S. unfold visit_stmt, visit_While_stmt.
    rewrite (bind_Ok _ _ _ _ _ Hc), Htruthy, (bind_Ok _ _ _ _ _ Hs).
    unfold gets at 1. unfold bind at 1. now rewrite Hflag.
  - intros name parameters enclosed arguments before statement after st0 sa st1
      Hentry Hbefore Hs Hflag.
    unfold call_at. rewrite (call_Function _ _ _ _ _ _ _ _ Hentry).
    unfold finally. rewrite (run_body_through _ _ _ _ _ Hbefore).
    now rewrite (run_body_returning _ _ _ _ _ Hs Hflag).
  - intros name parameters enclosed arguments body st0 st1 Hentry Hbody.
    unfold call_at. rewrite (call_Function _ _ _ _ _ _ _ _ Hentry).
    unfold finally.
    rewrite <- (app_nil_r body), (run_body_through _ _ _ _ _ Hbody).
    reflexivity.
  - intros Hst name parameters enclosed arguments body st' v Hbody Hcall.
    by eapply call_without_return.
Qed.

Lemma return_witness :
  let st := (accept_stmt 1 declare_early_return fresh_interpreter).1 in
  let st0 := ((enter 0 ;; bind_parameters [] 0 []) st).1 in
  let sa := (accept_stmt 3 (Print_stmt (num 1)) st0).1 in
  let st1 := (accept_stmt 3 (Return_stmt (Some (num 7))) sa).1 in
  (enter 0 ;; bind_parameters [] 0 []) st = (st0, Ok tt) /\
  runs_through (accept_stmt 3) [Print_stmt (num 1)] st0 sa /\
  accept_stmt 3 (Return_stmt (Some (num 7))) sa = (st1, Ok tt) /\
  returning_ st1 = true /\
  call_at 3
    (Function (ident "g") []
       [Print_stmt (num 1); Return_stmt (Some (num 7)); Print_stmt (num 2)] 0)
    [] st
  = (set_environment_ (environment_ st) (set_returning_ false st1),
     Ok (number 7)).
Proof.
  split; [reflexivity |].
  split; [eapply runs_through_cons; [reflexivity | reflexivity | constructor] |].
  split; [reflexivity |]. split; [reflexivity |].
  destruct (return_unwinds_to_the_enclosing_call 3
              (accept_stmt 1 declare_early_return fresh_interpreter).1)
    as (_ & _ & _ & _ & _ & Hcall & _).
  apply (Hcall (ident "g") [] 0 [] [Print_stmt (num 1)]
           (Return_stmt (Some (num 7))) [Print_stmt (num 2)]
           ((enter 0 ;; bind_parameters [] 0 []) 
              (accept_stmt 1 declare_early_return fresh_interpreter).1).1
           (accept_stmt 3 (Print_stmt (num 1))
              ((enter 0 ;; bind_parameters [] 0 []) 
                 (accept_stmt 1 declare_early_return fresh_interpreter).1).1).1).
  - reflexivity.
  - eapply runs_through_cons; [reflexivity | reflexivity | constructor].
  - reflexivity.
  - reflexivity.
Defined.

(** [fun f(n) { while (true) { if (n > 0) { print n; return n; print 99; }
    print 98; } print 97; } print f(3); print 4;] prints 3, 3 and 4: the
    return leaves the block, the if, the loop and the body, the call yields
    the returned value, and the flag is clear afterwards. *)
Example nested_return_output :
  let run := interpret 12 nested_return fresh_interpreter in
  run.2 = Ok tt /\
  cout run.1 = [number 3; number 3; number 4] /\
  returning_ run.1 = false.
Proof. vm_compute. repeat split. Qed.

(** ** C5: the active environment *)

(** C5: on every exit of a block statement and of a call of a user
    function (normal completion, early exit on the is-returning flag, a
    propagating error), the active environment is the one that was active
    on entry; the same holds of every statement and expression, so no
    failure in a nested scope leaves the interpreter in the inner scope. *)
Theorem active_environment_restored_on_every_exit fuel st :
  (forall statements,
     environment_ (accept_stmt fuel (Block_stmt statements) st).1
       = environment_ st) /\
  (forall name parameters body enclosed arguments,
     environment_
       (call_at fuel (Function name parameters body enclosed) arguments st).1
       = environment_ st) /\
  (forall s, environment_ (accept_stmt fuel s st).1 = environment_ st) /\
  (forall e, environment_ (accept_expr fuel e st).1 = environment_ st).
Proof.
  destruct (accept_same_environment fuel) as [He Hs].
  repeat split; intros.
  - apply Hs.
  - apply call_same_environment.
  - apply Hs.
  - apply He.
Qed.

(** An error raised two blocks deep: both frames were created, the error
    propagates, and the active environment is the global one again. *)
Example error_in_nested_block_restores_environment :
  let failed := accept_stmt 5 failing_blocks fresh_interpreter in
  failed.2 = Throw (Interpreter_error "Undefined variable 'missing'.") /\
  length (environments failed.1) = 3 /\
  environment_ failed.1 = environment_ fresh_interpreter.
Proof. vm_compute. repeat split. Qed.

(** ** C6: logical operators *)

(** C6: a logical expression evaluates its left operand. For [or] with a
    truthy left value, and for [and] with a falsey one, the result is the
    left value and the state is the one the left operand left: the right
    operand is not evaluated. Otherwise the outcome is that of the right
    operand, evaluated after the left one. Only [false] and [nil] are
    falsey; the number 0 and the empty string are truthy. *)
Theorem logical_operators_short_circuit fuel left_ op right_ st st1 l :
  evaluate fuel left_ st = (st1, Ok l) ->
  (type op = or_ ->
   accept_expr (S fuel) (Logical_expr left_ op right_) st =
     if Is_truthy_visitor l then (set_result_ l st1, Ok tt)
     else accept_expr fuel right_ st1) /\
  (type op = and_ ->
   accept_expr (S fuel) (Logical_expr left_ op right_) st =
     if Is_truthy_visitor l then accept_expr fuel right_ st1
     else (set_result_ l st1, Ok tt)) /\
  (Is_truthy_visitor l = false <-> l = Lit_nil \/ l = Lit_bool false) /\
  Is_truthy_visitor (number 0) = true /\
  Is_truthy_visitor (Lit_string EmptyString) = true.
Proof.
  intros Hl. repeat split.
  - intros Hop. rewrite accept_expr_S. unfold visit_expr, visit_Logical_expr.
    rewrite (bind_Ok _ _ _ _ _ Hl), Hop. now destruct (Is_truthy_visitor l).
  - intros Hop. rewrite accept_expr_S. unfold visit_expr, visit_Logical_expr.
    rewrite (bind_Ok _ _ _ _ _ Hl), Hop. now destruct (Is_truthy_visitor l).
  - destruct l as [| [] | | |]; simpl; intros; try done; auto.
  - intros [-> | ->]; reflexivity.
Qed.

Lemma logical_witness :
  let st1 := set_result_ (number 0) fresh_interpreter in
  evaluate 2 (num 0) fresh_interpreter = (st1, Ok (number 0)) /\
  accept_expr 3 (Logical_expr (num 0) (tok or_ "or") (call_ "undefined" []))
              fresh_interpreter
  = (set_result_ (number 0) st1, Ok tt).
Proof.
  split; [reflexivity |].
  apply (logical_operators_short_circuit 2 (num 0) (tok or_ "or")
           (call_ "undefined" []) fresh_interpreter _ (number 0) eq_refl).
  reflexivity.
Defined.

(** ** C7: lookup and shadowing *)

(** C7: in a well-formed store, a lookup from a frame yields the binding
    of the frame itself when it has one, and otherwise what the lookup from
    the enclosing frame yields (nothing when there is no enclosing frame):
    the nearest definition wins. A variable expression reads the binding
    that the lookup from the active environment finds, and fails with
    "Undefined variable '<name>'." when it finds none. A block runs its
    statements in a fresh
    frame whose parent is the active environment, and restores the active
    environment at the end. A [var] declaration binds the name in the active
    frame, where a lookup from that frame finds it first, and touches no
    other frame; and a lookup from a frame of the store yields the same
    binding and value in any store that has the same frames up to there,
    whatever frames were added. [var a = 1; { var a = 2; print a; } print a;]
    prints 2 then 1. *)
Theorem lookup_finds_nearest_enclosing_definition fuel st :
  heap_wf (environments st) ->
  (forall env frame var_name,
     environments st !! env = Some frame ->
     find_in_chain (environments st) env var_name =
       match find_own var_name (values_ frame) with
       | Some i => Some (env, i)
       | None =>
           match enclosed_ frame with
           | Some parent => find_in_chain (environments st) parent var_name
           | None => None
           end
       end) /\
  (forall name,
     accept_expr (S fuel) (Var_expr name) st =
       match find_in_chain (environments st) (environment_ st) (lexeme name) with
       | Some found =>
           match read_at (environments st) found with
           | Some v => (set_result_ v st, Ok tt)
           | None => (st, Undefined)
           end
       | None =>
           (st, Throw (Interpreter_error
                         ("Undefined variable '" +:+ lexeme name +:+ "'.")))
       end /\
     (forall found,
        find_in_chain (environments st) (environment_ st) (lexeme name)
          = Some found ->
        is_Some (read_at (environments st) found))) /\
  (forall statements,
     accept_stmt (S fuel) (Block_stmt statements) st =
       finally (set_environment_ (environment_ st))
         (run_block (accept_stmt fuel) statements)
         (entered (mkEnvironment [] (Some (environment_ st))) st)) /\
  (forall name initializer st1 v frame,
     evaluate fuel initializer st = (st1, Ok v) ->
     environments st1 !! environment_ st1 = Some frame ->
     exists st2 i,
       accept_stmt (S fuel) (Var_stmt name (Some initializer)) st = (st2, Ok tt) /\
       find_in_chain (environments st2) (environment_ st1) (lexeme name)
         = Some (environment_ st1, i) /\
       read_at (environments st2) (environment_ st1, i) = Some v /\
       (forall other, other <> environment_ st1 ->
          environments st2 !! other = environments st1 !! other)) /\
  (forall heap' env var_name,
     env < length (environments st) ->
     (forall other, other < length (environments st) ->
        heap' !! other = environments st !! other) ->
     find_in_chain heap' env var_name
       = find_in_chain (environments st) env var_name /\
     (forall found,
        find_in_chain (environments st) env var_name = Some found ->
        read_at heap' found = read_at (environments st) found)) /\
  cout (interpret 5 shadowing fresh_interpreter).1 = [number 2; number 1].
Proof.
  intros Hwf. split; [| split; [| split; [| split; [| split]]]].
  - intros env frame var_name Hframe. now apply find_in_chain_step.
  - intros name. split; [reflexivity |].
    intros found Hfound. by eapply find_in_chain_readable.
  - intros statements. rewrite accept_stmt_S.
    unfold visit_stmt, visit_Block_stmt, finally.
    now rewrite (bind_Ok _ _ _ _ _ (enter_entered (environment_ st) st)).
  - intros name initializer st1 v frame Hv Hframe. rewrite accept_stmt_S.
    unfold visit_stmt, visit_Var_stmt. rewrite (bind_Ok _ _ _ _ _ Hv).
    destruct (define_bound (lexeme name) v st1 frame Hframe)
      as (st2 & i & Hdefine & Hfind & Hread & Hother & _).
    exists st2, i. done.
  - intros heap' env var_name Henv Hsame.
    assert (Hfind : find_in_chain heap' env var_name
                    = find_in_chain (environments st) env var_name)
      by by apply find_in_chain_older.
    split; [done |]. intros found Hfound.
    apply find_in_chain_from_found in Hfound; [| done].
    unfold read_at. rewrite Hsame by lia. done.
  - vm_compute. reflexivity.
Qed.

Lemma lookup_witness :
  let st := (interpret 2 [Var_stmt (ident "a") (Some (num 1))] fresh_interpreter).1 in
  heap_wf (environments st) /\
  accept_stmt 3 (Block_stmt [Var_stmt (ident "a") (Some (num 2));
                             Print_stmt (var "a")]) st =
    finally (set_environment_ (environment_ st))
      (run_block (accept_stmt 2)
         [Var_stmt (ident "a") (Some (num 2)); Print_stmt (var "a")])
      (entered (mkEnvironment [] (Some (environment_ st))) st).
Proof.
  assert (Hwf : heap_wf (environments
            (interpret 2 [Var_stmt (ident "a") (Some (num 1))] fresh_interpreter).1)).
  { intros [| env] frame parent Hframe Hparent; [| done].
    injection Hframe as <-. done. }
  split; [exact Hwf |].
  apply (lookup_finds_nearest_enclosing_definition 2 _ Hwf).
Defined.

(** ** C8: addition *)

(** C8: a binary [+] whose operands have evaluated yields the sum of two
    numbers (the binary64 sum) and the concatenation of two strings; for
    every other pair of operands it fails with the error whose message is
    exactly "Operands must be two numbers or two strings.", in the state the
    right operand left. *)
Theorem plus_sums_concatenates_or_fails fuel left_ op right_ st st1 st2 l r :
  type op = plus ->
  evaluate fuel left_ st = (st1, Ok l) ->
  evaluate fuel right_ st1 = (st2, Ok r) ->
  accept_expr (S fuel) (Binary_expr left_ op right_) st =
    match l, r with
    | Lit_number a, Lit_number b =>
        (set_result_ (Lit_number (SFadd prec emax a b)) st2, Ok tt)
    | Lit_string a, Lit_string b =>
        (set_result_ (Lit_string (a +:+ b)) st2, Ok tt)
    | _, _ =>
        (st2, Throw (Interpreter_error
                       "Operands must be two numbers or two strings."))
    end.
Proof.
  intros Hop Hl Hr.
  rewrite (visit_Binary_expr_operands _ _ _ _ _ _ _ _ _ Hl Hr), Hop.
  destruct l, r; reflexivity.
Qed.

Lemma plus_witness :
  let left_ := Literal_expr (Lit_string "a") in
  let right_ := num 1 in
  let st1 := set_result_ (Lit_string "a") fresh_interpreter in
  let st2 := set_result_ (number 1) fresh_interpreter in
  type (tok plus "+") = plus /\
  evaluate 1 left_ fresh_interpreter = (st1, Ok (Lit_string "a")) /\
  evaluate 1 right_ st1 = (st2, Ok (number 1)) /\
  accept_expr 2 (Binary_expr left_ (tok plus "+") right_) fresh_interpreter
  = (st2, Throw (Interpreter_error
                   "Operands must be two numbers or two strings.")).
Proof.
  repeat (split; [reflexivity |]).
  apply (plus_sums_concatenates_or_fails 1 (Literal_expr (Lit_string "a"))
           (tok plus "+") (num 1) fresh_interpreter _ _
           (Lit_string "a") (number 1) eq_refl eq_refl eq_refl).
Defined.

(** The sum of the numbers 1 and 2 is the number 3, and strings are joined
    in order. *)
Example plus_examples :
  Plus_visitor (number 1) (number 2) = inl (number 3) /\
  Plus_visitor (Lit_string "ab") (Lit_string "c") = inl (Lit_string "abc").
Proof. split; reflexivity. Qed.

(** ** C9: equality *)

(** C9: [==] on two evaluated operands is false between values of
    different kinds, and inside a kind it is the equality of the kind: nil
    equals nil, booleans and strings are equal when they are the same,
    callables when they are the same pointer, numbers when [==] of binary64
    holds, so that NaN is not equal to itself. [!=] is the negation of [==].
    Neither raises an error, whatever the kinds of the operands. *)
Theorem equality_compares_within_a_kind_and_never_fails
    fuel left_ op right_ st st1 st2 l r :
  evaluate fuel left_ st = (st1, Ok l) ->
  evaluate fuel right_ st1 = (st2, Ok r) ->
  (Is_equal_visitor l r = true <-> spec_equal l r) /\
  (which l <> which r -> Is_equal_visitor l r = false) /\
  Is_equal_visitor Lit_nil Lit_nil = true /\
  Is_equal_visitor (Lit_number S754_nan) (Lit_number S754_nan) = false /\
  (type op = equal_equal ->
   accept_expr (S fuel) (Binary_expr left_ op right_) st =
     (set_result_ (Lit_bool (Is_equal_visitor l r)) st2, Ok tt)) /\
  (type op = bang_equal ->
   accept_expr (S fuel) (Binary_expr left_ op right_) st =
     (set_result_ (Lit_bool (negb (Is_equal_visitor l r))) st2, Ok tt)).
Proof.
  intros Hl Hr. repeat split.
  - destruct l, r; simpl; try done; rewrite bool_decide_eq_true; done.
  - destruct l, r; simpl; try done; rewrite bool_decide_eq_true; done.
  - destruct l, r; simpl; done.
  - intros Hop.
    rewrite (visit_Binary_expr_operands _ _ _ _ _ _ _ _ _ Hl Hr), Hop. done.
  - intros Hop.
    rewrite (visit_Binary_expr_operands _ _ _ _ _ _ _ _ _ Hl Hr), Hop. done.
Qed.

Lemma equality_witness :
  let left_ := Literal_expr Lit_nil in
  let right_ := Literal_expr (Lit_string "nil") in
  let st1 := set_result_ Lit_nil fresh_interpreter in
  let st2 := set_result_ (Lit_string "nil") fresh_interpreter in
  evaluate 1 left_ fresh_interpreter = (st1, Ok Lit_nil) /\
  evaluate 1 right_ st1 = (st2, Ok (Lit_string "nil")) /\
  accept_expr 2 (Binary_expr left_ (tok bang_equal "!=") right_) fresh_interpreter
  = (set_result_ (Lit_bool true) st2, Ok tt).
Proof.
  split; [reflexivity | split; [reflexivity |]].
  apply (equality_compares_within_a_kind_and_never_fails 1
           (Literal_expr Lit_nil) (tok bang_equal "!=")
           (Literal_expr (Lit_string "nil")) fresh_interpreter
           _ _ Lit_nil (Lit_string "nil") eq_refl eq_refl).
  reflexivity.
Defined.

(** ** C10: a return at the top level *)




(** [return; { print 1; print 2; }] prints 1 and leaves the flag set;
    in [return; fun f() { nil; } f(); { print 1; print 2; }] the call of
    [f] clears the flag and the block prints 1 and 2. *)
Example flag_cleared_by_the_next_call :
  let stale := interpret 4 return_then_block fresh_interpreter in
  let cleared := interpret 4 return_call_block fresh_interpreter in
  cout stale.1 = [number 1] /\ returning_ stale.1 = true /\
  cout cleared.1 = [number 1; number 2] /\ returning_ cleared.1 = false.
Proof. vm_compute. repeat split. Qed.

(** * Further properties *)

(** ** Unary operators *)

Lemma SFopp_involutive d : SFopp (SFopp d) = d.
Proof. destruct d as [[] | [] | | [] m e]; reflexivity. Qed.

Lemma visit_Unary_expr_operand fuel op right_ st st1 v :
  evaluate fuel right_ st = (st1, Ok v) ->
  accept_expr (S fuel) (Unary_expr op right_) st =
    match type op with
    | minus =>
        match get_double v with
        | Some d => modify (set_result_ (Lit_number (SFopp d)))
        | None => throw (Interpreter_error_at "Operands must be numbers." op)
        end
    | bang => modify (set_result_ (Lit_bool (negb (Is_truthy_visitor v))))
    | _ => throw (Interpreter_error_at "Unreachable." op)
    end st1.
Proof.
  intros Hv. rewrite accept_expr_S. unfold visit_expr, visit_Unary_expr.
  now rewrite (bind_Ok _ _ _ _ _ Hv).
Qed.

Lemma evaluate_Ok fuel e st st1 :
  accept_expr fuel e st = (st1, Ok tt) ->
  evaluate fuel e st = (st1, Ok (result_ st1)).
Proof. intros H. unfold evaluate, apply_visitor. now rewrite (bind_Ok _ _ _ _ _ H). Qed.

(** X1: a unary expression evaluates its operand first. [-] on a number
    yields the number with the opposite sign, and on any other value fails
    with "[Line <n>] Error '<lexeme>': Operands must be numbers." built from
    the operator token, in the state the operand left. [!] never fails: it
    yields [true] for nil and [false], and [false] for every other value. Any
    other operator fails with "Unreachable." attributed to the token. So
    [- - e] is [e] again for a number, and [! ! e] is the truthiness of
    [e]. *)
Theorem unary_minus_needs_a_number_and_bang_never_fails
    fuel op right_ st st1 v :
  evaluate fuel right_ st = (st1, Ok v) ->
  (type op = minus ->
   accept_expr (S fuel) (Unary_expr op right_) st =
     match v with
     | Lit_number d => (set_result_ (Lit_number (SFopp d)) st1, Ok tt)
     | _ =>
         (st1, Throw (Interpreter_error
                        ("[Line " +:+ to_string (line op) +:+ "] Error '"
                           +:+ lexeme op +:+ "': Operands must be numbers.")))
     end) /\
  (type op = bang ->
   accept_expr (S fuel) (Unary_expr op right_) st =
     (set_result_ (Lit_bool (negb (Is_truthy_visitor v))) st1, Ok tt)) /\
  (type op <> minus -> type op <> bang ->
   accept_expr (S fuel) (Unary_expr op right_) st =
     (st1, Throw (Interpreter_error
                    ("[Line " +:+ to_string (line op) +:+ "] Error '"
                       +:+ lexeme op +:+ "': Unreachable.")))) /\
  (type op = minus -> forall d, v = Lit_number d ->
   accept_expr (S (S fuel)) (Unary_expr op (Unary_expr op right_)) st =
     (set_result_ (Lit_number d) st1, Ok tt)) /\
  (type op = bang ->
   accept_expr (S (S fuel)) (Unary_expr op (Unary_expr op right_)) st =
     (set_result_ (Lit_bool (Is_truthy_visitor v)) st1, Ok tt)).
Proof.
  intros Hv.
  pose proof (visit_Unary_expr_operand fuel op right_ st st1 v Hv) as Hstep.
  split; [| split; [| split; [| split]]].
  - intros Hop. rewrite Hstep, Hop. now destruct v.
  - intros Hop. now rewrite Hstep, Hop.
  - intros Hminus Hbang. rewrite Hstep. now destruct (type op).
  - intros Hop d ->.
    assert (Hinner : accept_expr (S fuel) (Unary_expr op right_) st
                     = (set_result_ (Lit_number (SFopp d)) st1, Ok tt))
      by (rewrite Hstep, Hop; reflexivity).
    rewrite (visit_Unary_expr_operand (S fuel) op _ st _ _
               (evaluate_Ok _ _ _ _ Hinner)), Hop.
    cbn [result_ set_result_ get_double]. unfold modify.
    now rewrite SFopp_involutive.
  - intros Hop.
    assert (Hinner : accept_expr (S fuel) (Unary_expr op right_) st
                     = (set_result_ (Lit_bool (negb (Is_truthy_visitor v))) st1,
                        Ok tt))
      by (rewrite Hstep, Hop; reflexivity).
    rewrite (visit_Unary_expr_operand (S fuel) op _ st _ _
               (evaluate_Ok _ _ _ _ Hinner)), Hop.
    cbn [result_ set_result_ Is_truthy_visitor]. unfold modify.
    now rewrite negb_involutive.
Qed.

Lemma unary_witness :
  let op := mkToken minus "-" 7 in
  let st1 := set_result_ (Lit_string "a") fresh_interpreter in
  evaluate 1 (Literal_expr (Lit_string "a")) fresh_interpreter
    = (st1, Ok (Lit_string "a")) /\
  type op = minus /\
  accept_expr 2 (Unary_expr op (Literal_expr (Lit_string "a"))) fresh_interpreter =
    (st1, Throw (Interpreter_error "[Line 7] Error '-': Operands must be numbers.")).
Proof.
  split; [reflexivity |]. split; [reflexivity |].
  apply (unary_minus_needs_a_number_and_bang_never_fails 1 (mkToken minus "-" 7)
           (Literal_expr (Lit_string "a")) fresh_interpreter _ (Lit_string "a")
           eq_refl).
  reflexivity.
Defined.

(** ** Arithmetic and comparison *)

(** X2: a binary expression with one of the operators [>], [>=], [<],
    [<=], [-], [/] and [*] evaluates its left operand, then its right
    operand, and only then looks at the values. On two numbers it never
    fails and yields the binary64 comparison, difference, quotient or
    product. When either value is not a number it fails with "[Line <n>]
    Error '<lexeme>': Operands must be numbers." built from the operator
    token, in the state the right operand left (the right operand has been
    evaluated even when the left value is already not a number). *)
Theorem arithmetic_and_comparison_need_two_numbers
    fuel left_ op right_ st st1 st2 l r :
  evaluate fuel left_ st = (st1, Ok l) ->
  evaluate fuel right_ st1 = (st2, Ok r) ->
  takes_numbers (type op) = true ->
  accept_expr (S fuel) (Binary_expr left_ op right_) st =
    match l, r with
    | Lit_number a, Lit_number b =>
        (set_result_
           match type op with
           | greater => Lit_bool (SFltb b a)
           | greater_equal => Lit_bool (SFleb b a)
           | less => Lit_bool (SFltb a b)
           | less_equal => Lit_bool (SFleb a b)
           | minus => Lit_number (SFsub prec emax a b)
           | slash => Lit_number (SFdiv prec emax a b)
           | _ => Lit_number (SFmul prec emax a b)
           end st2, Ok tt)
    | _, _ =>
        (st2, Throw (Interpreter_error
                       ("[Line " +:+ to_string (line op) +:+ "] Error '"
                          +:+ lexeme op +:+ "': Operands must be numbers.")))
    end.
Proof.
  intros Hl Hr Hop.
  rewrite (visit_Binary_expr_operands _ _ _ _ _ _ _ _ _ Hl Hr).
  destruct (type op); try discriminate Hop; destruct l, r; reflexivity.
Qed.

Lemma arithmetic_witness :
  let op := mkToken star "*" 3 in
  let st1 := set_result_ Lit_nil fresh_interpreter in
  let st2 := set_result_ (number 2) fresh_interpreter in
  evaluate 1 (Literal_expr Lit_nil) fresh_interpreter = (st1, Ok Lit_nil) /\
  evaluate 1 (num 2) st1 = (st2, Ok (number 2)) /\
  takes_numbers (type op) = true /\
  accept_expr 2 (Binary_expr (Literal_expr Lit_nil) op (num 2)) fresh_interpreter =
    (st2, Throw (Interpreter_error "[Line 3] Error '*': Operands must be numbers.")).
Proof.
  repeat (split; [reflexivity |]).
  apply (arithmetic_and_comparison_need_two_numbers 1 (Literal_expr Lit_nil)
           (mkToken star "*" 3) (num 2) fresh_interpreter _ _ Lit_nil (number 2)
           eq_refl eq_refl eq_refl).
Defined.

(** X3: a division by zero is not an error: when the right operand of [/]
    is a zero and the left one a number, the expression yields a number,
    which is an infinity or NaN. And NaN compares false: when either
    operand of [>], [>=], [<] or [<=] is NaN, the expression yields
    [false], so that [a >= b] is not the negation of [a < b]. *)
Theorem division_by_zero_and_nan_raise_no_error
    fuel left_ op right_ st st1 st2 a b :
  evaluate fuel left_ st = (st1, Ok (Lit_number a)) ->
  evaluate fuel right_ st1 = (st2, Ok (Lit_number b)) ->
  (type op = slash -> (exists s, b = S754_zero s) ->
   exists d,
     accept_expr (S fuel) (Binary_expr left_ op right_) st
       = (set_result_ (Lit_number d) st2, Ok tt) /\
     (d = S754_nan \/ exists s, d = S754_infinity s)) /\
  (type op ∈ [greater; greater_equal; less; less_equal] ->
   a = S754_nan \/ b = S754_nan ->
   accept_expr (S fuel) (Binary_expr left_ op right_) st
     = (set_result_ (Lit_bool false) st2, Ok tt)).
Proof.
  intros Hl Hr. split.
  - intros Hop [s ->].
    rewrite (visit_Binary_expr_operands _ _ _ _ _ _ _ _ _ Hl Hr), Hop.
    eexists. split; [reflexivity |].
    destruct a; simpl; eauto.
  - intros Hop Hnan.
    rewrite (visit_Binary_expr_operands _ _ _ _ _ _ _ _ _ Hl Hr).
    assert (Hlt : forall x y, x = S754_nan \/ y = S754_nan -> SFltb x y = false).
    { intros x y [-> | ->]; [done | by destruct x]. }
    assert (Hle : forall x y, x = S754_nan \/ y = S754_nan -> SFleb x y = false).
    { intros x y [-> | ->]; [done | by destruct x]. }
    repeat (apply elem_of_cons in Hop as [-> | Hop]);
      [| | | | by apply elem_of_nil in Hop];
      unfold numeric, modify; simpl;
      rewrite ?Hlt, ?Hle by tauto; reflexivity.
Qed.

Lemma division_witness :
  let op := mkToken slash "/" 1 in
  let st1 := set_result_ (number 1) fresh_interpreter in
  let st2 := set_result_ (number 0) fresh_interpreter in
  evaluate 1 (num 1) fresh_interpreter = (st1, Ok (number 1)) /\
  evaluate 1 (num 0) st1 = (st2, Ok (number 0)) /\
  type op = slash /\
  (exists s, S754_zero false = S754_zero s) /\
  exists d,
    accept_expr 2 (Binary_expr (num 1) op (num 0)) fresh_interpreter
      = (set_result_ (Lit_number d) st2, Ok tt) /\
    (d = S754_nan \/ exists s, d = S754_infinity s).
Proof.
  split; [reflexivity |]. split; [reflexivity |]. split; [reflexivity |].
  split; [by exists false |].
  apply (division_by_zero_and_nan_raise_no_error 1 (num 1) (mkToken slash "/" 1)
           (num 0) fresh_interpreter _ _ _ (S754_zero false) eq_refl eq_refl);
    [reflexivity | by exists false].
Defined.

(** ** Calls *)

(** X4: a call whose callee evaluates to a value that is not a callable
    fails with the error whose message is exactly "Can only call functions
    and classes.", in the state the callee left: no argument has been
    evaluated. *)
Theorem call_of_a_non_callable_fails_before_the_arguments
    fuel callee closing_paren arguments st st1 v :
  evaluate fuel callee st = (st1, Ok v) ->
  (forall p, v <> Lit_callable p) ->
  accept_expr (S fuel) (Call_expr callee closing_paren arguments) st =
    (st1, Throw (Interpreter_error "Can only call functions and classes.")).
Proof.
  intros Hv Hnot. rewrite accept_expr_S. unfold visit_expr, visit_Call_expr.
  rewrite (bind_Ok _ _ _ _ _ Hv). destruct v as [| | | | p]; try reflexivity.
  now destruct (Hnot p).
Qed.

Lemma non_callable_witness :
  let st1 := set_result_ (Lit_string "f") fresh_interpreter in
  evaluate 1 (Literal_expr (Lit_string "f")) fresh_interpreter
    = (st1, Ok (Lit_string "f")) /\
  (forall p, Lit_string "f" <> Lit_callable p) /\
  accept_expr 2 (Call_expr (Literal_expr (Lit_string "f")) closing [call_ "g" []])
              fresh_interpreter =
    (st1, Throw (Interpreter_error "Can only call functions and classes.")).
Proof.
  split; [reflexivity |]. split; [discriminate |].
  apply (call_of_a_non_callable_fails_before_the_arguments 1
           (Literal_expr (Lit_string "f")) closing [call_ "g" []]
           fresh_interpreter _ (Lit_string "f") eq_refl).
  discriminate.
Defined.

(** X5: the interpreter as constructed binds [clock] in the global frame
    to a callable of arity 0; the expression [clock()] evaluated in it yields
    the time read from the system clock, as a number, and changes nothing
    but the result register. In any state, a call without arguments whose
    callee evaluates to the clock yields the time of that state in the
    state the callee left. *)
Theorem clock_takes_no_argument_and_yields_the_time
    fuel callee closing_paren st st1 p :
  evaluate fuel callee st = (st1, Ok (Lit_callable p)) ->
  callables st1 !! p = Some Clock_callable ->
  accept_expr (S fuel) (Call_expr callee closing_paren []) st
    = (set_result_ (Lit_number (now st1)) st1, Ok tt) /\
  arity Clock_callable = 0 /\
  (forall now_ name,
     lexeme name = "clock" ->
     accept_expr (S (S fuel)) (Call_expr (Var_expr name) closing_paren [])
       (Interpreter_new now_)
     = (set_result_ (Lit_number now_) (Interpreter_new now_), Ok tt)).
Proof.
  intros Hcallee Hp. split; [| split; [reflexivity |]].
  - rewrite accept_expr_S. unfold visit_expr, visit_Call_expr.
    rewrite (bind_Ok _ _ _ _ _ Hcallee).
    unfold gets at 1. unfold bind at 1. rewrite Hp. reflexivity.
  - intros now_ [t l n] Hname. simpl in Hname. subst l. reflexivity.
Qed.

Lemma clock_witness :
  let st1 := set_result_ (Lit_callable 0) fresh_interpreter in
  evaluate 1 (var "clock") fresh_interpreter = (st1, Ok (Lit_callable 0)) /\
  callables st1 !! 0 = Some Clock_callable /\
  accept_expr 2 (call_ "clock" []) fresh_interpreter
    = (set_result_ (Lit_number (now st1)) st1, Ok tt).
Proof.
  split; [reflexivity |]. split; [reflexivity |].
  apply (clock_takes_no_argument_and_yields_the_time 1 (var "clock") closing
           fresh_interpreter _ 0 eq_refl eq_refl).
Defined.

(** ** Loops *)

(** X6: when a while statement completes and the is-returning flag is
    clear, the last thing it did was to evaluate its condition to a falsey
    value: the result register holds nil or [false]. *)
Theorem while_ends_on_a_falsey_condition fuel condition body :
  forall st st',
    accept_stmt fuel (While_stmt condition body) st = (st', Ok tt) ->
    returning_ st' = false ->
    result_ st' = Lit_nil \/ result_ st' = Lit_bool false.
Proof.
  induction fuel as [| fuel IH]; intros st st' Hrun Hflag; [done |].
  rewrite accept_stmt_S in Hrun.
  unfold visit_stmt, visit_While_stmt, apply_visitor in Hrun.
  unfold bind at 1 2 in Hrun. unfold gets at 1 in Hrun.
  destruct (accept_expr fuel condition st) as [st1 [[] | | |]]; try done.
  destruct (Is_truthy_visitor (result_ st1)) eqn:Htruthy.
  - unfold bind at 1 in Hrun.
    destruct (accept_stmt fuel body st1) as [st2 [[] | | |]]; try done.
    unfold gets at 1 in Hrun. unfold bind at 1 in Hrun.
    destruct (returning_ st2) eqn:Hreturning.
    + injection Hrun as <-. congruence.
    + eauto.
  - injection Hrun as <-.
    destruct (result_ st1) as [| [] | | |]; try done; auto.
Qed.

Lemma while_witness :
  let loop := While_stmt (Literal_expr (Lit_bool false)) (Print_stmt (num 1)) in
  let st' := set_result_ (Lit_bool false) fresh_interpreter in
  accept_stmt 2 loop fresh_interpreter = (st', Ok tt) /\
  returning_ st' = false /\
  (result_ st' = Lit_nil \/ result_ st' = Lit_bool false).
Proof.
  split; [reflexivity |]. split; [reflexivity |].
  apply (while_ends_on_a_falsey_condition 2 (Literal_expr (Lit_bool false))
           (Print_stmt (num 1)) fresh_interpreter _ eq_refl eq_refl).
Defined.

(** ** Expressions that only read *)

#[local] Instance only_result_preorder : PreOrder only_result.
Proof.
  split; unfold only_result.
  - intros st. now destruct st.
  - intros st1 st2 st3 H12 H23.
    remember (result_ st3) as r3 eqn:Hr3. rewrite H23, H12. reflexivity.
Qed.

Lemma reads_only_only_result fuel :
  forall e, reads_only e = true -> keeps only_result (accept_expr fuel e).
Proof.
  induction fuel as [| fuel IH]; [intros ? ? ?; reflexivity |].
  assert (Heval : forall e, reads_only e = true ->
            keeps only_result (apply_visitor (accept_expr fuel) e)).
  { intros e He. unfold apply_visitor.
    apply keeps_bind; [apply _ | exact (IH _ He) | intros _; apply keeps_gets, _]. }
  intros e He. rewrite accept_expr_S.
  destruct e; simpl in He; try done; repeat (apply andb_prop in He as [? He]);
    simpl.
  - exact (IH _ He).
  - unfold visit_Unary_expr.
    apply keeps_bind; [apply _ | (apply Heval; assumption) | intros v].
    destruct (type op); try (intros st; reflexivity).
    destruct (get_double v); intros st; reflexivity.
  - unfold visit_Binary_expr.
    apply keeps_bind; [apply _ | (apply Heval; assumption) | intros l].
    apply keeps_bind; [apply _ | (apply Heval; assumption) | intros r].
    destruct (type op); unfold numeric;
      try (destruct (Plus_visitor l r));
      try (destruct (get_double l), (get_double r));
      intros st; reflexivity.
  - intros st. unfold visit_Var_expr.
    destruct (find_in_chain _ _ _); [| reflexivity].
    destruct (read_at _ _); reflexivity.
  - unfold visit_Logical_expr.
    apply keeps_bind; [apply _ | (apply Heval; assumption) | intros l].
    destruct (type op); try (intros st; reflexivity);
      destruct (Is_truthy_visitor l); simpl;
      try (intros st; reflexivity); apply IH; assumption.
Qed.

(** X7: an expression built from literals, variables, groupings and
    unary, binary and logical operators (no assignment, no call) has no
    side effect: whatever its outcome, value or error, the state it leaves
    is the state it started from with another value in the result register
    at most. *)
Theorem expression_without_assignment_or_call_has_no_side_effect fuel e st :
  reads_only e = true ->
  (accept_expr fuel e st).1
    = set_result_ (result_ (accept_expr fuel e st).1) st.
Proof. intros He. now apply reads_only_only_result. Qed.

Lemma reads_only_witness :
  let e := Binary_expr (var "clock") (tok less "<") (num 1) in
  reads_only e = true /\
  (accept_expr 3 e fresh_interpreter).1
    = set_result_ (result_ (accept_expr 3 e fresh_interpreter).1)
        fresh_interpreter.
Proof.
  split; [reflexivity |].
  apply (expression_without_assignment_or_call_has_no_side_effect 3
           (Binary_expr (var "clock") (tok less "<") (num 1)) fresh_interpreter).
  reflexivity.
Defined.

(** ** A frame as a map *)

Lemma declare_names values n v :
  (declare values (n, v)).*1
  = if decide (n ∈ values.*1) then values.*1 else values.*1 ++ [n].
Proof.
  unfold declare, find_own_or_make. cbn [fst snd values_].
  destruct (find_own n values) as [i |] eqn:Hfind.
  - rewrite write_frame_names. cbn [values_].
    apply find_own_Some in Hfind as [[w Hw] _].
    rewrite decide_True; [done |].
    apply list_elem_of_fmap. exists (n, w). split; [done |].
    by eapply list_elem_of_lookup_2.
  - rewrite write_frame_names. cbn [values_].
    apply find_own_None in Hfind. rewrite decide_False by done.
    now rewrite fmap_app.
Qed.

Lemma find_own_or_make_then_names n v frame :
  let (frame', i) := find_own_or_make n frame in
  (values_ (write_frame i v frame')).*1
  = if decide (n ∈ (values_ frame).*1) then (values_ frame).*1
    else (values_ frame).*1 ++ [n].
Proof.
  pose proof (declare_names (values_ frame) n v) as Hnames.
  unfold declare, find_own_or_make in *. cbn [fst snd values_] in *.
  now destruct (find_own n (values_ frame)).
Qed.

(** X8: the vector of a frame behaves as a map under
    [find_own_or_make(n) = v]: afterwards the frame binds [n] to [v] and
    every other name to what it bound before (and binds no other name); it
    holds one more pair, at the end, exactly when [n] was not bound, so
    that a name that was bound keeps its position; and the enclosing frame
    is the same. *)
Theorem find_own_or_make_then_write_is_a_map_insert frame n v :
  let (frame', i) := find_own_or_make n frame in
  let after := write_frame i v frame' in
  (forall var_name,
     bound_value var_name (values_ after)
     = if decide (var_name = n) then Some v
       else bound_value var_name (values_ frame)) /\
  (values_ after).*1
    = (if decide (n ∈ (values_ frame).*1) then (values_ frame).*1
       else (values_ frame).*1 ++ [n]) /\
  enclosed_ after = enclosed_ frame.
Proof.
  assert (Hdeclare :
    let (frame', i) := find_own_or_make n frame in
    values_ (write_frame i v frame') = declare (values_ frame) (n, v) /\
    enclosed_ (write_frame i v frame') = enclosed_ frame).
  { unfold declare, find_own_or_make. cbn [fst snd values_].
    now destruct (find_own n (values_ frame)). }
  destruct (find_own_or_make n frame) as [frame' i].
  destruct Hdeclare as [Hvalues Hparent]. cbv zeta. rewrite Hvalues.
  split; [intros; apply bound_value_declare |].
  split; [apply declare_names | exact Hparent].
Qed.

(** ** Relations kept by every write, calls and scopes included *)

Lemma define_cout var_name v st : cout (define var_name v st).1 = cout st.
Proof.
  unfold define.
  destruct (environments st !! environment_ st) as [frame |]; [| done].
  now destruct (find_own_or_make var_name frame).
Qed.

Lemma define_globals_ var_name v st :
  globals_ (define var_name v st).1 = globals_ st.
Proof.
  unfold define.
  destruct (environments st !! environment_ st) as [frame |]; [| done].
  now destruct (find_own_or_make var_name frame).
Qed.

Lemma define_now var_name v st : now (define var_name v st).1 = now st.
Proof.
  unfold define.
  destruct (environments st !! environment_ st) as [frame |]; [| done].
  now destruct (find_own_or_make var_name frame).
Qed.

(** The names of the store after a definition: the active frame has the
    name, at the end if it is new. *)
Lemma define_bound_names var_name v st :
  bound_names (environments (define var_name v st).1) =
    match bound_names (environments st) !! environment_ st with
    | Some names =>
        <[environment_ st :=
            if decide (var_name ∈ names) then names else names ++ [var_name]]>
          (bound_names (environments st))
    | None => bound_names (environments st)
    end.
Proof.
  unfold define, bound_names. rewrite list_lookup_fmap.
  destruct (environments st !! environment_ st) as [frame |]; [| done].
  pose proof (find_own_or_make_then_names var_name v frame) as Hnames.
  destruct (find_own_or_make var_name frame) as [frame' i].
  simpl. now rewrite list_fmap_insert, Hnames.
Qed.

Section Accumulates.
Context (P : Interpreter -> Interpreter -> Prop).
Context `{!PreOrder P} `{!Accumulating P}.

Lemma keeps_enter enclosed : keeps P (enter enclosed).
Proof.
  intros st. unfold enter, make_shared_Environment, modify, bind. simpl.
  etrans; [apply (accumulating_frame (Some enclosed)) |].
  apply accumulating_environment_.
Qed.

Lemma keeps_scope {A} (m : M A) st :
  keeps P m -> P st (finally (set_environment_ (environment_ st)) m st).1.
Proof.
  intros Hm. apply (keeps_finally P); [| done].
  intros st1 st2 H. etrans; [exact H | apply accumulating_environment_].
Qed.
End Accumulates.

(** One step of a proof that a visitor keeps such a relation. *)
Ltac accumulates_step :=
  lazymatch goal with
  | |- PreOrder _ => apply _
  | |- Accumulating _ => apply _
  | |- keeps _ (ret _) => apply keeps_ret
  | |- keeps _ (throw _) => apply keeps_throw
  | |- keeps _ undefined => apply keeps_undefined
  | |- keeps _ out_of_fuel => apply keeps_out_of_fuel
  | |- keeps _ (gets _) => apply keeps_gets
  | |- keeps _ (enter _) => apply keeps_enter
  | |- keeps ?P (define _ _) => intros ?; apply (accumulating_define (P := P))
  | |- keeps ?P (make_shared_Callable _) =>
      intros ?; apply (accumulating_closure (P := P))
  | |- keeps ?P (modify _) =>
      apply keeps_modify; intros ?;
      first [ apply (accumulating_result (P := P))
            | apply (accumulating_returning (P := P))
            | apply (accumulating_cout (P := P))
            | apply (accumulating_write (P := P)) ]
  | |- keeps _ (numeric _ _ _ _) => unfold numeric
  | |- keeps _ (bind _ _) => apply keeps_bind; [| | intros ?]
  | |- keeps _ (match ?x with _ => _ end) => destruct x
  end.

Section Accumulates_visitors.
Context (P : Interpreter -> Interpreter -> Prop).
Context `{!PreOrder P} `{!Accumulating P}.
Variable accept_expr_ : Expr -> M unit.
Variable accept_stmt_ : Stmt -> M unit.
Hypothesis accept_expr_keeps : forall e, keeps P (accept_expr_ e).
Hypothesis accept_stmt_keeps : forall s, keeps P (accept_stmt_ s).

Lemma keeps_apply_visitor e : keeps P (apply_visitor accept_expr_ e).
Proof. unfold apply_visitor. repeat first [done | accumulates_step]. Qed.

Lemma keeps_transform arguments : keeps P (transform accept_expr_ arguments).
Proof.
  induction arguments; simpl;
    repeat first [done | apply keeps_apply_visitor | accumulates_step].
Qed.

Lemma keeps_bind_parameters parameters arguments :
  forall i, keeps P (bind_parameters parameters i arguments).
Proof.
  induction parameters as [| parameter rest IH]; intros i; simpl;
    repeat first [done | accumulates_step].
Qed.

Lemma keeps_run_block statements : keeps P (run_block accept_stmt_ statements).
Proof. induction statements; simpl; repeat first [done | accumulates_step]. Qed.

Lemma keeps_run_body body : keeps P (run_body accept_stmt_ body).
Proof. induction body; simpl; repeat first [done | accumulates_step]. Qed.

Lemma keeps_call callable arguments :
  keeps P (call accept_stmt_ callable arguments).
Proof.
  destruct callable as [| name parameters body enclosed]; simpl.
  - repeat first [done | accumulates_step].
  - intros st. apply keeps_scope; [apply _ | apply _ |].
    repeat first [ done | apply keeps_bind_parameters | apply keeps_run_body
                 | accumulates_step ].
Qed.

Lemma keeps_visit_Block_stmt statements :
  keeps P (visit_Block_stmt accept_stmt_ statements).
Proof.
  intros st. unfold visit_Block_stmt. apply keeps_scope; [apply _ | apply _ |].
  repeat first [done | apply keeps_run_block | accumulates_step].
Qed.

Lemma keeps_visit_expr e : keeps P (visit_expr accept_expr_ accept_stmt_ e).
Proof.
  destruct e; simpl;
    unfold visit_Unary_expr, visit_Binary_expr, visit_Var_expr,
      visit_Assign_expr, visit_Logical_expr, visit_Call_expr;
    repeat first [ done | apply keeps_apply_visitor | apply keeps_transform
                 | apply keeps_call | accumulates_step ].
  intros st. destruct (find_in_chain _ _ _); [| reflexivity].
  destruct (read_at _ _); [apply accumulating_result | reflexivity].
Qed.

Lemma keeps_visit_stmt s : keeps P (visit_stmt accept_expr_ accept_stmt_ s).
Proof.
  destruct s; simpl;
    unfold visit_If_stmt, visit_While_stmt, visit_Print_stmt, visit_Var_stmt,
      visit_Function_stmt, visit_Return_stmt;
    repeat first [ done | apply keeps_apply_visitor | apply keeps_visit_Block_stmt
                 | accumulates_step ].
Qed.
End Accumulates_visitors.

Section Accumulates_accept.
Context (P : Interpreter -> Interpreter -> Prop).
Context `{!PreOrder P} `{!Accumulating P}.

Lemma keeps_accept fuel :
  (forall e, keeps P (accept_expr fuel e)) /\
  (forall s, keeps P (accept_stmt fuel s)).
Proof.
  induction fuel as [| fuel [IHe IHs]]; [split; intros ? ?; reflexivity |].
  split.
  - intros e. rewrite accept_expr_S. now apply keeps_visit_expr.
  - intros s. rewrite accept_stmt_S. now apply keeps_visit_stmt.
Qed.

Lemma keeps_interpret fuel statements : keeps P (interpret fuel statements).
Proof.
  induction statements as [| s rest IH]; simpl; [apply keeps_ret, _ |].
  apply keeps_bind; [apply _ | apply keeps_accept | done].
Qed.
End Accumulates_accept.

(** ** The output only grows *)

#[local] Instance output_grows_preorder : PreOrder output_grows.
Proof.
  split; [intros st; unfold output_grows; reflexivity |].
  intros st1 st2 st3. unfold output_grows. intros. by etrans.
Qed.

#[local] Instance output_grows_accumulating : Accumulating output_grows.
Proof.
  split; unfold output_grows; intros; simpl; try done.
  - by apply prefix_app_r.
  - by rewrite define_cout.
Qed.

(** X9: nothing that was written to the output is taken back or changed:
    whatever a statement, an expression, a call or a whole program does,
    and whether it completes or fails, the output before it is a prefix of
    the output after it. A print statement whose expression evaluates to a
    value appends that one value and changes nothing else in the state the
    expression left. *)
Theorem output_is_only_appended_to fuel st :
  (forall s, cout st `prefix_of` cout (accept_stmt fuel s st).1) /\
  (forall e, cout st `prefix_of` cout (accept_expr fuel e st).1) /\
  (forall callable arguments,
     cout st `prefix_of` cout (call_at fuel callable arguments st).1) /\
  (forall statements,
     cout st `prefix_of` cout (interpret fuel statements st).1) /\
  (forall expr st1 v,
     evaluate fuel expr st = (st1, Ok v) ->
     accept_stmt (S fuel) (Print_stmt expr) st
       = (set_cout (cout st1 ++ [v]) st1, Ok tt)).
Proof.
  destruct (keeps_accept output_grows fuel) as [He Hs].
  split; [intros; apply Hs |]. split; [intros; apply He |].
  split; [intros; now apply (keeps_call output_grows) |].
  split; [intros; apply (keeps_interpret output_grows) |].
  intros expr st1 v Hv. rewrite accept_stmt_S. unfold visit_stmt, visit_Print_stmt.
  now rewrite (bind_Ok _ _ _ _ _ Hv).
Qed.

Lemma output_witness :
  let st1 := set_result_ (number 1) fresh_interpreter in
  evaluate 1 (num 1) fresh_interpreter = (st1, Ok (number 1)) /\
  accept_stmt 2 (Print_stmt (num 1)) fresh_interpreter
    = (set_cout (cout st1 ++ [number 1]) st1, Ok tt).
Proof.
  split; [reflexivity |].
  destruct (output_is_only_appended_to 1 fresh_interpreter)
    as (_ & _ & _ & _ & Hprint).
  apply (Hprint (num 1) _ (number 1) eq_refl).
Defined.

(** ** What a frame keeps *)

Lemma store_grows_same st st' :
  environments st' = environments st ->
  callables st' = callables st ->
  store_grows st st'.
Proof.
  intros Hheap Hcallables. unfold store_grows.
  rewrite Hheap, Hcallables. repeat split; eauto.
Qed.

#[local] Instance store_grows_preorder : PreOrder store_grows.
Proof.
  split.
  - intros st. by apply store_grows_same.
  - intros st1 st2 st3 (Hp12 & Hn12 & Hc12) (Hp23 & Hn23 & Hc23).
    split; [by etrans |]. split; [| by etrans].
    intros env names Hnames.
    destruct (Hn12 env names Hnames) as (names2 & Hnames2 & Hpre2).
    destruct (Hn23 env names2 Hnames2) as (names3 & Hnames3 & Hpre3).
    exists names3. split; [done | by etrans].
Qed.

#[local] Instance store_grows_accumulating : Accumulating store_grows.
Proof.
  split; intros; try (by apply store_grows_same).
  - (* an assignment *)
    unfold store_grows. simpl.
    rewrite parents_write_at, write_at_bound_names. repeat split; eauto.
  - (* a definition *)
    unfold store_grows.
    rewrite parents_define, define_callables, define_bound_names.
    repeat split; try done.
    intros env names Hnames.
    destruct (bound_names (environments st) !! environment_ st)
      as [active |] eqn:Hactive; [| eauto].
    destruct (decide (env = environment_ st)) as [-> | Hother].
    + rewrite list_lookup_insert_eq by by eapply lookup_lt_Some.
      assert (active = names) as -> by congruence.
      eexists. split; [done |].
      destruct (decide _); [done | by apply prefix_app_r].
    + rewrite list_lookup_insert_ne by done. eauto.
  - (* one more function *)
    unfold store_grows. simpl. repeat split; eauto. by apply prefix_app_r.
  - (* one more frame *)
    unfold store_grows, parents, bound_names. simpl. rewrite !fmap_app.
    repeat split; try done; [by apply prefix_app_r |].
    intros env names Hnames. exists names. split; [| done].
    by apply lookup_app_l_Some.
Qed.

Lemma store_grows_frame_kept st st' env frame :
  store_grows st st' ->
  environments st !! env = Some frame ->
  frame_kept env frame st'.
Proof.
  intros (Hparents & Hnames & _) Hframe frame' Hframe'.
  destruct (Hnames env ((values_ frame).*1)) as (names' & Hnames' & Hpre).
  { unfold bound_names. now rewrite list_lookup_fmap, Hframe. }
  unfold bound_names in Hnames'. rewrite list_lookup_fmap, Hframe' in Hnames'.
  injection Hnames' as <-. split; [| done].
  assert (Hparent : parents (environments st) !! env = Some (enclosed_ frame)).
  { unfold parents. now rewrite list_lookup_fmap, Hframe. }
  eapply prefix_lookup_Some in Hparent; [| exact Hparents].
  unfold parents in Hparent. rewrite list_lookup_fmap, Hframe' in Hparent.
  now injection Hparent.
Qed.

(** X10: a frame is never given another enclosing frame and never loses
    a name. Whatever a statement, an expression, a call or a program does,
    completed or failed, a frame that is still there afterwards has the
    enclosing frame it had, and the names it bound are still bound, at the
    same positions, in front of the names bound since: [find_own_or_make]
    only appends, an assignment only replaces a value, and no variable is
    ever undeclared. *)
Theorem a_frame_keeps_its_enclosing_frame_and_its_names fuel st env frame :
  environments st !! env = Some frame ->
  (forall s, frame_kept env frame (accept_stmt fuel s st).1) /\
  (forall e, frame_kept env frame (accept_expr fuel e st).1) /\
  (forall callable arguments,
     frame_kept env frame (call_at fuel callable arguments st).1) /\
  (forall statements, frame_kept env frame (interpret fuel statements st).1).
Proof.
  intros Hframe. destruct (keeps_accept store_grows fuel) as [He Hs].
  split; [intros s; eapply store_grows_frame_kept; [apply Hs | done] |].
  split; [intros e; eapply store_grows_frame_kept; [apply He | done] |].
  split.
  - intros callable arguments.
    eapply store_grows_frame_kept; [| done]. by apply (keeps_call store_grows).
  - intros statements.
    eapply store_grows_frame_kept; [| done].
    apply (keeps_interpret store_grows).
Qed.

Lemma frame_witness :
  let frame := mkEnvironment [("clock", Lit_callable 0)] None in
  let frame' :=
    mkEnvironment [("clock", Lit_callable 0); ("a", number 1)] None in
  let st' := (interpret 5 shadowing fresh_interpreter).1 in
  environments fresh_interpreter !! 0 = Some frame /\
  environments st' !! 0 = Some frame' /\
  enclosed_ frame' = enclosed_ frame /\
  (values_ frame).*1 `prefix_of` (values_ frame').*1.
Proof.
  split; [reflexivity |]. split; [reflexivity |].
  destruct (a_frame_keeps_its_enclosing_frame_and_its_names 5 fresh_interpreter 0
              (mkEnvironment [("clock", Lit_callable 0)] None) eq_refl)
    as (_ & _ & _ & Hrun).
  exact (Hrun shadowing
           (mkEnvironment [("clock", Lit_callable 0); ("a", number 1)] None)
           eq_refl).
Defined.

(** ** No frame binds a name twice *)

#[local] Instance stays_distinct_preorder : PreOrder stays_distinct.
Proof.
  split; [intros st Hst; exact Hst |].
  intros st1 st2 st3 H12 H23 Hst. apply H23, H12, Hst.
Qed.

#[local] Instance stays_distinct_accumulating : Accumulating stays_distinct.
Proof.
  split; unfold stays_distinct, names_distinct; intros; simpl; try done.
  - by rewrite write_at_bound_names.
  - rewrite define_bound_names.
    destruct (bound_names (environments st) !! environment_ st)
      as [names |] eqn:Hnames; [| done].
    apply Forall_insert; [done |].
    assert (Hdistinct : NoDup names) by by eapply Forall_lookup_1.
    destruct (decide _) as [| Hnew]; [done |].
    apply NoDup_app. split; [done |]. split; [| apply NoDup_singleton].
    intros x Hx Hin. apply list_elem_of_singleton in Hin. by subst x.
  - unfold bound_names. rewrite fmap_app. apply Forall_app. split; [done |].
    simpl. apply Forall_singleton, NoDup_nil_2.
Qed.

(** X11: the vector of a frame never holds two pairs with the same name
    (it is "conceptually an unordered map"): if no frame of the store binds
    a name twice, the same holds after any statement, expression, call or
    program, completed or failed; and it holds of the interpreter as
    constructed, so of every state a program reaches. *)
Theorem no_frame_binds_a_name_twice fuel st :
  names_distinct st ->
  (forall s, names_distinct (accept_stmt fuel s st).1) /\
  (forall e, names_distinct (accept_expr fuel e st).1) /\
  (forall callable arguments,
     names_distinct (call_at fuel callable arguments st).1) /\
  (forall statements, names_distinct (interpret fuel statements st).1) /\
  (forall now_, names_distinct (Interpreter_new now_)).
Proof.
  intros Hst. destruct (keeps_accept stays_distinct fuel) as [He Hs].
  split; [intros; now apply Hs |]. split; [intros; now apply He |].
  split; [intros; now apply (keeps_call stays_distinct) |].
  split; [intros; now apply (keeps_interpret stays_distinct) |].
  intros now_. apply Forall_singleton, NoDup_singleton.
Qed.

Lemma distinct_witness :
  names_distinct fresh_interpreter /\
  names_distinct (interpret 12 closures_in_loop fresh_interpreter).1.
Proof.
  assert (Hfresh : names_distinct fresh_interpreter)
    by apply Forall_singleton, NoDup_singleton.
  split; [exact Hfresh |].
  destruct (no_frame_binds_a_name_twice 12 fresh_interpreter Hfresh)
    as (_ & _ & _ & Hrun & _).
  exact (Hrun closures_in_loop).
Defined.

(** ** What a name resolves to *)

(** A lookup from a frame of a well-formed store reads the names and the
    enclosing frames of that frame and of older ones only. *)
Lemma find_in_chain_from_frames heap heap' var_name :
  heap_wf heap ->
  (forall other, other < length heap ->
     bound_names heap' !! other = bound_names heap !! other /\
     parents heap' !! other = parents heap !! other) ->
  forall depth env,
    env < length heap ->
    find_in_chain_from heap' depth env var_name
    = find_in_chain_from heap depth env var_name.
Proof.
  intros Hwf Hsame. induction depth as [| depth IH]; intros env Henv; [done |].
  simpl. destruct (Hsame env Henv) as [Hnames Hparents].
  unfold bound_names in Hnames. unfold parents in Hparents.
  rewrite !list_lookup_fmap in Hnames. rewrite !list_lookup_fmap in Hparents.
  destruct (lookup_lt_is_Some_2 heap env Henv) as [frame Hframe].
  rewrite Hframe in Hnames, Hparents |- *.
  destruct (heap' !! env) as [frame' |]; [| done].
  injection Hnames as Hnames. injection Hparents as Hparents.
  rewrite !find_own_names, Hnames, Hparents.
  destruct (list_find _ _) as [[i n] |]; [done |]. simpl.
  destruct (enclosed_ frame) as [parent |] eqn:Hparent; [| done].
  specialize (Hwf env frame parent Hframe Hparent). apply IH. lia.
Qed.

Lemma resolution_kept st st' :
  state_wf st ->
  grows_settled st st' ->
  store_grows st st' ->
  environment_ st' = environment_ st /\
  forall env var_name,
    env < length (environments st) ->
    find_in_chain (environments st') env var_name
    = find_in_chain (environments st) env var_name.
Proof.
  intros Hwf Hsettled (Hparents & _).
  destruct (Hsettled Hwf) as (_ & Henv & _ & _ & Hnames).
  split; [done |]. intros env var_name Hlt.
  apply find_in_chain_from_frames; [apply Hwf | | done].
  intros other Hother. split; [by apply Hnames |].
  destruct (lookup_lt_is_Some_2 (parents (environments st)) other)
    as [parent Hparent]; [by rewrite parents_length |].
  rewrite Hparent. by eapply prefix_lookup_Some.
Qed.

(** X12: the evaluation of an expression (calls included), the execution
    of a block statement and a call of a function of the store, started in
    a well-formed state and completed or failed, leave the active
    environment as it was and change what no name resolves to: from every
    frame that existed, every name is found in the same frame at the same
    position as before, or is unbound as before. No declaration made
    inside a block or a function body is visible outside, and the iterator
    that an assignment holds while its right-hand side is evaluated stays
    valid. *)
Theorem expressions_blocks_and_calls_rebind_no_name fuel st :
  state_wf st ->
  (forall e,
     environment_ (accept_expr fuel e st).1 = environment_ st /\
     forall env var_name,
       env < length (environments st) ->
       find_in_chain (environments (accept_expr fuel e st).1) env var_name
       = find_in_chain (environments st) env var_name) /\
  (forall statements,
     environment_ (accept_stmt fuel (Block_stmt statements) st).1
       = environment_ st /\
     forall env var_name,
       env < length (environments st) ->
       find_in_chain
         (environments (accept_stmt fuel (Block_stmt statements) st).1)
         env var_name
       = find_in_chain (environments st) env var_name) /\
  (forall p callable arguments,
     callables st !! p = Some callable ->
     environment_ (call_at fuel callable arguments st).1 = environment_ st /\
     forall env var_name,
       env < length (environments st) ->
       find_in_chain (environments (call_at fuel callable arguments st).1)
         env var_name
       = find_in_chain (environments st) env var_name).
Proof.
  intros Hwf. destruct (keeps_accept store_grows fuel) as [Hstore_e Hstore_s].
  destruct (accept_grows fuel) as [Hgrows_e Hgrows_s].
  split; [| split].
  - intros e. apply resolution_kept; [done | apply Hgrows_e | apply Hstore_e].
  - intros statements.
    apply resolution_kept; [done | | apply Hstore_s].
    destruct fuel as [| fuel]; [reflexivity |].
    rewrite accept_stmt_S. simpl.
    apply visit_Block_stmt_grows, accept_grows.
  - intros p callable arguments Hp.
    apply resolution_kept; [done | | by apply (keeps_call store_grows)].
    apply call_grows; [apply Hgrows_s |].
    intros name parameters body enclosed ->.
    destruct Hwf as (_ & _ & Hclosures). eauto.
Qed.

Lemma rebind_witness :
  let st := (interpret 2 [Var_stmt (ident "a") (Some (num 1))] fresh_interpreter).1 in
  let block := Block_stmt [Var_stmt (ident "a") (Some (num 2));
                           Var_stmt (ident "b") None] in
  state_wf st /\
  0 < length (environments st) /\
  find_in_chain (environments (accept_stmt 3 block st).1) 0 "b"
  = find_in_chain (environments st) 0 "b".
Proof.
  assert (Hwf : state_wf
            (interpret 2 [Var_stmt (ident "a") (Some (num 1))] fresh_interpreter).1)
    by apply interpret_wf, Interpreter_new_wf.
  split; [exact Hwf |]. split; [simpl; lia |].
  destruct (expressions_blocks_and_calls_rebind_no_name 3 _ Hwf)
    as (_ & Hblock & _).
  destruct (Hblock [Var_stmt (ident "a") (Some (num 2)); Var_stmt (ident "b") None])
    as [_ Hsame].
  apply Hsame. simpl. lia.
Defined.

(** ** Assignment and reading back *)

Lemma find_in_chain_from_write_at loc v heap var_name :
  forall depth env,
    find_in_chain_from (write_at loc v heap) depth env var_name
    = find_in_chain_from heap depth env var_name.
Proof.
  induction depth as [| depth IH]; intros env; [done |]. simpl.
  unfold write_at at 1.
  destruct (decide (loc.1 = env)) as [<- | Hother].
  - rewrite list_lookup_alter_eq.
    destruct (heap !! loc.1) as [frame |]; [| done]. simpl.
    rewrite find_own_alter by done.
    destruct (find_own var_name (values_ frame)); [done |].
    destruct (enclosed_ frame); [apply IH | done].
  - rewrite list_lookup_alter_ne by done.
    destruct (heap !! env) as [frame |]; [| done].
    destruct (find_own var_name (values_ frame)); [done |].
    destruct (enclosed_ frame); [apply IH | done].
Qed.

Lemma read_at_write_at heap loc v :
  is_Some (read_at heap loc) -> read_at (write_at loc v heap) loc = Some v.
Proof.
  unfold read_at, write_at. intros [w Hw].
  rewrite list_lookup_alter_eq.
  destruct (heap !! loc.1) as [frame |]; [| done]. simpl in *.
  rewrite list_lookup_alter_eq.
  destruct (values_ frame !! loc.2); done.
Qed.

(** X13: an assignment that completes in a well-formed state has
    evaluated its right-hand side to a value, and that value is the value
    of the assignment expression (the result register holds it) and the
    value of the binding that the name resolves to afterwards, whatever the
    right-hand side did. So the visit of the variable right afterwards
    finds that value, and leaves the state as it is. *)
Theorem assigned_value_is_the_result_and_is_read_back
    fuel name value st st' :
  state_wf st ->
  accept_expr (S fuel) (Assign_expr name value) st = (st', Ok tt) ->
  exists st1 found,
    evaluate fuel value st = (st1, Ok (result_ st')) /\
    find_in_chain (environments st') (environment_ st') (lexeme name)
      = Some found /\
    read_at (environments st') found = Some (result_ st') /\
    forall fuel' name',
      lexeme name' = lexeme name ->
      accept_expr (S fuel') (Var_expr name') st' = (st', Ok tt).
Proof.
  intros Hwf Hrun. rewrite accept_expr_S in Hrun.
  unfold visit_expr, visit_Assign_expr in Hrun.
  unfold gets at 1 in Hrun. unfold bind at 1 in Hrun.
  destruct (find_in_chain (environments st) (environment_ st) (lexeme name))
    as [found |] eqn:Hfound; [| done].
  unfold bind at 1 in Hrun.
  destruct (accept_grows fuel) as [Hgrows _].
  destruct (keeps_accept store_grows fuel) as [Hstore _].
  pose proof (keeps_apply_visitor store_grows _ Hstore value st) as Hstore1.
  pose proof (apply_visitor_grows _ Hgrows value st) as Hgrows1.
  destruct (apply_visitor (accept_expr fuel) value st) as [st1 [v | | |]] eqn:Hv;
    try done.
  injection Hrun as <-. exists st1, found. split; [done |].
  simpl in Hstore1, Hgrows1.
  destruct (resolution_kept st st1 Hwf Hgrows1 Hstore1) as [Henv Hkept].
  assert (Hfound1 : find_in_chain (environments st1) (environment_ st1)
                      (lexeme name) = Some found).
  { rewrite Henv, Hkept; [done | apply Hwf]. }
  assert (Hfound' :
    find_in_chain (write_at found v (environments st1)) (environment_ st1)
      (lexeme name) = Some found).
  { unfold find_in_chain in Hfound1 |- *.
    by rewrite find_in_chain_from_write_at. }
  assert (Hread : read_at (write_at found v (environments st1)) found = Some v).
  { apply read_at_write_at. by eapply find_in_chain_readable. }
  split; [exact Hfound' |]. split; [exact Hread |].
  intros fuel' name' Hname. rewrite accept_expr_S.
  unfold visit_expr, visit_Var_expr.
  cbn [environments environment_ set_result_ set_environments result_].
  now rewrite Hname, Hfound', Hread.
Qed.

Lemma assigned_witness :
  let st := (interpret 2 [Var_stmt (ident "a") (Some (num 1))] fresh_interpreter).1 in
  let assignment := Assign_expr (ident "a") (num 2) in
  let st' := (accept_expr 2 assignment st).1 in
  state_wf st /\
  accept_expr 2 assignment st = (st', Ok tt) /\
  result_ st' = number 2 /\
  accept_expr 1 (var "a") st' = (st', Ok tt).
Proof.
  assert (Hwf : state_wf
            (interpret 2 [Var_stmt (ident "a") (Some (num 1))] fresh_interpreter).1)
    by apply interpret_wf, Interpreter_new_wf.
  split; [exact Hwf |]. split; [reflexivity |]. split; [reflexivity |].
  destruct (assigned_value_is_the_result_and_is_read_back 1 (ident "a") (num 2)
              _ _ Hwf eq_refl) as (st1 & found & _ & _ & _ & Hread).
  exact (Hread 0 (ident "a") eq_refl).
Defined.

(** ** No dangling pointer, no index out of range *)

Lemma value_ok_mono n n' v : n <= n' -> value_ok n v -> value_ok n' v.
Proof. destruct v; simpl; try done. lia. Qed.

Lemma store_safe_environment_ env st :
  store_safe st -> env < length (environments st) ->
  store_safe (set_environment_ env st).
Proof.
  intros ((Hheap & Hactive & Hclosures) & Hrest) Henv.
  split; [split; [done | split; done] | exact Hrest].
Qed.

Lemma store_safe_write found v st :
  store_safe st -> value_ok (length (callables st)) v ->
  store_safe (set_environments (write_at found v (environments st)) st).
Proof.
  intros (Hwf & Hvalues & Hbodies) Hv.
  split; [| split; [| done]].
  - revert Hwf. apply state_wf_same; [apply parents_write_at | done | done].
  - simpl. intros env frame Hframe. unfold write_at in Hframe.
    destruct (decide (found.1 = env)) as [<- | Hother].
    + rewrite list_lookup_alter_eq in Hframe.
      destruct (environments st !! found.1) as [old |] eqn:Hold; [| done].
      injection Hframe as <-. simpl.
      apply Forall_alter; [by eapply Hvalues | done].
    + rewrite list_lookup_alter_ne in Hframe by done. eauto.
Qed.

Lemma declare_ok n values var_name v :
  Forall (fun value : string * Literal => value_ok n value.2) values ->
  value_ok n v ->
  Forall (fun value : string * Literal => value_ok n value.2)
         (declare values (var_name, v)).
Proof.
  intros Hvalues Hv. unfold declare, find_own_or_make. cbn [fst snd values_].
  destruct (find_own var_name values); simpl.
  - apply Forall_alter; [done | done].
  - apply Forall_alter; [| done]. apply Forall_app. split; [done |].
    by apply Forall_singleton.
Qed.

Lemma store_safe_define var_name v st :
  store_safe st -> value_ok (length (callables st)) v ->
  (define var_name v st).2 = Ok tt /\
  store_safe (define var_name v st).1 /\
  length (environments (define var_name v st).1) = length (environments st) /\
  callables (define var_name v st).1 = callables st.
Proof.
  intros (Hwf & Hvalues & Hbodies) Hv.
  destruct (declaring_define (P := grows) var_name v st Hwf) as [Hwf' _].
  destruct (lookup_lt_is_Some_2 (environments st) (environment_ st))
    as [[values parent] Hframe]; [apply Hwf |].
  rewrite (define_declare _ _ _ _ _ Hframe) in Hwf' |- *. simpl.
  split; [done |]. split; [| split; [apply length_insert | done]].
  split; [exact Hwf' |]. split; [| done]. simpl.
  intros env frame Henv.
  destruct (decide (env = environment_ st)) as [-> | Hother].
  - rewrite list_lookup_insert_eq in Henv by by eapply lookup_lt_Some.
    injection Henv as <-. simpl. apply declare_ok; [| done].
    apply (Hvalues _ _ Hframe).
  - rewrite list_lookup_insert_ne in Henv by done. eauto.
Qed.

Lemma store_safe_closure name parameters body st :
  store_safe st -> forallb parsed_stmt body = true ->
  store_safe (set_callables
                (callables st ++ [Function name parameters body (environment_ st)])
                st).
Proof.
  intros (Hwf & Hvalues & Hbodies) Hbody.
  split; [by apply (declaring_closure (P := grows)) |].
  simpl. rewrite length_app. simpl. split.
  - intros env frame Hframe. eapply Forall_impl; [by eapply Hvalues |].
    intros value. simpl. apply value_ok_mono. lia.
  - intros p n ps b enc Hp.
    apply lookup_app_Some in Hp as [Hp | [_ Hp]]; [eauto |].
    apply list_lookup_singleton_Some in Hp as [_ [= _ _ <- _]]. done.
Qed.

Lemma store_safe_entered enclosed st :
  store_safe st -> enclosed < length (environments st) ->
  store_safe (entered (mkEnvironment [] (Some enclosed)) st).
Proof.
  intros (Hwf & Hvalues & Hbodies) Hlt.
  split; [apply entered_wf; [done | by intros parent [= <-]] |].
  split; [| done].
  simpl. intros env frame Hframe.
  apply lookup_app_Some in Hframe as [Hframe | [_ Hframe]]; [eauto |].
  apply list_lookup_singleton_Some in Hframe as [_ <-]. constructor.
Qed.

Lemma Interpreter_new_safe now_ : store_safe (Interpreter_new now_).
Proof.
  split; [apply Interpreter_new_wf |]. split.
  - intros [| env] frame Hframe; [| done]. injection Hframe as <-.
    apply Forall_singleton. simpl. lia.
  - intros [| p] name parameters body enclosed Hp; done.
Qed.

Lemma outcome_safe_ret {A} (ok : Interpreter -> A -> Prop) a st :
  store_safe st -> ok st a -> outcome_safe ok st (ret a st).
Proof. intros Hst Ha. split; [done |]. split; [done |]. split; done. Qed.

Lemma outcome_safe_throw {A} (ok : Interpreter -> A -> Prop) what st :
  store_safe st -> outcome_safe ok st (throw (Interpreter_error what) st).
Proof. intros Hst. split; [done |]. split; [done |]. split; done. Qed.

Lemma outcome_safe_modify (ok : Interpreter -> unit -> Prop) f st :
  store_safe (f st) ->
  length (environments st) <= length (environments (f st)) ->
  length (callables st) <= length (callables (f st)) ->
  ok (f st) tt ->
  outcome_safe ok st (modify f st).
Proof. intros Hst Hle Hlc Hok. split; [done |]. split; [done |]. split; done. Qed.

Lemma outcome_safe_from {A} (ok : Interpreter -> A -> Prop) st st1 outcome :
  outcome_safe ok st1 outcome ->
  length (environments st) <= length (environments st1) ->
  length (callables st) <= length (callables st1) ->
  outcome_safe ok st outcome.
Proof.
  intros (Hsafe & Hle & Hlc & Hr) Hle1 Hlc1.
  split; [done |]. split; [lia |]. split; [lia | done].
Qed.

Lemma outcome_safe_weaken {A} (ok ok' : Interpreter -> A -> Prop) st outcome :
  (forall st' a, ok st' a -> ok' st' a) ->
  outcome_safe ok st outcome -> outcome_safe ok' st outcome.
Proof.
  intros Hok (Hsafe & Hle & Hlc & Hr).
  split; [done |]. split; [done |]. split; [done |].
  destruct outcome as [st' [a | [what |] | |]]; simpl in *; auto.
Qed.

Lemma outcome_safe_bind {A B} (okA : Interpreter -> A -> Prop)
    (okB : Interpreter -> B -> Prop) (m : M A) (k : A -> M B) st :
  outcome_safe okA st (m st) ->
  (forall a st1,
     store_safe st1 ->
     length (environments st) <= length (environments st1) ->
     length (callables st) <= length (callables st1) ->
     okA st1 a ->
     outcome_safe okB st1 (k a st1)) ->
  outcome_safe okB st (bind m k st).
Proof.
  intros (Hsafe & Hle & Hlc & Hr) Hk. unfold bind.
  destruct (m st) as [st1 [a | [what |] | |]]; simpl in *; try done.
  eapply outcome_safe_from; [by apply Hk | done | done].
Qed.

Lemma outcome_safe_define var_name v st :
  store_safe st -> returning_ st = false ->
  value_ok (length (callables st)) v ->
  outcome_safe flag_clear st (define var_name v st).
Proof.
  intros Hst Hflag Hv.
  destruct (store_safe_define var_name v st Hst Hv) as (Hr & Hsafe & Hle & Hlc).
  split; [done |]. split; [lia |]. split; [by rewrite Hlc |]. rewrite Hr.
  unfold flag_clear. by rewrite define_returning_.
Qed.

(** A scope: the frame is entered, [m] runs in it, and the active
    environment is restored. *)
Lemma outcome_safe_scope {A} (ok : Interpreter -> A -> Prop) (m : M A)
    enclosed st :
  (forall st' a env, ok st' a -> ok (set_environment_ env st') a) ->
  store_safe st ->
  enclosed < length (environments st) ->
  (store_safe (entered (mkEnvironment [] (Some enclosed)) st) ->
   outcome_safe ok (entered (mkEnvironment [] (Some enclosed)) st)
                (m (entered (mkEnvironment [] (Some enclosed)) st))) ->
  outcome_safe ok st
    (finally (set_environment_ (environment_ st)) (enter enclosed ;; m) st).
Proof.
  intros Hok Hst Hlt Hm. unfold finally.
  rewrite (bind_Ok _ _ _ _ _ (enter_entered enclosed st)).
  destruct (Hm (store_safe_entered _ _ Hst Hlt)) as (Hsafe & Hle & Hlc & Hr).
  destruct (m _) as [st' r]. simpl in *. rewrite length_app in Hle. simpl in Hle.
  unfold outcome_safe. simpl. split; [| split; [lia | split; [done |]]].
  - apply store_safe_environment_; [done |].
    destruct Hst as ((_ & Hactive & _) & _). lia.
  - destruct r as [a | [what |] | |]; auto.
Qed.

Lemma bind_parameters_safe parameters arguments :
  forall i st,
    store_safe st ->
    returning_ st = false ->
    i + length parameters <= length arguments ->
    Forall (value_ok (length (callables st))) arguments ->
    outcome_safe flag_clear st (bind_parameters parameters i arguments st).
Proof.
  induction parameters as [| parameter rest IH];
    intros i st Hst Hflag Hlen Hok; simpl.
  - by apply outcome_safe_ret.
  - simpl in Hlen.
    destruct (lookup_lt_is_Some_2 arguments i) as [argument Hargument]; [lia |].
    rewrite Hargument.
    apply (outcome_safe_bind flag_clear).
    + apply outcome_safe_define; [done | done |]. by eapply Forall_lookup_1.
    + intros [] st1 Hst1 _ Hlc Hflag1. apply IH; [done | done | lia |].
      eapply Forall_impl; [exact Hok |]. intros v. by apply value_ok_mono.
Qed.

Section Safe.
Variable accept_expr_ : Expr -> M unit.
Variable accept_stmt_ : Stmt -> M unit.
Hypothesis accept_expr_safe :
  forall e, parsed_expr e = true -> safe register_fresh (accept_expr_ e).
Hypothesis accept_stmt_safe :
  forall s, parsed_stmt s = true -> safe returned_fresh (accept_stmt_ s).

Lemma apply_visitor_safe e :
  parsed_expr e = true -> safe value_fresh (apply_visitor accept_expr_ e).
Proof.
  intros He st Hst Hflag. unfold apply_visitor.
  apply (outcome_safe_bind register_fresh); [by apply accept_expr_safe |].
  intros [] st1 Hst1 _ _ Hfresh. by apply (outcome_safe_ret value_fresh).
Qed.

Lemma transform_safe arguments :
  forallb parsed_expr arguments = true ->
  safe (arguments_fresh arguments) (transform accept_expr_ arguments).
Proof.
  induction arguments as [| argument rest IH]; intros Hparsed st Hst Hflag; simpl.
  - apply outcome_safe_ret; [done |]. split; [done |]. split; [done | constructor].
  - simpl in Hparsed. apply andb_prop in Hparsed as [Hargument Hrest].
    apply (outcome_safe_bind value_fresh); [by apply apply_visitor_safe |].
    intros v st1 Hst1 _ _ [Hflag1 Hv].
    apply (outcome_safe_bind (arguments_fresh rest)); [by apply IH |].
    intros vs st2 Hst2 _ Hlc (Hflag2 & Hlen & Hvs).
    apply outcome_safe_ret; [done |]. split; [done |].
    split; [simpl; congruence |].
    constructor; [| done]. by eapply value_ok_mono.
Qed.

Lemma run_block_safe statements :
  forallb parsed_stmt statements = true ->
  safe returned_fresh (run_block accept_stmt_ statements).
Proof.
  induction statements as [| statement rest IH];
    intros Hparsed st Hst Hflag; simpl.
  - apply outcome_safe_ret; [done |]. intros Hset. congruence.
  - simpl in Hparsed. apply andb_prop in Hparsed as [Hstatement Hrest].
    apply (outcome_safe_bind returned_fresh); [by apply accept_stmt_safe |].
    intros [] st1 Hst1 _ _ Hfresh. rewrite bind_gets.
    destruct (returning_ st1) eqn:Hflag1; [by apply outcome_safe_ret | by apply IH].
Qed.

(** The body of a function: the value yielded is [nil], or the register
    that a return statement has just set. *)
Lemma run_body_safe body :
  forallb parsed_stmt body = true ->
  safe value_fresh (run_body accept_stmt_ body).
Proof.
  induction body as [| statement rest IH]; intros Hparsed st Hst Hflag; simpl.
  - by apply outcome_safe_ret.
  - simpl in Hparsed. apply andb_prop in Hparsed as [Hstatement Hrest].
    apply (outcome_safe_bind returned_fresh); [by apply accept_stmt_safe |].
    intros [] st1 Hst1 _ _ Hfresh. rewrite bind_gets.
    destruct (returning_ st1) eqn:Hflag1; [| by apply IH].
    apply (outcome_safe_ret value_fresh (result_ st1) (set_returning_ false st1));
      [done |]. split; [done | by apply Hfresh].
Qed.

Lemma call_safe callable arguments st :
  store_safe st ->
  returning_ st = false ->
  callable_ok st callable arguments ->
  Forall (value_ok (length (callables st))) arguments ->
  outcome_safe value_fresh st (call accept_stmt_ callable arguments st).
Proof.
  intros Hst Hflag Hcallable Harguments.
  destruct callable as [| name parameters body enclosed]; simpl.
  - rewrite bind_gets. by apply outcome_safe_ret.
  - destruct Hcallable as (Hclosure & Hbody & Hlen).
    apply outcome_safe_scope; [by intros st' a env | done | done |].
    intros Hentered.
    apply (outcome_safe_bind flag_clear).
    + apply bind_parameters_safe; [done | done | lia | done].
    + intros [] st1 Hst1 _ _ Hflag1. by apply run_body_safe.
Qed.

Lemma visit_Call_expr_safe callee closing_paren arguments :
  parsed_expr callee = true ->
  forallb parsed_expr arguments = true ->
  safe register_fresh
       (visit_Call_expr accept_expr_ accept_stmt_ callee closing_paren arguments).
Proof.
  intros Hcallee Harguments st Hst Hflag. unfold visit_Call_expr.
  apply (outcome_safe_bind value_fresh); [by apply apply_visitor_safe |].
  intros v st1 Hst1 _ _ [Hflag1 Hv].
  destruct v as [| | | | p]; try by apply outcome_safe_throw.
  simpl in Hv. rewrite bind_gets.
  destruct (lookup_lt_is_Some_2 (callables st1) p Hv) as [callable Hp].
  rewrite Hp.
  destruct (bool_decide (length arguments ≠ arity callable)) eqn:Harity;
    [by apply outcome_safe_throw |].
  apply bool_decide_eq_false in Harity.
  assert (Hlen : length arguments = arity callable)
    by (destruct (decide (length arguments = arity callable)); done).
  apply (outcome_safe_bind (arguments_fresh arguments));
    [by apply transform_safe |].
  intros vs st2 Hst2 Hle2 _ (Hflag2 & Hvs & Hok).
  apply (outcome_safe_bind value_fresh).
  - apply call_safe; [done | done | | done].
    destruct callable as [| name parameters body enclosed]; [done |].
    destruct Hst1 as ((_ & _ & Hclosures) & _ & Hbodies).
    split; [specialize (Hclosures _ _ _ _ _ Hp); lia |].
    split; [eauto |]. simpl in Hlen. congruence.
  - intros r st3 Hst3 _ _ [Hflag3 Hr].
    by apply outcome_safe_modify.
Qed.

(** The register is set to a value whose pointer is in the store. *)
Ltac safe_result :=
  apply outcome_safe_modify; [done | done | done | by split].

Lemma visit_expr_safe e :
  parsed_expr e = true ->
  safe register_fresh (visit_expr accept_expr_ accept_stmt_ e).
Proof.
  intros Hparsed st Hst Hflag.
  destruct e as [value | expr | op right_ | left_ op right_ | name
                | name value | left_ op right_ | callee closing_paren arguments];
    simpl in Hparsed |- *.
  - destruct value; try done; safe_result.
  - by apply accept_expr_safe.
  - unfold visit_Unary_expr.
    apply (outcome_safe_bind value_fresh); [by apply apply_visitor_safe |].
    intros v st1 Hst1 _ _ [Hflag1 Hv].
    destruct (type op); try by apply outcome_safe_throw.
    + destruct (get_double v); [safe_result | by apply outcome_safe_throw].
    + safe_result.
  - apply andb_prop in Hparsed as [Hleft Hright]. unfold visit_Binary_expr.
    apply (outcome_safe_bind value_fresh); [by apply apply_visitor_safe |].
    intros l st1 Hst1 _ _ [Hflag1 Hl].
    apply (outcome_safe_bind value_fresh); [by apply apply_visitor_safe |].
    intros r st2 Hst2 _ _ [Hflag2 Hr].
    destruct (type op); unfold numeric; try by apply outcome_safe_throw.
    all: try safe_result.
    all: destruct l, r; simpl; try by apply outcome_safe_throw.
    all: safe_result.
  - unfold visit_Var_expr.
    destruct (find_in_chain _ _ _) as [found |] eqn:Hfound;
      [| by apply outcome_safe_throw].
    destruct (find_in_chain_readable _ _ _ _ _ Hfound) as [v Hv].
    rewrite Hv.
    apply (outcome_safe_modify register_fresh (set_result_ v));
      [done | done | done |].
    split; [done |]. simpl.
    unfold read_at in Hv.
    destruct (environments st !! found.1) as [frame |] eqn:Hframe; [| done].
    simpl in Hv.
    destruct (values_ frame !! found.2) as [value |] eqn:Hvalue; [| done].
    injection Hv as <-.
    destruct Hst as (_ & Hvalues & _).
    apply (Forall_lookup_1 _ _ _ _ (Hvalues _ _ Hframe) Hvalue).
  - unfold visit_Assign_expr. rewrite bind_gets.
    destruct (find_in_chain _ _ _) as [found |];
      [| by apply outcome_safe_throw].
    apply (outcome_safe_bind value_fresh); [by apply apply_visitor_safe |].
    intros v st1 Hst1 _ _ [Hflag1 Hv].
    apply (outcome_safe_bind flag_clear).
    + apply outcome_safe_modify;
        [by apply store_safe_write
        | simpl; unfold write_at; by rewrite length_alter | done | done].
    + intros [] st2 Hst2 _ Hlc Hflag2.
      apply outcome_safe_modify; [done | done | done |].
      split; [done |]. simpl. by eapply value_ok_mono.
  - apply andb_prop in Hparsed as [Hleft Hright]. unfold visit_Logical_expr.
    apply (outcome_safe_bind value_fresh); [by apply apply_visitor_safe |].
    intros l st1 Hst1 _ _ [Hflag1 Hl].
    destruct (type op); try by apply outcome_safe_throw.
    + destruct (negb _); [safe_result | by apply accept_expr_safe].
    + destruct (Is_truthy_visitor l); [safe_result | by apply accept_expr_safe].
  - apply andb_prop in Hparsed as [Hcallee Harguments].
    by apply visit_Call_expr_safe.
Qed.

Lemma cleared_returned_fresh {A} st (a : A) :
  returning_ st = false -> returned_fresh st tt.
Proof. intros Hflag Hset. congruence. Qed.

Lemma visit_stmt_safe s :
  parsed_stmt s = true ->
  safe returned_fresh (visit_stmt accept_expr_ accept_stmt_ s).
Proof.
  intros Hparsed st Hst Hflag.
  destruct s as [expr | condition then_branch else_branch | condition body
                | expr | name initializer | statements | name parameters body
                | value]; simpl in Hparsed |- *.
  - apply (outcome_safe_weaken register_fresh); [| by apply accept_expr_safe].
    intros st' [] [Hflag' _] Hset. congruence.
  - apply andb_prop in Hparsed as [Hparsed Helse].
    apply andb_prop in Hparsed as [Hcondition Hthen].
    unfold visit_If_stmt.
    apply (outcome_safe_bind value_fresh); [by apply apply_visitor_safe |].
    intros c st1 Hst1 _ _ [Hflag1 _].
    destruct (Is_truthy_visitor c).
    + apply (outcome_safe_bind returned_fresh); [by apply accept_stmt_safe |].
      intros [] st2 Hst2 _ _ Hfresh. rewrite bind_gets.
      destruct (returning_ st2); by apply outcome_safe_ret.
    + destruct else_branch; [by apply accept_stmt_safe |].
      apply outcome_safe_ret; [done |]. by apply (cleared_returned_fresh st1 tt).
  - pose proof Hparsed as Hloop.
    apply andb_prop in Hparsed as [Hcondition Hbody].
    unfold visit_While_stmt.
    apply (outcome_safe_bind value_fresh); [by apply apply_visitor_safe |].
    intros c st1 Hst1 _ _ [Hflag1 _].
    destruct (Is_truthy_visitor c);
      [| apply outcome_safe_ret;
         [done | by apply (cleared_returned_fresh st1 tt)]].
    apply (outcome_safe_bind returned_fresh); [by apply accept_stmt_safe |].
    intros [] st2 Hst2 _ _ Hfresh. rewrite bind_gets.
    destruct (returning_ st2) eqn:Hflag2;
      [by apply outcome_safe_ret | by apply accept_stmt_safe].
  - unfold visit_Print_stmt.
    apply (outcome_safe_bind value_fresh); [by apply apply_visitor_safe |].
    intros v st1 Hst1 _ _ [Hflag1 _].
    apply outcome_safe_modify; [done | done | done |].
    by apply (cleared_returned_fresh _ tt).
  - unfold visit_Var_stmt.
    apply (outcome_safe_bind value_fresh).
    + destruct initializer;
        [by apply apply_visitor_safe | by apply outcome_safe_ret].
    + intros v st1 Hst1 _ _ [Hflag1 Hv].
      apply (outcome_safe_weaken flag_clear); [| by apply outcome_safe_define].
      intros st' [] Hclear. by apply (cleared_returned_fresh st' tt).
  - unfold visit_Block_stmt.
    apply outcome_safe_scope; [by intros st' a env | done | apply Hst |].
    intros Hentered. by apply run_block_safe.
  - unfold visit_Function_stmt. rewrite bind_gets.
    unfold make_shared_Callable, bind at 1.
    apply (outcome_safe_weaken flag_clear);
      [intros st' [] Hclear; by apply (cleared_returned_fresh st' tt) |].
    eapply outcome_safe_from; [apply outcome_safe_define | done |].
    + by apply store_safe_closure.
    + done.
    + simpl. rewrite length_app. simpl. lia.
    + simpl. rewrite length_app. lia.
  - unfold visit_Return_stmt.
    apply (outcome_safe_bind value_fresh).
    + destruct value;
        [by apply apply_visitor_safe | by apply outcome_safe_ret].
    + intros v st1 Hst1 _ _ [Hflag1 Hv].
      apply (outcome_safe_bind register_fresh); [safe_result |].
      intros [] st2 Hst2 _ _ [_ Hfresh].
      apply outcome_safe_modify; [done | done | done |]. by intros _.
Qed.
End Safe.

Lemma accept_safe fuel :
  (forall e, parsed_expr e = true -> safe register_fresh (accept_expr fuel e)) /\
  (forall s, parsed_stmt s = true -> safe returned_fresh (accept_stmt fuel s)).
Proof.
  induction fuel as [| fuel [IHe IHs]].
  - split; intros ? _ st Hst Hflag;
      (split; [done |]; split; [done |]; split; done).
  - split.
    + intros e He. rewrite accept_expr_S. by apply visit_expr_safe.
    + intros s Hs. rewrite accept_stmt_S. by apply visit_stmt_safe.
Qed.

Lemma interpret_safe fuel statements :
  forallb parsed_stmt statements = true ->
  forallb returns_nothing statements = true ->
  safe flag_clear (interpret fuel statements).
Proof.
  induction statements as [| s rest IH];
    intros Hparsed Hreturns st Hst Hflag; simpl.
  - by apply outcome_safe_ret.
  - simpl in Hparsed, Hreturns.
    apply andb_prop in Hparsed as [Hs Hrest].
    apply andb_prop in Hreturns as [Hreturns Hreturns_rest].
    pose proof (returns_nothing_stays_clear fuel s Hreturns st Hflag) as Hclear.
    destruct (accept_safe fuel) as [_ Hsafe].
    specialize (Hsafe s Hs st Hst Hflag).
    destruct Hsafe as (Hsafe & Hle & Hlc & Hr). unfold bind.
    destruct (accept_stmt fuel s st) as [st1 [[] | [what |] | |]];
      simpl in *; try done.
    eapply outcome_safe_from; [by apply IH | done | done].
Qed.

(** X14: a program as a parser builds it (no literal is a callable) and
    without a return at the top level, started with the is-returning flag
    clear in stores where no pointer dangles, whatever the result register
    holds, never reads [arguments.at(i)] out of range (the arity check
    guarantees the index) and never calls through or dereferences a pointer
    that is not in its store: the only exceptions it raises are the
    interpreter's own errors. The stores it leaves, completed or failed,
    are again such stores, and the flag is clear again. The interpreter as
    constructed is such a state. *)
Theorem parsed_program_raises_only_interpreter_errors fuel statements st :
  store_safe st ->
  returning_ st = false ->
  forallb parsed_stmt statements = true ->
  forallb returns_nothing statements = true ->
  raises_only_Interpreter_error (interpret fuel statements st).2 /\
  store_safe (interpret fuel statements st).1 /\
  returning_ (interpret fuel statements st).1 = false /\
  (forall now_,
     store_safe (Interpreter_new now_) /\
     returning_ (Interpreter_new now_) = false).
Proof.
  intros Hst Hflag Hparsed Hreturns.
  assert (Hraises : forall st0 outcome,
            outcome_safe (@flag_clear unit) st0 outcome ->
            raises_only_Interpreter_error outcome.2 /\ store_safe outcome.1).
  { intros st0 [st' r] (Hsafe & _ & _ & Hr). split; [| done].
    simpl in *. by destruct r as [a | [what |] | |]. }
  split; [by eapply Hraises, interpret_safe |].
  split; [by eapply Hraises, interpret_safe |]. split.
  - revert st Hst Hflag. clear Hraises.
    induction statements as [| s rest IH]; intros st Hst Hflag; [done |].
    simpl in Hparsed, Hreturns.
    apply andb_prop in Hparsed as [Hs Hrest].
    apply andb_prop in Hreturns as [Hreturns Hreturns_rest].
    pose proof (returns_nothing_stays_clear fuel s Hreturns st Hflag) as Hclear.
    destruct (accept_safe fuel) as [_ Hsafe].
    destruct (Hsafe s Hs st Hst Hflag) as (Hst1 & _).
    simpl. unfold bind.
    destruct (accept_stmt fuel s st) as [st1 [[] | | |]]; simpl in *; auto.
  - intros now_. split; [apply Interpreter_new_safe | done].
Qed.

Lemma safety_witness :
  store_safe fresh_interpreter /\
  returning_ fresh_interpreter = false /\
  forallb parsed_stmt factorial = true /\
  forallb returns_nothing factorial = true /\
  raises_only_Interpreter_error (interpret 30 factorial fresh_interpreter).2.
Proof.
  split; [apply Interpreter_new_safe |]. split; [reflexivity |].
  split; [reflexivity |]. split; [reflexivity |].
  destruct (parsed_program_raises_only_interpreter_errors 30 factorial
              fresh_interpreter (Interpreter_new_safe _) eq_refl eq_refl eq_refl)
    as [Hraises _].
  exact Hraises.
Defined.

(** ** The scope chain in the states a program reaches *)

(** X15: in every state a program reaches from the interpreter as
    constructed, and after every statement run in such a state, completed
    or failed, the frame that a frame encloses was created before it, the
    active environment is a frame of the store and so is the closure
    environment of every function. So the chain of enclosing frames is
    finite and without cycle: [find_in_chain] from frame number [env]
    visits at most [env + 1] frames (a larger bound on its recursion gives
    the same answer) and finds a binding in that frame or in an older
    one. *)
Theorem every_frame_encloses_an_older_frame fuel st :
  state_wf st ->
  (forall s, state_wf (accept_stmt fuel s st).1) /\
  (forall statements, state_wf (interpret fuel statements st).1) /\
  (forall now_, state_wf (Interpreter_new now_)) /\
  (forall depth env var_name,
     env < depth ->
     find_in_chain_from (environments st) depth env var_name
     = find_in_chain (environments st) env var_name) /\
  (forall env var_name found,
     find_in_chain (environments st) env var_name = Some found ->
     found.1 <= env).
Proof.
  intros Hwf.
  split; [intros; by apply accept_stmt_wf |].
  split; [intros; by apply interpret_wf |].
  split; [apply Interpreter_new_wf |]. split.
  - intros depth env var_name Hdepth.
    apply find_in_chain_from_enough; [apply Hwf | done | lia].
  - intros env var_name found Hfound.
    eapply find_in_chain_from_found; [exact Hfound | apply Hwf].
Qed.

Lemma chain_witness :
  state_wf fresh_interpreter /\
  state_wf (interpret 12 closures_in_loop fresh_interpreter).1.
Proof.
  split; [apply Interpreter_new_wf |].
  destruct (every_frame_encloses_an_older_frame 12 fresh_interpreter
              (Interpreter_new_wf _)) as (_ & Hrun & _).
  exact (Hrun closures_in_loop).
Defined.

(** ** Where a statement declares *)

(** X16: a statement run in a well-formed state, completed or failed,
    binds new names in the active frame only: every other frame that
    existed binds the names it bound, in the same order (the frames of the
    blocks and calls it ran are new), and the active environment is the
    same afterwards; [if (c) var x = 1;] declares [x] in the enclosing
    scope, since only a block or a call opens one. *)
Theorem statement_declares_in_the_active_frame_only fuel s st :
  state_wf st ->
  environment_ (accept_stmt fuel s st).1 = environment_ st /\
  (forall env,
     env < length (environments st) ->
     env <> environment_ st ->
     bound_names (environments (accept_stmt fuel s st).1) !! env
     = bound_names (environments st) !! env) /\
  (forall condition name initializer st1 c,
     evaluate fuel condition st = (st1, Ok c) ->
     Is_truthy_visitor c = true ->
     accept_stmt (S (S fuel))
       (If_stmt condition (Var_stmt name (Some initializer)) None) st
     = accept_stmt (S fuel) (Var_stmt name (Some initializer)) st1).
Proof.
  intros Hwf. destruct (accept_grows fuel) as [_ Hgrows].
  destruct (Hgrows s st Hwf) as (_ & Henv & _ & _ & Hnames).
  split; [done |]. split.
  - intros env Hlt Hother. apply Hnames; [done | congruence].
  - intros condition name initializer st1 c Hc Htruthy.
    assert (Hc' : evaluate (S fuel) condition st = (st1, Ok c)).
    { unfold evaluate, apply_visitor, bind in Hc |- *.
      destruct (accept_expr fuel condition st) as [st0 [[] | | |]] eqn:Hrun;
        try done.
      rewrite (accept_expr_more_fuel fuel (S fuel) _ _ _ _ Hrun); [done | done | lia]. }
    rewrite (accept_stmt_S (S fuel)). unfold visit_stmt at 1, visit_If_stmt.
    unfold evaluate in Hc'. rewrite (bind_Ok _ _ _ _ _ Hc'), Htruthy.
    unfold bind.
    destruct (accept_stmt (S fuel) (Var_stmt name (Some initializer)) st1)
      as [st2 [[] | | |]]; try done.
    unfold gets. by destruct (returning_ st2).
Qed.

Lemma declares_witness :
  let st := (interpret 2 [Var_stmt (ident "a") (Some (num 1))] fresh_interpreter).1 in
  let s := Block_stmt [Var_stmt (ident "b") (Some (num 2))] in
  state_wf st /\ environment_ (accept_stmt 3 s st).1 = environment_ st.
Proof.
  assert (Hwf : state_wf
            (interpret 2 [Var_stmt (ident "a") (Some (num 1))] fresh_interpreter).1)
    by apply interpret_wf, Interpreter_new_wf.
  split; [exact Hwf |].
  destruct (statement_declares_in_the_active_frame_only 3
              (Block_stmt [Var_stmt (ident "b") (Some (num 2))]) _ Hwf)
    as [Henv _].
  exact Henv.
Defined.

(** ** A return stays inside its call *)

(** X17: a return does not leak out of the call it is in. An expression
    evaluated with the is-returning flag clear, calls included, leaves the
    flag clear, whether it yields a value, fails or is cut short: the call
    of a function clears the flag that a return in its body has set. And a
    statement started with the flag clear that leaves it set has
    completed: once a return has set the flag, nothing is evaluated and no
    error is raised until the enclosing call has cleared it. *)
Theorem a_return_stays_inside_its_call fuel st :
  returning_ st = false ->
  (forall e, returning_ (accept_expr fuel e st).1 = false) /\
  (forall callable arguments,
     returning_ (call_at fuel callable arguments st).1 = false) /\
  (forall s,
     returning_ (accept_stmt fuel s st).1 = true ->
     (accept_stmt fuel s st).2 = Ok tt).
Proof.
  intros Hst. destruct (accept_contains fuel) as [He Hs].
  split; [intros e; by apply He |]. split; [| intros s; by apply Hs].
  intros callable arguments. by apply call_stays_clear.
Qed.

Lemma contained_witness :
  let st := (accept_stmt 1 declare_early_return fresh_interpreter).1 in
  returning_ st = false /\
  returning_ (accept_expr 5 (call_ "g" []) st).1 = false.
Proof.
  split; [reflexivity |].
  destruct (a_return_stays_inside_its_call 5
              (accept_stmt 1 declare_early_return fresh_interpreter).1 eq_refl)
    as [He _].
  exact (He (call_ "g" [])).
Defined.

(** ** The rendering of a callable *)

Lemma append_closing_inj a b : a +:+ ">" = b +:+ ">" -> a = b.
Proof.
  revert b. induction a as [| x a IH]; intros [| y b] H; simpl in H.
  - reflexivity.
  - injection H as _ H. by destruct b.
  - injection H as _ H. by destruct a.
  - injection H as -> H. f_equal. by apply IH.
Qed.

(** X18: a function renders as "<fn " followed by its name and ">", and
    the clock as "<fn clock>". So two functions render alike exactly when
    they have the same name, whatever their parameters, bodies and closure
    environments are, and a function renders like the clock exactly when it
    is named [clock]; the rendering does not tell apart what [==] tells
    apart. *)
Theorem callables_render_by_name name parameters body enclosed :
  (forall name' parameters' body' enclosed',
     Callable_to_string (Function name parameters body enclosed)
     = Callable_to_string (Function name' parameters' body' enclosed')
     <-> lexeme name = lexeme name') /\
  (Callable_to_string (Function name parameters body enclosed)
   = Callable_to_string Clock_callable
   <-> lexeme name = "clock") /\
  (forall p q,
     Is_equal_visitor (Lit_callable p) (Lit_callable q) = true <-> p = q).
Proof.
  split; [| split].
  - intros name' parameters' body' enclosed'. simpl. split.
    + intros [= H]. by apply append_closing_inj.
    + by intros ->.
  - simpl. split.
    + intros [= H]. by apply (append_closing_inj _ "clock").
    + by intros ->.
  - intros p q. simpl. apply bool_decide_eq_true.
Qed.

Lemma render_witness :
  lexeme (ident "f") = lexeme (ident "f") /\
  Callable_to_string (Function (ident "f") [] [] 0)
  = Callable_to_string (Function (ident "f") [ident "n"] [Print_stmt (num 1)] 3).
Proof.
  split; [reflexivity |].
  apply (callables_render_by_name (ident "f") [] [] 0). reflexivity.
Defined.

(** ** Only a return sets the flag *)

(** X19: only a return statement sets the is-returning flag. A statement
    that contains no return statement (the bodies of the functions it
    declares apart), started with the flag clear, leaves the flag clear,
    whatever it calls and whether it completes or fails; and so does a
    program made of such statements. So the flag is found set between two
    statements of a program only after a return at the top level. *)
Theorem only_a_return_sets_the_flag fuel st :
  returning_ st = false ->
  (forall s,
     returns_nothing s = true ->
     returning_ (accept_stmt fuel s st).1 = false) /\
  (forall statements,
     forallb returns_nothing statements = true ->
     returning_ (interpret fuel statements st).1 = false).
Proof.
  intros Hst. split.
  - intros s Hs. by apply returns_nothing_stays_clear.
  - intros statements. revert st Hst.
    induction statements as [| s rest IH]; intros st Hst Hparsed; [done |].
    simpl in Hparsed. apply andb_prop in Hparsed as [Hs Hrest]. simpl.
    pose proof (returns_nothing_stays_clear fuel s Hs st Hst) as Hclear.
    unfold bind. destruct (accept_stmt fuel s st) as [st1 [[] | | |]]; auto.
Qed.

Lemma only_return_witness :
  returning_ fresh_interpreter = false /\
  forallb returns_nothing nested_return = true /\
  returning_ (interpret 12 nested_return fresh_interpreter).1 = false.
Proof.
  split; [reflexivity |]. split; [reflexivity |].
  destruct (only_a_return_sets_the_flag 12 fresh_interpreter eq_refl)
    as [_ Hrun].
  exact (Hrun nested_return eq_refl).
Defined.

(** ** What is not cut short *)

Lemma finishes_ret {A} (a : A) : finishes (ret a).
Proof. intros st. done. Qed.

Lemma finishes_throw {A} e : finishes (@throw A e).
Proof. intros st. done. Qed.

Lemma finishes_gets {A} (f : Interpreter -> A) : finishes (gets f).
Proof. intros st. done. Qed.

Lemma finishes_modify f : finishes (modify f).
Proof. intros st. done. Qed.

Lemma finishes_define var_name v : finishes (define var_name v).
Proof.
  intros st. unfold define.
  destruct (environments st !! environment_ st) as [frame |]; [| done].
  by destruct (find_own_or_make var_name frame).
Qed.

Lemma finishes_bind {A B} (m : M A) (k : A -> M B) :
  finishes m -> (forall a, finishes (k a)) -> finishes (bind m k).
Proof.
  intros Hm Hk st. unfold bind. specialize (Hm st).
  destruct (m st) as [st1 [a | e | |]]; simpl in *; try done. apply Hk.
Qed.

Lemma finishes_finally {A} f (m : M A) : finishes m -> finishes (finally f m).
Proof. intros Hm st. unfold finally. specialize (Hm st). by destruct (m st). Qed.

(** One step of a proof that a visitor finishes. *)
Ltac finishes_step :=
  lazymatch goal with
  | |- finishes (ret _) => apply finishes_ret
  | |- finishes (throw _) => apply finishes_throw
  | |- finishes (gets _) => apply finishes_gets
  | |- finishes (modify _) => apply finishes_modify
  | |- finishes (define _ _) => apply finishes_define
  | |- finishes (numeric _ _ _ _) => unfold numeric
  | |- finishes (bind _ _) => apply finishes_bind; [| intros ?]
  | |- finishes (match ?x with _ => _ end) => destruct x
  end.

Lemma run_block_finishes accept statements :
  Forall (fun s => finishes (accept s)) statements ->
  finishes (run_block accept statements).
Proof. induction 1; simpl; repeat first [done | finishes_step]. Qed.

Lemma code_without_calls_and_loops_finishes fuel :
  (forall e,
     calls_nothing_expr e = true -> expr_depth e <= fuel ->
     finishes (accept_expr fuel e)) /\
  (forall s,
     calls_nothing s = true -> loops_nothing s = true -> stmt_depth s <= fuel ->
     finishes (accept_stmt fuel s)).
Proof.
  induction fuel as [| fuel [IHe IHs]].
  - split; [intros [] ? ?; simpl in *; lia | intros [] ? ? ?; simpl in *; lia].
  - assert (Heval : forall e, calls_nothing_expr e = true -> expr_depth e <= fuel ->
              finishes (apply_visitor (accept_expr fuel) e)).
    { intros e He Hdepth. unfold apply_visitor.
      apply finishes_bind; [by apply IHe | intros _; apply finishes_gets]. }
    split.
    + intros e He Hdepth. rewrite accept_expr_S.
      destruct e; simpl in He, Hdepth |- *; try done;
        repeat (apply andb_prop in He as [? He]);
        unfold visit_Unary_expr, visit_Binary_expr, visit_Assign_expr,
          visit_Logical_expr;
        repeat first [ done | apply Heval; [assumption | lia]
                     | apply IHe; [assumption | lia] | finishes_step ].
      intros st. unfold visit_Var_expr.
      destruct (find_in_chain _ _ _); [| done]. by destruct (read_at _ _).
    + intros s Hs Hloops Hdepth. rewrite accept_stmt_S.
      destruct s as [expr | condition then_branch else_branch | condition body
                    | expr | name initializer | statements | name parameters body
                    | value]; simpl in Hs, Hloops, Hdepth |- *; try done.
      * apply IHe; [done | lia].
      * apply andb_prop in Hs as [Hs Helse]. apply andb_prop in Hs as [Hc Hthen].
        apply andb_prop in Hloops as [Hlthen Hlelse].
        unfold visit_If_stmt.
        apply finishes_bind; [apply Heval; [done | lia] | intros c].
        destruct (Is_truthy_visitor c).
        -- apply finishes_bind; [apply IHs; [done | done | lia] | intros _].
           repeat first [done | finishes_step].
        -- destruct else_branch; [apply IHs; [done | done | lia] | apply finishes_ret].
      * unfold visit_Print_stmt.
        apply finishes_bind; [apply Heval; [done | lia] | intros v].
        apply finishes_modify.
      * unfold visit_Var_stmt.
        apply finishes_bind; [| intros v; apply finishes_define].
        destruct initializer; [apply Heval; [done | lia] | apply finishes_ret].
      * intros st. unfold visit_Block_stmt. apply finishes_finally.
        apply finishes_bind; [by intros st1 | intros _].
        apply run_block_finishes. apply Forall_forall. intros s Hin.
        apply list_elem_of_In in Hin.
        rewrite forallb_forall in Hs, Hloops.
        apply IHs; [by apply Hs | by apply Hloops |].
        assert (Hmax : list_max (map stmt_depth statements) <= fuel) by lia.
        apply list_max_le in Hmax. rewrite List.Forall_map in Hmax.
        by apply (proj1 (List.Forall_forall _ _) Hmax).
      * unfold visit_Function_stmt.
        repeat first [done | finishes_step].
      * unfold visit_Return_stmt.
        apply finishes_bind; [| intros v; repeat first [done | finishes_step]].
        destruct value; [apply Heval; [done | lia] | apply finishes_ret].
Qed.

(** X20: the bound on the recursion of the visitors is reached by loops
    and calls only. An expression without a call finishes with any bound
    that is at least the depth of its nesting, and so does a statement
    without a call and without a loop: it yields a value or raises an
    error, and is never cut short. *)
Theorem without_calls_and_loops_the_bound_is_not_reached fuel st :
  (forall e,
     calls_nothing_expr e = true -> expr_depth e <= fuel ->
     (accept_expr fuel e st).2 <> Out_of_fuel) /\
  (forall s,
     calls_nothing s = true -> loops_nothing s = true -> stmt_depth s <= fuel ->
     (accept_stmt fuel s st).2 <> Out_of_fuel).
Proof.
  destruct (code_without_calls_and_loops_finishes fuel) as [He Hs].
  split; [intros e ? ?; by apply He | intros s ? ? ?; by apply Hs].
Qed.

Lemma bound_witness :
  calls_nothing print_twice = true /\
  loops_nothing print_twice = true /\
  stmt_depth print_twice <= 3 /\
  (accept_stmt 3 print_twice fresh_interpreter).2 <> Out_of_fuel.
Proof.
  split; [reflexivity |]. split; [reflexivity |]. split; [simpl; lia |].
  destruct (without_calls_and_loops_the_bound_is_not_reached 3 fresh_interpreter)
    as [_ Hs].
  apply (Hs print_twice); [reflexivity | reflexivity | simpl; lia].
Defined.
